(** * svelte-mcp-client: the protocol client core

    A shallow embedding of the TypeScript core of the library:
    - [Emitter]        (lib/core/emitter.ts)
    - [McpTransport]   (lib/core/transport.ts, the transport interface)
    - [SseTransport]   (lib/transports/sse.ts)
    - [McpClient]      (lib/core/client.ts)
    - [McpStores]      (lib/stores/createMcpStores.ts)

    JavaScript objects are records, the mutable fields of a class are the
    fields of a state record that every method threads through the [Run]
    monad, and everything a method does to the outside world (calling the
    subscribers of an emitter, [setTimeout], [clearTimeout], opening or
    closing an [EventSource], [fetch], settling a promise) is appended to
    the list of [Effect]s the monad writes.

    Conventions of the embedding:
    - a JavaScript [number] is an IEEE 754 double ([Number.t]), computed
      as the hardware does; the retry counter, which only ever
      holds 0, 1, 2, ..., is a [nat], and so are the handles of timeouts
      and promises; [Date.now()] and an HTTP status are integers ([Z]);
    - the readings of the host during one turn of the event loop
      ([Date.now()], [Math.random()]) are arguments of the method that
      takes them;
    - a callback registered with an emitter is known by its identity, a
      [Handler]; callbacks of code outside the core are observers: they do
      not throw and do not call back into the core while they run. *)

From Stdlib Require Import QArith Qround Qminmax Qpower Qabs Lqa Ascii
  DecimalString.
From Stdlib Require SpecFloat.
From stdpp Require Import base strings option list.

(** An integer as a template literal prints it. *)
Definition number_to_string (z : Z) : string :=
  NilZero.string_of_int (Z.to_int z).

(** ** Numbers

    A JavaScript number is an IEEE 754 double (binary64). [spec_float]
    is the Standard Library's specification of the doubles and of their
    arithmetic, which rounds each result to the nearest double, ties to
    the even one: a zero or an infinity with its sign, [NaN], or
    [S754_finite s m e], the number [(-1)^s * m * 2^e]. *)
Module Number.
Import SpecFloat.

Definition t : Type := spec_float.

Definition prec : Z := 53.
Definition emax : Z := 1024.

Definition NaN : t := S754_nan.
Definition Infinity : t := S754_infinity false.

Definition add : t → t → t := SFadd prec emax.
Definition sub : t → t → t := SFsub prec emax.
Definition mul : t → t → t := SFmul prec emax.
Definition div : t → t → t := SFdiv prec emax.

(** The double of an integer literal: exact up to 53 bits, rounded
    beyond. *)
Definition of_pos (s : bool) (p : positive) : t :=
  let d := Zpos (digits2_pos p) in
  if (d <=? prec)%Z then
    S754_finite s (Z.to_pos (Z.shiftl (Zpos p) (prec - d))) (d - prec)
  else binary_round prec emax s p 0.

Definition of_Z (z : Z) : t :=
  match z with
  | Z0 => S754_zero false
  | Zpos p => of_pos false p
  | Zneg p => of_pos true p
  end.

(** [2 ** n] for a count [n]: exact, and [Infinity] from [2 ** 1024]
    on. *)
Definition pow2 (n : nat) : t :=
  SFldexp prec emax (SFone prec emax) (Z.of_nat n).

(** [ToNumber] of a member that may be [undefined]. *)
Definition ToNumber (v : option t) : t := default NaN v.

(** Neither [NaN] nor an infinity. *)
Definition finite (x : t) : bool :=
  match x with
  | S754_finite _ _ _ | S754_zero _ => true
  | _ => false
  end.

(** A zero, of either sign; a finite number that is not zero. *)
Definition is_zero (x : t) : bool :=
  match x with
  | S754_zero _ => true
  | _ => false
  end.

Definition nonzero (x : t) : bool :=
  match x with
  | S754_finite _ _ _ => true
  | _ => false
  end.

(** One of the doubles: its mantissa has at most 53 bits and is
    normalised. *)
Definition valid (x : t) : bool := valid_binary prec emax x.

(** The real number a finite double stands for. *)
Definition value (x : t) : Q :=
  match x with
  | S754_finite s m e => (inject_Z (if s then Zneg m else Zpos m) * 2 ^ e)%Q
  | _ => 0%Q
  end.

(** [x < y] and [x <= y]: false when either is [NaN]. *)
Definition ltb : t → t → bool := SFltb.
Definition leb : t → t → bool := SFleb.

(** *** [Number::toString] (ECMA-262, radix 10)

    The digits are those of the shortest decimal that reads back as
    the same double, the closest one if there are several. *)
Definition Qlt_bool (a b : Q) : bool := negb (Qle_bool b a).

Section Digits.
Variables (m : positive) (e : Z).

(** The double is [v]; the reals that round to it lie between [lo] and
    [hi], the ends included when the mantissa is even. *)
Definition v : Q := (inject_Z (Zpos m) * 2 ^ e)%Q.

Definition lo : Q :=
  (v - (if (Zpos m =? 2 ^ (prec - 1))%Z && (3 - emax - prec <? e)%Z
        then 2 ^ (e - 1) else 2 ^ e) / 2)%Q.

Definition hi : Q := (v + 2 ^ e / 2)%Q.

Definition reads_back (q : Q) : bool :=
  if Z.even (Zpos m) then Qle_bool lo q && Qle_bool q hi
  else Qlt_bool lo q && Qlt_bool q hi.

(** The least [n] from [n] on with [v < 10^n]. *)
Fixpoint magnitude (fuel : nat) (n : Z) : Z :=
  match fuel with
  | O => n
  | S fuel' => if Qlt_bool v (10 ^ n) then n else magnitude fuel' (n + 1)
  end.

(** The integers [s] of [k] digits with [s * 10^(n-k)] next to [v]
    that read back as [v]. *)
Definition candidates (k n : Z) : list (Z * Z) :=
  let s := Qfloor (v / 10 ^ (n - k)) in
  filter (λ sn : Z * Z,
            (10 ^ (k - 1) <=? sn.1)%Z && (sn.1 <? 10 ^ k)%Z
            && reads_back (inject_Z sn.1 * 10 ^ (n - k)))
         [(s, n); ((s + 1)%Z, n)].

Definition distance (k : Z) (sn : Z * Z) : Q :=
  Qabs (inject_Z sn.1 * 10 ^ (sn.2 - k) - v).

Fixpoint closest (k : Z) (best : Z * Z) (rest : list (Z * Z)) : Z * Z :=
  match rest with
  | [] => best
  | c :: rest' =>
      closest k
        (if Qlt_bool (distance k c) (distance k best) then c else best)
        rest'
  end.

(** The digits [s], the exponent [n] and the number of digits [k]:
    17 digits always suffice. *)
Fixpoint shortest (fuel : nat) (k n0 : Z) : Z * Z * Z :=
  match fuel with
  | O => (0%Z, 0%Z, 0%Z)
  | S fuel' =>
      match candidates k n0 ++ candidates k (n0 + 1) with
      | [] => shortest fuel' (k + 1)%Z n0
      | c :: rest => (closest k c rest, k)
      end
  end.
End Digits.

Fixpoint zeros (n : nat) : string :=
  match n with
  | O => EmptyString
  | S n' => String "0" (zeros n')
  end.

Definition format (s n k : Z) : string :=
  let ds := number_to_string s in
  if (k <=? n)%Z && (n <=? 21)%Z then ds +:+ zeros (Z.to_nat (n - k))
  else if (0 <? n)%Z && (n <=? 21)%Z then
    String.substring 0 (Z.to_nat n) ds +:+ "."
    +:+ String.substring (Z.to_nat n) (Z.to_nat (k - n)) ds
  else if (-6 <? n)%Z && (n <=? 0)%Z then
    "0." +:+ zeros (Z.to_nat (- n)) +:+ ds
  else
    (if (k =? 1)%Z then ds
     else String.substring 0 1 ds +:+ "."
          +:+ String.substring 1 (Z.to_nat (k - 1)) ds)
    +:+ "e" +:+ (if (n - 1 <? 0)%Z then "-" else "+")
    +:+ number_to_string (Z.abs (n - 1)).

Definition toString (x : t) : string :=
  match x with
  | S754_nan => "NaN"
  | S754_zero _ => "0"
  | S754_infinity s => if s then "-Infinity" else "Infinity"
  | S754_finite s m e =>
      let b := (Zpos (digits2_pos m) + e)%Z in
      let n0 := magnitude m e 5 ((b - 1) * 30103 / 100000 - 1)%Z in
      let '(digits, n, k) := shortest m e 21 1%Z n0 in
      (if s then "-" else EmptyString) +:+ format digits n k
  end.
End Number.

Abbreviation number := Number.t.

Declare Scope number_scope.
Delimit Scope number_scope with number.
Bind Scope number_scope with Number.t.
Infix "+" := Number.add : number_scope.
Infix "-" := Number.sub : number_scope.
Infix "*" := Number.mul : number_scope.
Infix "/" := Number.div : number_scope.

Arguments Number.add : simpl never.
Arguments Number.sub : simpl never.
Arguments Number.mul : simpl never.
Arguments Number.div : simpl never.
Arguments Number.of_Z : simpl never.
Arguments Number.pow2 : simpl never.
Arguments Number.toString : simpl never.

(** [Math.min] and [Math.round] on doubles. *)
Module Math.
Import SpecFloat.

(** [Math.min(a, b)]: [NaN] when either is, and [-0] is below [+0]. *)
Definition min (a b : number) : number :=
  match SFcompare a b with
  | None => Number.NaN
  | Some Lt => a
  | Some Gt => b
  | Some Eq => match a with S754_zero true => a | _ => b end
  end.

(** [Math.round(x)]: the integer nearest to [x], the greater one when
    [x] lies half way; the sign of [x] is kept when the result is
    zero; [NaN] and the infinities are returned as they are. A double
    whose exponent is not negative is an integer already. *)
Definition round (x : number) : number :=
  match x with
  | S754_finite s m e =>
      if (0 <=? e)%Z then x
      else
        let z := Qfloor (Number.value x + (1 # 2))%Q in
        if (z =? 0)%Z then S754_zero s else Number.of_Z z
  | _ => x
  end.
End Math.

Arguments Math.min : simpl never.
Arguments Math.round : simpl never.

(** ** JSON values and the wire types (lib/core/types.ts) *)

#[local] Unset Elimination Schemes.
Inductive JsonValue : Type :=
| JNull
| JBool (b : bool)
| JNumber (n : number)
| JString (s : string)
| JArray (items : list JsonValue)
| JObject (fields : list (string * JsonValue)).
#[local] Set Elimination Schemes.

(** The [error] member of a message: [{ message, code?, data? }]. *)
Record ErrorInfo := mkErrorInfo {
  e_message : string;
  e_code : option number;
  e_data : option JsonValue
}.

(** A JSON value that is not an object with members: [null], a boolean,
    a number, a string or an array. *)
Inductive NonObject :=
| NNull
| NBool (b : bool)
| NNumber (n : number)
| NString (s : string)
| NArray (items : list JsonValue).

(** [McpMessage]: an object, every member of which is optional. What a
    transport hands on as a message is typed by a cast that checks
    nothing ([JSON.parse(event.data) as McpMessage]), so it is any value
    [JSON.parse] returns: an object, whose members are taken to have the
    types [McpMessage] declares, or a value that is no object
    ([NotObject]). *)
Inductive McpMessage :=
| mkMessage (id method : option string) (params result : option JsonValue)
    (error : option ErrorInfo)
| NotObject (v : NonObject).

(** [message.id], [message.method], ...: [undefined] (here [None]) on a
    boolean, a number, a string and an array, which have no such
    member. Reading a member of [null] throws; the code that reads one
    says so where it does (see [throws]). *)
Definition m_id (m : McpMessage) : option string :=
  match m with mkMessage id _ _ _ _ => id | NotObject _ => None end.

Definition m_method (m : McpMessage) : option string :=
  match m with mkMessage _ method _ _ _ => method | NotObject _ => None end.

Definition m_params (m : McpMessage) : option JsonValue :=
  match m with mkMessage _ _ params _ _ => params | NotObject _ => None end.

Definition m_result (m : McpMessage) : option JsonValue :=
  match m with mkMessage _ _ _ result _ => result | NotObject _ => None end.

Definition m_error (m : McpMessage) : option ErrorInfo :=
  match m with mkMessage _ _ _ _ error => error | NotObject _ => None end.

Inductive McpStatus :=
| Disconnected | Connecting | Connected | Reconnecting | ErrorStatus.

Inductive McpLogLevel := LevelInfo | LevelWarn | LevelError | LevelDebug.

Record McpLog := mkLog {
  l_level : McpLogLevel;
  l_message : string;
  l_time : Z;
  l_data : option JsonValue
}.

(** A JavaScript [Error] object: only its message is ever read. *)
Record JsError := Error { err_message : string }.

(** What a [catch] clause may receive: an [Error] or any other value. *)
Inductive Thrown := ThrownError (e : JsError) | ThrownOther.

Global Instance McpStatus_eq_dec : EqDecision McpStatus.
Proof. solve_decision. Defined.

(** The status as the template literal [`status ${status}`] prints it. *)
Definition status_name (s : McpStatus) : string :=
  match s with
  | Disconnected => "disconnected"
  | Connecting => "connecting"
  | Connected => "connected"
  | Reconnecting => "reconnecting"
  | ErrorStatus => "error"
  end.

(** [message as unknown as JsonValue]: the object with the members that
    are present. *)
Definition error_to_json (e : ErrorInfo) : JsonValue :=
  JObject (("message", JString (e_message e))
           :: from_option (λ c, [("code", JNumber c)]) [] (e_code e)
           ++ from_option (λ d, [("data", d)]) [] (e_data e)).

Definition nonobject_to_json (v : NonObject) : JsonValue :=
  match v with
  | NNull => JNull
  | NBool b => JBool b
  | NNumber n => JNumber n
  | NString s => JString s
  | NArray items => JArray items
  end.

Definition message_to_json (m : McpMessage) : JsonValue :=
  match m with
  | NotObject v => nonobject_to_json v
  | mkMessage _ _ _ _ _ =>
      JObject (from_option (λ i, [("id", JString i)]) [] (m_id m)
               ++ from_option (λ x, [("method", JString x)]) [] (m_method m)
               ++ from_option (λ p, [("params", p)]) [] (m_params m)
               ++ from_option (λ r, [("result", r)]) [] (m_result m)
               ++ from_option (λ e, [("error", error_to_json e)]) []
                    (m_error m))
  end.

(** ** Subscribers, events and effects *)

(** The identity of a callback held by an emitter. [ClientHook] is the
    closure the client's constructor registers with its transport (one per
    emitter); [External k] is a callback of code outside the core. *)
Inductive Handler := ClientHook | External (k : nat).

Global Instance Handler_eq_dec : EqDecision Handler.
Proof. solve_decision. Defined.

(** The payload of one [emit]. *)
Inductive Event :=
| EvMessage (m : McpMessage)
| EvStatus (s : McpStatus)
| EvError (e : JsError)
| EvLog (l : McpLog).

(** What a callback throws when it is called with [ev]. The callbacks
    of the client return normally but for one case: [handleMessage]
    reads [message.id], which is a [TypeError] when the message is
    [null] (lib/core/client.ts, line 191; the text of the error is the
    one Node.js and Chrome give).
    Callbacks of code outside the core do not throw. *)
Definition null_has_no_id : JsError :=
  Error "Cannot read properties of null (reading 'id')".

Definition throws (ev : Event) (h : Handler) : option Thrown :=
  match h, ev with
  | ClientHook, EvMessage (NotObject NNull) =>
      Some (ThrownError null_has_no_id)
  | _, _ => None
  end.

(** The outcome of a promise. *)
Inductive Settled :=
| Unsettled
| Resolved (v : JsonValue)
| Rejected (e : JsError).

(** What a method of a transport does to the world outside its own
    fields. *)
Inductive TransportEffect :=
| TEmit (ev : Event) (to : list Handler)
    (* one [emitter.emit(payload)]: the handlers it calls, in order *)
| TSetTimeout (h : nat) (delay : number)
| TClearTimeout (h : nat)
| NewEventSource (h : nat) (url : string)
| CloseEventSource (h : nat)
| Fetch (url : string) (body : McpMessage).

(** What a method of the client does to the world outside its own fields,
    in order: what the transport does while the client calls it, and what
    the client does itself. *)
Inductive Effect :=
| FromTransport (e : TransportEffect)
| Emit (ev : Event) (to : list Handler)
| Logger (l : McpLog)                          (* [options.logger(log)] *)
| SetTimeout (h : nat) (delay : number)
| ClearTimeout (h : nat)
| Resolve (p : nat) (v : JsonValue)            (* [resolve(v)] of promise [p] *)
| Reject (p : nat) (e : JsError).              (* [reject(e)] of promise [p] *)

(** ** The state-and-output monad of a class *)

Definition Run (E S A : Type) : Type := S → A * S * list E.

Section RunMonad.
Context {E S : Type}.

Definition ret {A} (a : A) : Run E S A := λ s, (a, s, []).

Definition bind {A B} (m : Run E S A) (k : A → Run E S B) : Run E S B :=
  λ s, let '(a, s1, o1) := m s in
       let '(b, s2, o2) := k a s1 in
       (b, s2, o1 ++ o2).

Definition get : Run E S S := λ s, (s, s, []).
Definition modify (f : S → S) : Run E S unit := λ s, (tt, f s, []).
Definition tell (o : list E) : Run E S unit := λ s, (tt, s, o).

(** The state and the effects of running [m], its result dropped. *)
Definition exec {A} (m : Run E S A) (s : S) : S * list E :=
  ((m s).1.2, (m s).2).
End RunMonad.

Ltac run_unfold := unfold exec, bind, get, modify, tell, ret in *.

Notation "x <- m ;; k" := (bind m (λ x, k))
  (at level 100, m at next level, right associativity, only parsing).
Notation "m ;;; k" := (bind m (λ _, k))
  (at level 100, right associativity, only parsing).

(** ** Emitter (lib/core/emitter.ts)

    [handlers] is the JavaScript [Set]: insertion order, no duplicates. *)
Module Emitter.
Record t := mk { handlers : list Handler }.

Definition empty : t := mk [].

(** [on(handler)]: [this.handlers.add(handler)]; the closure it returns
    is [off handler]. *)
Definition on (h : Handler) (e : t) : t :=
  if decide (h ∈ handlers e) then e else mk (handlers e ++ [h]).

(** [() => this.handlers.delete(handler)] *)
Definition off (h : Handler) (e : t) : t :=
  mk (filter (λ h', h' ≠ h) (handlers e)).

(** [emit(payload)]: every handler of the set is called, in order. *)
Definition emit (e : t) : list Handler := handlers e.

(** [emit(payload)] when a handler may throw: what it throws leaves the
    [for] loop, so the handlers after it are not called. The result is
    the handlers that are called and what escapes [emit]. *)
Fixpoint emit_until (throws : Handler → option Thrown)
    (hs : list Handler) : list Handler * option Thrown :=
  match hs with
  | [] => ([], None)
  | h :: rest =>
      match throws h with
      | Some thrown => ([h], Some thrown)
      | None => let r := emit_until throws rest in (h :: r.1, r.2)
      end
  end.

Definition clear (e : t) : t := mk [].
End Emitter.

(** ** SseTransport (lib/transports/sse.ts) *)
Module SseTransport.

(** [BackoffConfig]. A member is a number by its type, but holds
    [undefined] (here [None]) when the options give that member as
    [undefined]: the spread of the constructor copies it. *)
Record BackoffConfig := mkBackoff {
  baseDelayMs : option number;
  maxDelayMs : option number;
  jitter : option number
}.

(** [{ baseDelayMs: 500, maxDelayMs: 15000, jitter: 0.25 }] *)
Definition defaultBackoff : BackoffConfig :=
  mkBackoff (Some (Number.of_Z 500)) (Some (Number.of_Z 15000))
            (Some (Number.of_Z 1 / Number.of_Z 4)%number).

(** The private fields of the class, followed by the part of the host
    the class drives: the handles of its timeouts that are still due and
    the next handle [setTimeout] or [new EventSource] hands out.
    [retryAttempt] counts reconnects and is read by [2 ** retryAttempt]
    only; it is kept as a natural number. As a double the counter
    stops at 2^53, where [+= 1] changes nothing, but from 1024 on the
    power is [Infinity] either way. *)
Record t := mk {
  sseUrl : string;
  postUrl : string;
  status : McpStatus;
  manualClose : bool;
  retryAttempt : nat;
  reconnectConfig : BackoffConfig;
  eventSource : option nat;
  reconnectTimer : option nat;
  messageEmitter : Emitter.t;
  statusEmitter : Emitter.t;
  errorEmitter : Emitter.t;
  logEmitter : Emitter.t;
  dueTimers : list nat;
  nextHandle : nat
}.

Definition set_status (v : McpStatus) (s : t) : t :=
  mk (sseUrl s) (postUrl s) v (manualClose s) (retryAttempt s)
     (reconnectConfig s) (eventSource s) (reconnectTimer s)
     (messageEmitter s) (statusEmitter s) (errorEmitter s) (logEmitter s)
     (dueTimers s) (nextHandle s).

Definition set_manualClose (v : bool) (s : t) : t :=
  mk (sseUrl s) (postUrl s) (status s) v (retryAttempt s)
     (reconnectConfig s) (eventSource s) (reconnectTimer s)
     (messageEmitter s) (statusEmitter s) (errorEmitter s) (logEmitter s)
     (dueTimers s) (nextHandle s).

Definition set_retryAttempt (v : nat) (s : t) : t :=
  mk (sseUrl s) (postUrl s) (status s) (manualClose s) v
     (reconnectConfig s) (eventSource s) (reconnectTimer s)
     (messageEmitter s) (statusEmitter s) (errorEmitter s) (logEmitter s)
     (dueTimers s) (nextHandle s).

Definition set_eventSource (v : option nat) (s : t) : t :=
  mk (sseUrl s) (postUrl s) (status s) (manualClose s) (retryAttempt s)
     (reconnectConfig s) v (reconnectTimer s)
     (messageEmitter s) (statusEmitter s) (errorEmitter s) (logEmitter s)
     (dueTimers s) (nextHandle s).

Definition set_reconnectTimer (v : option nat) (s : t) : t :=
  mk (sseUrl s) (postUrl s) (status s) (manualClose s) (retryAttempt s)
     (reconnectConfig s) (eventSource s) v
     (messageEmitter s) (statusEmitter s) (errorEmitter s) (logEmitter s)
     (dueTimers s) (nextHandle s).

Definition set_emitters (m st e l : Emitter.t) (s : t) : t :=
  mk (sseUrl s) (postUrl s) (status s) (manualClose s) (retryAttempt s)
     (reconnectConfig s) (eventSource s) (reconnectTimer s)
     m st e l (dueTimers s) (nextHandle s).

Definition set_host (due : list nat) (next : nat) (s : t) : t :=
  mk (sseUrl s) (postUrl s) (status s) (manualClose s) (retryAttempt s)
     (reconnectConfig s) (eventSource s) (reconnectTimer s)
     (messageEmitter s) (statusEmitter s) (errorEmitter s) (logEmitter s)
     due next.

(** [SseTransportOptions]; [fetchImpl] and [EventSourceImpl] are the
    host, which the effects stand for. The last three are the members
    of [options.reconnect]: [None] when [reconnect] has no such member
    (or is itself absent), [Some None] when the member is there and
    holds [undefined], [Some (Some x)] when it holds the number [x]. *)
Record Options := mkOptions {
  opt_sseUrl : option string;
  opt_postUrl : option string;
  opt_baseDelayMs : option (option number);
  opt_maxDelayMs : option (option number);
  opt_jitter : option (option number)
}.

(** The constructor: [options.sseUrl ?? '/mcp/sse'] takes the default
    for a member that is absent or [undefined], whereas
    [{ ...defaultBackoff, ...(options.reconnect ?? {}) }] takes the
    default for a member that is absent only. *)
Definition new (o : Options) : t :=
  mk (default "/mcp/sse" (opt_sseUrl o))
     (default "/mcp" (opt_postUrl o))
     Disconnected false 0
     (mkBackoff (default (baseDelayMs defaultBackoff) (opt_baseDelayMs o))
                (default (maxDelayMs defaultBackoff) (opt_maxDelayMs o))
                (default (jitter defaultBackoff) (opt_jitter o)))
     None None
     Emitter.empty Emitter.empty Emitter.empty Emitter.empty
     [] 1.

(** *** The host's timers and event sources *)

Definition freshHandle : Run TransportEffect t nat :=
  s <- get ;;
  modify (set_host (dueTimers s) (S (nextHandle s))) ;;;
  ret (nextHandle s).

Definition setTimeout (delay : number) : Run TransportEffect t nat :=
  h <- freshHandle ;;
  s <- get ;;
  modify (set_host (dueTimers s ++ [h]) (nextHandle s)) ;;;
  tell [TSetTimeout h delay] ;;;
  ret h.

Definition clearTimeout (h : nat) : Run TransportEffect t unit :=
  s <- get ;;
  modify (set_host (filter (λ h', h' ≠ h) (dueTimers s)) (nextHandle s)) ;;;
  tell [TClearTimeout h].

(** *** Private methods *)

Definition setStatus (v : McpStatus) : Run TransportEffect t unit :=
  modify (set_status v) ;;;
  s <- get ;;
  tell [TEmit (EvStatus v) (Emitter.emit (statusEmitter s))].

Definition log (level : McpLogLevel) (message : string) (now : Z)
  : Run TransportEffect t unit :=
  s <- get ;;
  tell [TEmit (EvLog (mkLog level message now None))
             (Emitter.emit (logEmitter s))].

Definition emitError (e : JsError) (now : Z) : Run TransportEffect t unit :=
  s <- get ;;
  tell [TEmit (EvError e) (Emitter.emit (errorEmitter s))] ;;;
  log LevelError (err_message e) now.

Definition clearReconnectTimer : Run TransportEffect t unit :=
  s <- get ;;
  match reconnectTimer s with
  | Some h => clearTimeout h ;;; modify (set_reconnectTimer None)
  | None => ret tt
  end.

Definition closeEventSource : Run TransportEffect t unit :=
  s <- get ;;
  match eventSource s with
  | Some h => tell [CloseEventSource h] ;;; modify (set_eventSource None)
  | None => ret tt
  end.

(** The three callbacks [openEventSource] installs on the new source are
    [onopen], [onmessage] and [onerror] below. *)
Definition openEventSource : Run TransportEffect t unit :=
  s <- get ;;
  setStatus (if decide (status s = Connected) then Connected else Connecting) ;;;
  h <- freshHandle ;;
  tell [NewEventSource h (sseUrl s)] ;;;
  modify (set_eventSource (Some h)).

(** [exp] and [spread] of [nextBackoffDelay], in double arithmetic:
    [Math.min(maxDelayMs, baseDelayMs * 2 ** this.retryAttempt)] and
    [exp * jitter]. *)
Definition backoff_exp (c : BackoffConfig) (attempt : nat) : number :=
  Math.min (Number.ToNumber (maxDelayMs c))
           (Number.ToNumber (baseDelayMs c) * Number.pow2 attempt)%number.

Definition backoff_spread (c : BackoffConfig) (attempt : nat) : number :=
  (backoff_exp c attempt * Number.ToNumber (jitter c))%number.

(** [random] is the value of [Math.random()]. *)
Definition nextBackoffDelay (random : number) : Run TransportEffect t number :=
  s <- get ;;
  let exp := backoff_exp (reconnectConfig s) (retryAttempt s) in
  modify (set_retryAttempt (retryAttempt s + 1)) ;;;
  let spread := (exp * Number.ToNumber (jitter (reconnectConfig s)))%number in
  ret (Math.round (exp - spread + random * spread * Number.of_Z 2)%number).

Definition scheduleReconnect (random : number) (now : Z) : Run TransportEffect t unit :=
  clearReconnectTimer ;;;
  delay <- nextBackoffDelay random ;;
  log LevelWarn ("reconnect in " +:+ Number.toString delay +:+ "ms") now ;;;
  h <- setTimeout delay ;;
  modify (set_reconnectTimer (Some h)).

(** *** Public methods *)

Definition connect : Run TransportEffect t unit :=
  modify (set_manualClose false) ;;;
  clearReconnectTimer ;;;
  openEventSource.

Definition disconnect : Run TransportEffect t unit :=
  modify (set_manualClose true) ;;;
  clearReconnectTimer ;;;
  closeEventSource ;;;
  setStatus Disconnected.

Definition isConnected (s : t) : bool :=
  bool_decide (status s = Connected).

(** [send]: the POST is issued now; its promise settles when the host
    reports the outcome of the [fetch], see [send_outcome]. *)
Definition send (message : McpMessage) : Run TransportEffect t unit :=
  s <- get ;;
  tell [Fetch (postUrl s) message].

(** How a [fetch] ends: with a response, or rejected by the network. *)
Inductive FetchOutcome :=
| Response (ok : bool) (status : Z)
| NetworkFailure (e : JsError).

(** The error [send] rejects with, [None] when it fulfils. *)
Definition send_outcome (o : FetchOutcome) : option JsError :=
  match o with
  | Response true _ => None
  | Response false st => Some (Error ("POST failed: " +:+ number_to_string st))
  | NetworkFailure e => Some e
  end.

(** The closures the four subscription methods return:
    [() => this.handlers.delete(handler)]. *)
Definition offMessage (h : Handler) : Run TransportEffect t unit :=
  s <- get ;;
  modify (set_emitters (Emitter.off h (messageEmitter s)) (statusEmitter s)
                       (errorEmitter s) (logEmitter s)).

Definition offStatus (h : Handler) : Run TransportEffect t unit :=
  s <- get ;;
  modify (set_emitters (messageEmitter s) (Emitter.off h (statusEmitter s))
                       (errorEmitter s) (logEmitter s)).

Definition offError (h : Handler) : Run TransportEffect t unit :=
  s <- get ;;
  modify (set_emitters (messageEmitter s) (statusEmitter s)
                       (Emitter.off h (errorEmitter s)) (logEmitter s)).

Definition offLog (h : Handler) : Run TransportEffect t unit :=
  s <- get ;;
  modify (set_emitters (messageEmitter s) (statusEmitter s)
                       (errorEmitter s) (Emitter.off h (logEmitter s))).

Definition onMessage (h : Handler) : Run TransportEffect t (Run TransportEffect t unit) :=
  s <- get ;;
  modify (set_emitters (Emitter.on h (messageEmitter s)) (statusEmitter s)
                       (errorEmitter s) (logEmitter s)) ;;;
  ret (offMessage h).

Definition onStatus (h : Handler) : Run TransportEffect t (Run TransportEffect t unit) :=
  s <- get ;;
  modify (set_emitters (messageEmitter s) (Emitter.on h (statusEmitter s))
                       (errorEmitter s) (logEmitter s)) ;;;
  ret (offStatus h).

Definition onError (h : Handler) : Run TransportEffect t (Run TransportEffect t unit) :=
  s <- get ;;
  modify (set_emitters (messageEmitter s) (statusEmitter s)
                       (Emitter.on h (errorEmitter s)) (logEmitter s)) ;;;
  ret (offError h).

Definition onLog (h : Handler) : Run TransportEffect t (Run TransportEffect t unit) :=
  s <- get ;;
  modify (set_emitters (messageEmitter s) (statusEmitter s)
                       (errorEmitter s) (Emitter.on h (logEmitter s))) ;;;
  ret (offLog h).

(** *** The callbacks of the event source and of the reconnect timer *)

Section Callbacks.
(** [JSON.parse(event.data) as McpMessage]: what [JSON.parse] throws,
    or the value it returns, whatever it is. *)
Variable JSON_parse : string → Thrown + McpMessage.

Definition onopen (now : Z) : Run TransportEffect t unit :=
  modify (set_retryAttempt 0) ;;;
  setStatus Connected ;;;
  log LevelInfo "sse connected" now.

(** [error instanceof Error ? error : new Error('Invalid SSE payload')] *)
Definition caught (thrown : Thrown) : JsError :=
  match thrown with
  | ThrownError e => e
  | ThrownOther => Error "Invalid SSE payload"
  end.

(** The [try] block holds both [JSON.parse] and
    [this.messageEmitter.emit(parsed)]: what a subscriber throws is
    caught as what [JSON.parse] throws is. *)
Definition onmessage (data : string) (now : Z) : Run TransportEffect t unit :=
  match JSON_parse data with
  | inr parsed =>
      s <- get ;;
      let called := Emitter.emit_until (throws (EvMessage parsed))
                      (Emitter.handlers (messageEmitter s)) in
      tell [TEmit (EvMessage parsed) called.1] ;;;
      match called.2 with
      | Some thrown => emitError (caught thrown) now
      | None => ret tt
      end
  | inl thrown => emitError (caught thrown) now
  end.

Definition onerror (random : number) (now : Z) : Run TransportEffect t unit :=
  s <- get ;;
  if manualClose s then ret tt
  else
    emitError (Error "SSE connection error") now ;;;
    setStatus Reconnecting ;;;
    scheduleReconnect random now.

(** The callback [scheduleReconnect] gives to [setTimeout]. *)
Definition reconnectCallback : Run TransportEffect t unit :=
  s <- get ;;
  if manualClose s then ret tt
  else closeEventSource ;;; openEventSource.

(** The host runs the callback of timeout [h], if it is still due. *)
Definition timerFired (h : nat) : Run TransportEffect t unit :=
  s <- get ;;
  if decide (h ∈ dueTimers s) then
    modify (set_host (filter (λ h', h' ≠ h) (dueTimers s)) (nextHandle s)) ;;;
    reconnectCallback
  else ret tt.

(** Everything that can happen to a transport besides what its client
    does with it: a callback run by the host, or a call of its public
    interface by other code, whose callbacks are the [External] ones. *)
Inductive Input :=
| CallConnect
| CallDisconnect
| CallSend (message : McpMessage)
| Subscribe (ev : Event) (k : nat)
    (* [onMessage], [onStatus], [onError] or [onLog], the one of [ev]'s
       kind, with callback [External k] *)
| Unsubscribe (ev : Event) (k : nat)
    (* the closure that subscription returned *)
| SourceOpen (now : Z)
| SourceMessage (data : string) (now : Z)
| SourceError (random : number) (now : Z)
| TimerFired (h : nat).

Definition react (i : Input) : Run TransportEffect t unit :=
  match i with
  | CallConnect => connect
  | CallDisconnect => disconnect
  | CallSend m => send m
  | Subscribe (EvMessage _) k => onMessage (External k) ;;; ret tt
  | Subscribe (EvStatus _) k => onStatus (External k) ;;; ret tt
  | Subscribe (EvError _) k => onError (External k) ;;; ret tt
  | Subscribe (EvLog _) k => onLog (External k) ;;; ret tt
  | Unsubscribe (EvMessage _) k => offMessage (External k)
  | Unsubscribe (EvStatus _) k => offStatus (External k)
  | Unsubscribe (EvError _) k => offError (External k)
  | Unsubscribe (EvLog _) k => offLog (External k)
  | SourceOpen now => onopen now
  | SourceMessage data now => onmessage data now
  | SourceError random now => onerror random now
  | TimerFired h => timerFired h
  end.

(** A run: the inputs in order, from state [s]. *)
Fixpoint run (inputs : list Input) (s : t) : t * list TransportEffect :=
  match inputs with
  | [] => (s, [])
  | i :: rest =>
      let '(s1, o1) := exec (react i) s in
      let '(s2, o2) := run rest s1 in
      (s2, o1 ++ o2)
  end.
(** The states a transport can be in: made by the constructor, then
    driven by any inputs. *)
Inductive reachable : t → Prop :=
| reachable_new o : reachable (new o)
| reachable_step s i : reachable s → reachable (exec (react i) s).1.
End Callbacks.

(** Every timeout of the transport that is still due is the one
    [reconnectTimer] holds. *)
Definition timers_owned (s : t) : Prop :=
  ∀ h, h ∈ dueTimers s → reconnectTimer s = Some h.

(** Which of the four emitters hold the callback of the client. *)
Definition hooks (s : t) : bool * bool * bool * bool :=
  (bool_decide (ClientHook ∈ Emitter.handlers (messageEmitter s)),
   bool_decide (ClientHook ∈ Emitter.handlers (statusEmitter s)),
   bool_decide (ClientHook ∈ Emitter.handlers (errorEmitter s)),
   bool_decide (ClientHook ∈ Emitter.handlers (logEmitter s))).

(** The state of the connection: every field but the emitters. *)
Definition connection (s : t) :=
  (sseUrl s, postUrl s, status s, manualClose s, retryAttempt s,
   reconnectConfig s, eventSource s, reconnectTimer s, dueTimers s,
   nextHandle s).

(** The delays of the timeouts a run of effects sets, and the effects
    of it that start a reconnection. *)
Definition timeouts (out : list TransportEffect) : list number :=
  omap (λ e, match e with
             | TSetTimeout _ d => Some d
             | _ => None
             end) out.

Definition is_reconnection (e : TransportEffect) : bool :=
  match e with
  | TSetTimeout _ _ | NewEventSource _ _ => true
  | _ => false
  end.

Definition reconnections (out : list TransportEffect) : list TransportEffect :=
  filter (λ e, is_reconnection e) out.

(** The errors and the messages a run of effects hands to the
    subscribers of the transport. *)
Definition errorsEmitted (out : list TransportEffect) : list (JsError * list Handler) :=
  omap (λ e, match e with
             | TEmit (EvError err) to => Some (err, to)
             | _ => None
             end) out.

Definition messagesEmitted (out : list TransportEffect) : list McpMessage :=
  omap (λ e, match e with
             | TEmit (EvMessage m) _ => Some m
             | _ => None
             end) out.

End SseTransport.

(** A value of [Math.random()] for the examples: 0.5. *)
Definition sample_random : number := (Number.of_Z 1 / Number.of_Z 2)%number.

(** A stand-in for [JSON.parse] in the examples below: it knows the
    empty object, [null] and [42], and takes every other text for a
    syntax error. *)
Definition sample_parse (data : string) : Thrown + McpMessage :=
  if decide (data = "{}") then inr (mkMessage None None None None None)
  else if decide (data = "null") then inr (NotObject NNull)
  else if decide (data = "42") then inr (NotObject (NNumber (Number.of_Z 42)))
  else inl (ThrownError (Error "Unexpected token")).

(** ** McpTransport (lib/core/transport.ts)

    The interface a transport implements. [connect] and [disconnect] return
    the error their promise rejects with, [None] when it fulfils; both
    settle within the turn they are called in. [send] issues the message;
    its promise settles in a later turn. A subscription method returns the
    closure that unsubscribes. [tr_Input] and [tr_react] are what else can
    happen to the transport: the callbacks the host runs on it. *)
Class McpTransport (T : Type) := {
  tr_connect : Run TransportEffect T (option JsError);
  tr_disconnect : Run TransportEffect T (option JsError);
  tr_isConnected : T → bool;
  tr_send : McpMessage → Run TransportEffect T unit;
  tr_onMessage : Handler → Run TransportEffect T (Run TransportEffect T unit);
  tr_onStatus : Handler → Run TransportEffect T (Run TransportEffect T unit);
  tr_onError : Handler → Run TransportEffect T (Run TransportEffect T unit);
  tr_onLog : option (Handler → Run TransportEffect T (Run TransportEffect T unit));
  tr_Input : Type;
  tr_react : tr_Input → Run TransportEffect T unit
}.

(** [SseTransport implements McpTransport]; neither [connect] nor
    [disconnect] can throw. *)
Global Instance SseTransport_McpTransport
    (JSON_parse : string → Thrown + McpMessage) : McpTransport SseTransport.t := {
  tr_connect := SseTransport.connect ;;; ret None;
  tr_disconnect := SseTransport.disconnect ;;; ret None;
  tr_isConnected := SseTransport.isConnected;
  tr_send := SseTransport.send;
  tr_onMessage := SseTransport.onMessage;
  tr_onStatus := SseTransport.onStatus;
  tr_onError := SseTransport.onError;
  tr_onLog := Some SseTransport.onLog;
  tr_Input := SseTransport.Input;
  tr_react := SseTransport.react JSON_parse
}.

(** ** A JavaScript [Map] with string keys: insertion order, one entry per
    key. *)
Module JsMap.
Section WithValue.
Context {V : Type}.

Definition t : Type := list (string * V).

Fixpoint get (k : string) (m : list (string * V)) : option V :=
  match m with
  | [] => None
  | (k', v) :: rest => if decide (k' = k) then Some v else get k rest
  end.

Definition has (k : string) (m : list (string * V)) : bool :=
  bool_decide (is_Some (get k m)).

(** [set]: an existing key keeps its place. *)
Fixpoint set (k : string) (v : V) (m : list (string * V))
  : list (string * V) :=
  match m with
  | [] => [(k, v)]
  | (k', v') :: rest =>
      if decide (k' = k) then (k, v) :: rest else (k', v') :: set k v rest
  end.

Definition delete (k : string) (m : list (string * V))
  : list (string * V) :=
  filter (λ kv, kv.1 ≠ k) m.

Definition keys (m : list (string * V)) : list string := fst <$> m.
End WithValue.
End JsMap.

(** ** McpClient (lib/core/client.ts) *)
Module McpClient.

(** [PendingRequest]: [resolve] and [reject] are the two functions of
    promise [promise]. *)
Record PendingRequest := mkPending {
  promise : nat;
  timeoutId : nat
}.

(** The closure [request] gives to [setTimeout]: what it captured. *)
Record TimeoutCallback := mkCallback {
  cb_id : string;
  cb_method : string;
  cb_reject : nat
}.

Record McpClientOptions := mkOptions {
  opt_requestTimeoutMs : option number
}.

(** The promises of the host after promise [p] is asked to settle with
    outcome [o]. *)
Definition settleIn (p : nat) (o : Settled) (ps : list Settled)
  : list Settled :=
  match ps !! p with
  | Some Unsettled => <[p:=o]> ps
  | _ => ps
  end.

(** What ties the pending map to the promises and the timers of the
    host: every timeout still due rejects the promise created with it,
    which is unsettled, and the promise of a timeout no longer due is
    settled; every key of the map is a non-empty string, once in the
    map, and its entry holds a promise and the timeout created with it,
    which is still due and deletes that key. *)
Definition consistent (pd : list (string * PendingRequest))
    (ps : list Settled) (ts : list (option TimeoutCallback)) : Prop :=
  length ps = length ts
  ∧ NoDup (JsMap.keys pd)
  ∧ (∀ h cb, ts !! h = Some (Some cb) →
             cb_reject cb = h ∧ ps !! h = Some Unsettled)
  ∧ (∀ h, ts !! h = Some None → ∃ o, ps !! h = Some o ∧ o ≠ Unsettled)
  ∧ (∀ id pr, (id, pr) ∈ pd →
              id ≠ EmptyString
              ∧ promise pr = timeoutId pr
              ∧ ∃ cb, ts !! timeoutId pr = Some (Some cb) ∧ cb_id cb = id).

(** The three ways the pending map, the promises and the timers change
    together: a pending request is finished (by its response or by
    [rejectAllPending]), a timeout fires, a request is registered. *)
Definition Core : Type :=
  list (string * PendingRequest) * list Settled
  * list (option TimeoutCallback).

Inductive core_step : Core → Core → Prop :=
| step_finish pd ps ts id pr o :
    (id, pr) ∈ pd → o ≠ Unsettled →
    core_step (pd, ps, ts)
              (JsMap.delete id pd, settleIn (promise pr) o ps,
               <[timeoutId pr:=None]> ts)
| step_fire pd ps ts h cb e :
    ts !! h = Some (Some cb) →
    core_step (pd, ps, ts)
              (JsMap.delete (cb_id cb) pd,
               settleIn (cb_reject cb) (Rejected e) ps, <[h:=None]> ts)
| step_register pd ps ts id method :
    id ≠ EmptyString →
    core_step (pd, ps, ts)
              (JsMap.set id (mkPending (length ps) (length ts)) pd,
               ps ++ [Unsettled],
               ts ++ [Some (mkCallback id method (length ps))]).

Inductive core_steps : Core → Core → Prop :=
| steps_refl k : core_steps k k
| steps_next k1 k2 k3 :
    core_step k1 k2 → core_steps k2 k3 → core_steps k1 k3.

Section WithTransport.
Context {T : Type} `{McpTransport T}.

(** The private fields of the class, followed by the part of the host
    the class drives: the promises [request] created (promise [p] is
    [promises !! p]) and the callbacks of its timeouts (timeout [h] is
    due while [timers !! h] holds a callback). The [logger] option is
    the [Logger] effect. *)
Record t := mk {
  transport : T;
  requestTimeoutMs : number;
  pending : list (string * PendingRequest);
  status : McpStatus;
  statusEmitter : Emitter.t;
  messageEmitter : Emitter.t;
  errorEmitter : Emitter.t;
  logEmitter : Emitter.t;
  unsubs : list (Run TransportEffect T unit);
  promises : list Settled;
  timers : list (option TimeoutCallback)
}.

Definition set_transport (v : T) (c : t) : t :=
  mk v (requestTimeoutMs c) (pending c) (status c)
     (statusEmitter c) (messageEmitter c) (errorEmitter c) (logEmitter c)
     (unsubs c) (promises c) (timers c).

Definition set_pending (v : list (string * PendingRequest)) (c : t) : t :=
  mk (transport c) (requestTimeoutMs c) v (status c)
     (statusEmitter c) (messageEmitter c) (errorEmitter c) (logEmitter c)
     (unsubs c) (promises c) (timers c).

Definition set_status (v : McpStatus) (c : t) : t :=
  mk (transport c) (requestTimeoutMs c) (pending c) v
     (statusEmitter c) (messageEmitter c) (errorEmitter c) (logEmitter c)
     (unsubs c) (promises c) (timers c).

Definition set_emitters (st m e l : Emitter.t) (c : t) : t :=
  mk (transport c) (requestTimeoutMs c) (pending c) (status c)
     st m e l (unsubs c) (promises c) (timers c).

Definition set_unsubs (v : list (Run TransportEffect T unit)) (c : t) : t :=
  mk (transport c) (requestTimeoutMs c) (pending c) (status c)
     (statusEmitter c) (messageEmitter c) (errorEmitter c) (logEmitter c)
     v (promises c) (timers c).

Definition set_promises (v : list Settled) (c : t) : t :=
  mk (transport c) (requestTimeoutMs c) (pending c) (status c)
     (statusEmitter c) (messageEmitter c) (errorEmitter c) (logEmitter c)
     (unsubs c) v (timers c).

Definition set_timers (v : list (option TimeoutCallback)) (c : t) : t :=
  mk (transport c) (requestTimeoutMs c) (pending c) (status c)
     (statusEmitter c) (messageEmitter c) (errorEmitter c) (logEmitter c)
     (unsubs c) (promises c) v.

(** *** The host's promises and timers *)

Definition newPromise : Run Effect t nat :=
  c <- get ;;
  modify (set_promises (promises c ++ [Unsettled])) ;;;
  ret (length (promises c)).

(** A promise settles once: later calls change nothing. *)
Definition settle (p : nat) (o : Settled) : Run Effect t unit :=
  c <- get ;;
  modify (set_promises (settleIn p o (promises c))).

Definition resolve (p : nat) (v : JsonValue) : Run Effect t unit :=
  tell [Resolve p v] ;;; settle p (Resolved v).

Definition reject (p : nat) (e : JsError) : Run Effect t unit :=
  tell [Reject p e] ;;; settle p (Rejected e).

Definition setTimeout (cb : TimeoutCallback) (delay : number) : Run Effect t nat :=
  c <- get ;;
  modify (set_timers (timers c ++ [Some cb])) ;;;
  tell [SetTimeout (length (timers c)) delay] ;;;
  ret (length (timers c)).

Definition clearTimeout (h : nat) : Run Effect t unit :=
  c <- get ;;
  modify (set_timers (<[h:=None]> (timers c))) ;;;
  tell [ClearTimeout h].

(** *** Private methods *)

Definition log (level : McpLogLevel) (message : string)
    (data : option JsonValue) (now : Z) : Run Effect t unit :=
  c <- get ;;
  let l := mkLog level message now data in
  tell [Emit (EvLog l) (Emitter.emit (logEmitter c))] ;;;
  tell [Logger l].

Definition setStatus (v : McpStatus) (now : Z) : Run Effect t unit :=
  modify (set_status v) ;;;
  c <- get ;;
  tell [Emit (EvStatus v) (Emitter.emit (statusEmitter c))] ;;;
  log LevelInfo ("status " +:+ status_name v) None now.

Definition handleError (e : JsError) (now : Z) : Run Effect t unit :=
  c <- get ;;
  tell [Emit (EvError e) (Emitter.emit (errorEmitter c))] ;;;
  log LevelError (err_message e) None now.

(** [if (message.id && this.pending.has(message.id))]: the empty
    string is falsy. The result is what the method throws: reading
    [message.id] of [null] is a [TypeError], after the message has been
    emitted. *)
Definition handleMessage (message : McpMessage) (now : Z)
  : Run Effect t (option Thrown) :=
  c <- get ;;
  tell [Emit (EvMessage message) (Emitter.emit (messageEmitter c))] ;;;
  match message with
  | NotObject NNull => ret (Some (ThrownError null_has_no_id))
  | _ =>
      (match m_id message with
       | Some id =>
          if bool_decide (id ≠ EmptyString) && JsMap.has id (pending c) then
            match JsMap.get id (pending c) with
            | None => ret tt
            | Some pending_ =>
                clearTimeout (timeoutId pending_) ;;;
                c <- get ;;
                modify (set_pending (JsMap.delete id (pending c))) ;;;
                match m_error message with
                | Some e => reject (promise pending_) (Error (e_message e))
                | None =>
                    resolve (promise pending_)
                            (default JNull (m_result message))
                end
            end
          else log LevelInfo "message" (Some (message_to_json message)) now
       | None => log LevelInfo "message" (Some (message_to_json message)) now
       end) ;;;
      ret None
  end.

(** The body of the [for ... of this.pending] loop, for one entry. *)
Definition rejectOne (error : JsError) (entry : string * PendingRequest)
  : Run Effect t unit :=
  clearTimeout (timeoutId entry.2) ;;;
  reject (promise entry.2) error ;;;
  c <- get ;;
  modify (set_pending (JsMap.delete entry.1 (pending c))).

(** The loop deletes only the entry it is at, so it visits the entries
    the map held when the loop began, in insertion order. *)
Fixpoint rejectEach (error : JsError)
    (entries : list (string * PendingRequest)) : Run Effect t unit :=
  match entries with
  | [] => ret tt
  | entry :: rest => rejectOne error entry ;;; rejectEach error rest
  end.

Definition rejectAllPending (error : JsError) : Run Effect t unit :=
  c <- get ;;
  rejectEach error (pending c).

(** [n.toString(36)] of an integer. *)
Definition digit36 (d : N) : ascii :=
  if (d <? 10)%N then ascii_of_N (48 + d) else ascii_of_N (87 + d).

Fixpoint digits36 (fuel : nat) (n : N) (acc : string) : string :=
  match fuel with
  | O => acc
  | S fuel' =>
      let acc' := String (digit36 (n mod 36)) acc in
      if (n / 36 =? 0)%N then acc' else digits36 fuel' (n / 36) acc'
  end.

Definition toString36 (z : Z) : string :=
  let n := Z.abs_N z in
  let digits := digits36 (S (N.size_nat n)) n EmptyString in
  if (z <? 0)%Z then "-" +:+ digits else digits.

(** [generateId]: [now] is [Date.now()] and [random36] is the text
    [Math.random().toString(36)], such as ["0.4fzyo82mvyr"]. *)
Definition generateId (now : Z) (random36 : string) : string :=
  toString36 now +:+ "-" +:+ String.substring 2 8 random36.

(** *** Calling the transport

    While a method of the transport runs, each [emit] of the transport
    calls the client's callback if it is subscribed; the callbacks of
    the client do not touch the transport. What [handleMessage] throws
    goes to the transport, whose [emit] it ends ([throws] tells the
    transport). *)
Definition clientHook (ev : Event) (now : Z) : Run Effect t unit :=
  match ev with
  | EvMessage m => handleMessage m now ;;; ret tt
  | EvStatus s => setStatus s now
  | EvError e => handleError e now
  | EvLog l =>
      c <- get ;;
      tell [Emit (EvLog l) (Emitter.emit (logEmitter c))] ;;;
      tell [Logger l]
  end.

Definition deliver (e : TransportEffect) (now : Z) : Run Effect t unit :=
  match e with
  | TEmit ev to =>
      if decide (ClientHook ∈ to) then clientHook ev now else ret tt
  | _ => ret tt
  end.

Fixpoint dispatch (out : list TransportEffect) (now : Z)
  : Run Effect t unit :=
  match out with
  | [] => ret tt
  | e :: rest =>
      tell [FromTransport e] ;;; deliver e now ;;; dispatch rest now
  end.

Definition callTransport {A} (op : Run TransportEffect T A) (now : Z) : Run Effect t A :=
  λ c, let '(a, tr, out) := op (transport c) in
       let '(_, c', o) := dispatch out now (set_transport tr c) in
       (a, c', o).

(** *** The constructor and the public methods *)

(** The constructor, with what it does while it subscribes. *)
Definition construct (tr : T) (options : McpClientOptions) (now : Z)
  : t * list Effect :=
  exec
    (u1 <- callTransport (tr_onMessage ClientHook) now ;;
     u2 <- callTransport (tr_onStatus ClientHook) now ;;
     u3 <- callTransport (tr_onError ClientHook) now ;;
     modify (set_unsubs [u1; u2; u3]) ;;;
     match tr_onLog with
     | Some onLog =>
         u4 <- callTransport (onLog ClientHook) now ;;
         c <- get ;;
         modify (set_unsubs (unsubs c ++ [u4]))
     | None => ret tt
     end)
    (mk tr (default (Number.of_Z 15000) (opt_requestTimeoutMs options)) []
        Disconnected Emitter.empty Emitter.empty Emitter.empty
        Emitter.empty [] [] []).

Definition new (tr : T) (options : McpClientOptions) (now : Z) : t :=
  (construct tr options now).1.

(** The result is the error the returned promise rejects with. *)
Definition connect (now : Z) : Run Effect t (option JsError) :=
  setStatus Connecting now ;;;
  callTransport tr_connect now.

(** [disconnect], up to its [await]: the call of
    [transport.disconnect()]. The result is the outcome of the promise
    that call returns, which the method awaits. *)
Definition disconnect (now : Z) : Run Effect t (option JsError) :=
  callTransport tr_disconnect now.

(** The rest of [disconnect], which runs in a later turn, once the
    promise of [transport.disconnect()] has settled with [awaited];
    whatever is called in between runs before it. The result is the
    error the promise of [disconnect] rejects with. *)
Definition disconnectResumed (awaited : option JsError) (now : Z)
  : Run Effect t (option JsError) :=
  match awaited with
  | Some e => ret (Some e)
  | None =>
      setStatus Disconnected now ;;;
      rejectAllPending (Error "Disconnected") ;;;
      ret None
  end.

Definition isConnected (c : t) : bool := tr_isConnected (transport c).

Definition onStatus (h : Handler) : Run Effect t unit :=
  c <- get ;;
  modify (set_emitters (Emitter.on h (statusEmitter c)) (messageEmitter c)
                       (errorEmitter c) (logEmitter c)).

Definition onMessage (h : Handler) : Run Effect t unit :=
  c <- get ;;
  modify (set_emitters (statusEmitter c) (Emitter.on h (messageEmitter c))
                       (errorEmitter c) (logEmitter c)).

Definition onError (h : Handler) : Run Effect t unit :=
  c <- get ;;
  modify (set_emitters (statusEmitter c) (messageEmitter c)
                       (Emitter.on h (errorEmitter c)) (logEmitter c)).

Definition onLog (h : Handler) : Run Effect t unit :=
  c <- get ;;
  modify (set_emitters (statusEmitter c) (messageEmitter c)
                       (errorEmitter c) (Emitter.on h (logEmitter c))).

(** The closures those four return. *)
Definition offStatus (h : Handler) : Run Effect t unit :=
  c <- get ;;
  modify (set_emitters (Emitter.off h (statusEmitter c)) (messageEmitter c)
                       (errorEmitter c) (logEmitter c)).

Definition offMessage (h : Handler) : Run Effect t unit :=
  c <- get ;;
  modify (set_emitters (statusEmitter c) (Emitter.off h (messageEmitter c))
                       (errorEmitter c) (logEmitter c)).

Definition offError (h : Handler) : Run Effect t unit :=
  c <- get ;;
  modify (set_emitters (statusEmitter c) (messageEmitter c)
                       (Emitter.off h (errorEmitter c)) (logEmitter c)).

Definition offLog (h : Handler) : Run Effect t unit :=
  c <- get ;;
  modify (set_emitters (statusEmitter c) (messageEmitter c)
                       (errorEmitter c) (Emitter.off h (logEmitter c))).

(** [request]: the result is the promise the executor created, which
    the method returns once [send] has fulfilled. *)
Definition request (method : string) (params : option JsonValue)
    (now : Z) (random36 : string) : Run Effect t nat :=
  let id := generateId now random36 in
  let message := mkMessage (Some id) (Some method) params None None in
  p <- newPromise ;;
  c <- get ;;
  timeoutId <- setTimeout (mkCallback id method p) (requestTimeoutMs c) ;;
  c <- get ;;
  modify (set_pending (JsMap.set id (mkPending p timeoutId) (pending c))) ;;;
  log LevelDebug ("send " +:+ method)
      (Some (JObject (("id", JString id)
                      :: from_option (λ x, [("params", x)]) [] params)))
      now ;;;
  callTransport (tr_send message) now ;;;
  ret p.

(** The callback of timeout [h], run by the host if it is still due. *)
Definition timeoutFired (h : nat) : Run Effect t unit :=
  c <- get ;;
  match timers c !! h with
  | Some (Some cb) =>
      modify (set_timers (<[h:=None]> (timers c))) ;;;
      c <- get ;;
      modify (set_pending (JsMap.delete (cb_id cb) (pending c))) ;;;
      reject (cb_reject cb) (Error ("Request timed out: " +:+ cb_method cb))
  | _ => ret tt
  end.

Definition listTools (now : Z) (random36 : string) : Run Effect t nat :=
  request "mcp.listTools" None now random36.

Definition listResources (now : Z) (random36 : string) : Run Effect t nat :=
  request "mcp.listResources" None now random36.

Definition callTool (name : string) (args : option JsonValue)
    (now : Z) (random36 : string) : Run Effect t nat :=
  request "mcp.callTool"
          (Some (JObject (("name", JString name)
                          :: from_option (λ x, [("args", x)]) [] args)))
          now random36.

Fixpoint runAll (fns : list (Run TransportEffect T unit)) (now : Z) : Run Effect t unit :=
  match fns with
  | [] => ret tt
  | fn :: rest => callTransport fn now ;;; runAll rest now
  end.

Definition destroy (now : Z) : Run Effect t unit :=
  c <- get ;;
  runAll (unsubs c) now ;;;
  modify (set_unsubs []) ;;;
  rejectAllPending (Error "Client destroyed").

(** *** What the caller of a public operation observes

    [request] awaits [send] before it returns its promise, so the
    promise of the operation follows the outcome of [send] first;
    [listTools] and [listResources] replace a null result by the empty
    array. *)
Inductive Operation := ListTools | ListResources | CallTool.

Inductive SendState :=
| SendInFlight
| SendFulfilled
| SendRejected (e : JsError).

Definition returned (op : Operation) (v : JsonValue) : JsonValue :=
  match op, v with
  | (ListTools | ListResources), JNull => JArray []
  | _, _ => v
  end.

Definition outcome (op : Operation) (send : SendState)
    (inner : option Settled) : Settled :=
  match send with
  | SendInFlight => Unsettled
  | SendRejected e => Rejected e
  | SendFulfilled =>
      match inner with
      | Some (Resolved v) => Resolved (returned op v)
      | Some (Rejected e) => Rejected e
      | _ => Unsettled
      end
  end.

(** *** Everything that can happen to a client *)
Inductive Input :=
| CallConnect (now : Z)
| CallDisconnect (now : Z)
| DisconnectResumed (awaited : option JsError) (now : Z)
    (* [disconnect] goes on after its [await] *)
| CallListTools (now : Z) (random36 : string)
| CallListResources (now : Z) (random36 : string)
| CallCallTool (name : string) (args : option JsonValue)
    (now : Z) (random36 : string)
| CallDestroy (now : Z)
| Subscribe (ev : Event) (k : nat)
    (* [onMessage], [onStatus], [onError] or [onLog] of the client, the
       one of [ev]'s kind, with callback [External k] *)
| Unsubscribe (ev : Event) (k : nat)
| TimeoutFired (h : nat)
| TransportInput (i : tr_Input) (now : Z).

Definition react (i : Input) : Run Effect t unit :=
  match i with
  | CallConnect now => connect now ;;; ret tt
  | CallDisconnect now => disconnect now ;;; ret tt
  | DisconnectResumed awaited now => disconnectResumed awaited now ;;; ret tt
  | CallListTools now r => listTools now r ;;; ret tt
  | CallListResources now r => listResources now r ;;; ret tt
  | CallCallTool name args now r => callTool name args now r ;;; ret tt
  | CallDestroy now => destroy now
  | Subscribe (EvMessage _) k => onMessage (External k)
  | Subscribe (EvStatus _) k => onStatus (External k)
  | Subscribe (EvError _) k => onError (External k)
  | Subscribe (EvLog _) k => onLog (External k)
  | Unsubscribe (EvMessage _) k => offMessage (External k)
  | Unsubscribe (EvStatus _) k => offStatus (External k)
  | Unsubscribe (EvError _) k => offError (External k)
  | Unsubscribe (EvLog _) k => offLog (External k)
  | TimeoutFired h => timeoutFired h
  | TransportInput i now => callTransport (tr_react i) now
  end.

Fixpoint run (inputs : list Input) (c : t) : t * list Effect :=
  match inputs with
  | [] => (c, [])
  | i :: rest =>
      let '(c1, o1) := exec (react i) c in
      let '(c2, o2) := run rest c1 in
      (c2, o1 ++ o2)
  end.

Definition core (c : t) : Core := (pending c, promises c, timers c).

(** A method moves the pending map, the promises and the timers by
    the three moves only. *)
Definition moves {A} (m : Run Effect t A) : Prop :=
  ∀ c, consistent (pending c) (promises c) (timers c) →
       core_steps (core c) (core (m c).1.2).

(** A message that is not the response to a pending request. *)
Definition unmatched (m : McpMessage) (c : t) : Prop :=
  m ≠ NotObject NNull
  ∧ match m_id m with
    | None => True
    | Some id => id = EmptyString ∨ JsMap.get id (pending c) = None
    end.

(** The response to a pending request: what its promise is asked to
    settle with, and the call that asks. *)
Definition response_outcome (m : McpMessage) : Settled :=
  match m_error m with
  | Some e => Rejected (Error (e_message e))
  | None => Resolved (default JNull (m_result m))
  end.

Definition response_effect (p : nat) (m : McpMessage) : Effect :=
  match m_error m with
  | Some e => Reject p (Error (e_message e))
  | None => Resolve p (default JNull (m_result m))
  end.

(** The effects of [rejectAllPending]: for every entry, in order, its
    timeout is cleared and its promise is rejected. *)
Definition rejections (error : JsError)
    (entries : list (string * PendingRequest)) : list Effect :=
  entries ≫= λ entry, [ClearTimeout (timeoutId entry.2);
                        Reject (promise entry.2) error].

(** The statuses the client emits during a run of effects, and the
    statuses the transport reports to the client during it. *)
Definition statusesEmitted (out : list Effect) : list McpStatus :=
  omap (λ e, match e with
             | Emit (EvStatus s) _ => Some s
             | _ => None
             end) out.

Definition statusesReported (out : list Effect) : list McpStatus :=
  omap (λ e, match e with
             | FromTransport (TEmit (EvStatus s) to) =>
                 if decide (ClientHook ∈ to) then Some s else None
             | _ => None
             end) out.

(** A method respects a relation between the state before and after
    it, and a property of the effects it has. *)
Definition respects (R : t → t → Prop) (P : Effect → Prop) {A}
    (m : Run Effect t A) : Prop :=
  ∀ c, R c (m c).1.2 ∧ Forall P (m c).2.

(** What the client does on its own account leaves its status, its
    transport and its subscriptions alone, and neither emits a status
    nor involves the transport. *)
Definition untouched (c c' : t) : Prop :=
  status c' = status c ∧ transport c' = transport c
  ∧ unsubs c' = unsubs c.

Definition quiet_effect (e : Effect) : Prop :=
  match e with
  | FromTransport _ | Emit (EvStatus _) _ => False
  | _ => True
  end.

Definition quiet {A} (m : Run Effect t A) : Prop :=
  respects untouched quiet_effect m.

(** What the client does in answer to its transport leaves the
    transport and the subscriptions alone. *)
Definition steady_state (c c' : t) : Prop :=
  transport c' = transport c ∧ unsubs c' = unsubs c.

Definition steady {A} (m : Run Effect t A) : Prop :=
  respects steady_state (λ _, True) m.

(** The client mirrors its transport: the statuses it emits are the
    ones reported to it, and it holds the last of them. *)
Definition mirroring {A} (m : Run Effect t A) : Prop :=
  ∀ c, statusesEmitted (m c).2 = statusesReported (m c).2
       ∧ status (m c).1.2
         = default (status c) (last (statusesEmitted (m c).2)).

(** The effects of a run that are the transport's. *)
Definition transportEffects (out : list Effect) : list TransportEffect :=
  omap (λ e, match e with
             | FromTransport e' => Some e'
             | _ => None
             end) out.

(** An effect of the transport that is not the delivery of a
    message. *)
Definition no_message (e : TransportEffect) : Prop :=
  match e with
  | TEmit (EvMessage _) _ => False
  | _ => True
  end.

(** The promises a run of effects rejects, with the errors. *)
Definition rejected (out : list Effect) : list (nat * JsError) :=
  omap (λ e, match e with
             | Reject p err => Some (p, err)
             | _ => None
             end) out.

Definition wf (c : t) : Prop :=
  consistent (pending c) (promises c) (timers c).

(** The delivery to the client of a message with id [X]. *)
Definition answers (X : string) (e : Effect) : Prop :=
  match e with
  | FromTransport (TEmit (EvMessage m) to) =>
      ClientHook ∈ to ∧ m_id m = Some X
  | _ => False
  end.

(** A method spares the timeout [p] of a request with id [X]: the
    timeout is still due after it, unless a message with id [X] is
    delivered to the client while it runs. *)
Definition spares (X : string) (p : nat) {A} (m : Run Effect t A) : Prop :=
  ∀ c cb, wf c → timers c !! p = Some (Some cb) → cb_id cb = X →
          Forall (λ e, ¬ answers X e) (m c).2 →
          timers (m c).1.2 !! p = Some (Some cb).

(** The states a client can be in: made by the constructor around any
    transport, then driven by any inputs. *)
Inductive reachable : t → Prop :=
| reachable_new tr options now : reachable (new tr options now)
| reachable_step c i :
    reachable c → reachable (exec (react i) c).1.

End WithTransport.

Arguments t T : clear implicits.
End McpClient.

(** * The client over the SSE transport

    What is said of a client whose transport is an [SseTransport]. *)
Module SseClient.
Import McpClient.

Implicit Types (c : McpClient.t SseTransport.t).

(** The closures the constructor keeps in [unsubs]. *)
Definition subscriptions : list (Run TransportEffect SseTransport.t unit) :=
  [SseTransport.offMessage ClientHook; SseTransport.offStatus ClientHook;
   SseTransport.offError ClientHook; SseTransport.offLog ClientHook].

Definition subscribed c : Prop :=
  unsubs c = subscriptions
  ∨ (unsubs c = []
     ∧ SseTransport.hooks (transport c) = (false, false, false, false)).

(** Nothing but [destroy] changes the subscriptions of the client:
    [unsubs], and the place of the client in the emitters of the
    transport. *)
Definition kept_state c c' : Prop :=
  unsubs c' = unsubs c
  ∧ SseTransport.hooks (transport c') = SseTransport.hooks (transport c).

Definition kept {A} (m : Run Effect (McpClient.t SseTransport.t) A) : Prop :=
  respects kept_state (λ _, True) m.

(** The transport once the four closures of [subscriptions] have
    run. *)
Definition unhooked (tr : SseTransport.t) : SseTransport.t :=
  SseTransport.set_emitters
    (Emitter.off ClientHook (SseTransport.messageEmitter tr))
    (Emitter.off ClientHook (SseTransport.statusEmitter tr))
    (Emitter.off ClientHook (SseTransport.errorEmitter tr))
    (Emitter.off ClientHook (SseTransport.logEmitter tr)) tr.

(** A client on an SSE transport with its defaults and a time-out of
    two seconds. *)
Definition sample_client : McpClient.t SseTransport.t :=
  @new _ (SseTransport_McpTransport sample_parse)
       (SseTransport.new (SseTransport.mkOptions None None None None None))
       (mkOptions (Some (Number.of_Z 2000))) 0.

(** That client once it has connected and called a tool; the id of
    the request is ["m2r1bz7k-4fzyo82m"]. *)
Definition sample_calling : McpClient.t SseTransport.t :=
  (run [CallConnect 1;
        @TransportInput _ (SseTransport_McpTransport sample_parse)
          (SseTransport.SourceOpen 2) 2;
        CallCallTool "echo" None 1730000000000 "0.4fzyo82mvyr"]
       sample_client).1.
End SseClient.

(** ** What is said of the transport below *)
Module SseTransportDefs.
Import SseTransport.

(** The statuses a run of effects emits. *)
Definition statuses (out : list TransportEffect) : list McpStatus :=
  omap (λ e, match e with
             | TEmit (EvStatus v) _ => Some v
             | _ => None
             end) out.

(** The emitter an event is emitted by. *)
Definition emitter_of (ev : Event) (s : t) : Emitter.t :=
  match ev with
  | EvMessage _ => messageEmitter s
  | EvStatus _ => statusEmitter s
  | EvError _ => errorEmitter s
  | EvLog _ => logEmitter s
  end.

(** At most one timeout is due, the one [reconnectTimer] holds. *)
Definition one_timer (s : t) : Prop :=
  dueTimers s = []
  ∨ ∃ h, dueTimers s = [h] ∧ reconnectTimer s = Some h.

(** No emitter holds a handler twice. *)
Definition emitters_sets (s : t) : Prop :=
  NoDup (Emitter.emit (messageEmitter s))
  ∧ NoDup (Emitter.emit (statusEmitter s))
  ∧ NoDup (Emitter.emit (errorEmitter s))
  ∧ NoDup (Emitter.emit (logEmitter s)).

(** An effect of the transport that is neither a status nor an
    error nor a message. *)
Definition plain (e : TransportEffect) : Prop :=
  match e with
  | TEmit (EvLog _) _ => True
  | TEmit _ _ => False
  | _ => True
  end.
End SseTransportDefs.

(** ** What is said of the client below *)
Module McpClientDefs.
Import McpClient.
Section WithTransport.
Context {T : Type} `{McpTransport T}.

(** The emitter of the client an event is emitted by. *)
Definition emitterOf (ev : Event) (c : McpClient.t T) : Emitter.t :=
  match ev with
  | EvMessage _ => messageEmitter c
  | EvStatus _ => statusEmitter c
  | EvError _ => errorEmitter c
  | EvLog _ => logEmitter c
  end.

Definition emitters (c : McpClient.t T) :=
  (statusEmitter c, messageEmitter c, errorEmitter c, logEmitter c).

(** Run from [c], a method leaves the four emitters as they are
    and emits to the handlers they hold. *)
Definition addressed_to (c : McpClient.t T) (e : Effect) : Prop :=
  match e with
  | Emit ev to => to = Emitter.emit (emitterOf ev c)
  | _ => True
  end.

Definition addressed_at {A} (c : McpClient.t T)
    (m : Run Effect (McpClient.t T) A) : Prop :=
  emitters (m c).1.2 = emitters c ∧ Forall (addressed_to c) (m c).2.

Definition addressed {A} (m : Run Effect (McpClient.t T) A) : Prop :=
  ∀ c, addressed_at c m.
End WithTransport.
End McpClientDefs.

(** ** What is said of the client over the SSE transport below *)
Module SseClientDefs.
Import McpClient.
Implicit Types (c : McpClient.t SseTransport.t).

(** The status callback of the client is subscribed. *)
Definition listening c : Prop :=
  ClientHook ∈ Emitter.emit (SseTransport.statusEmitter (transport c)).

(** Every field of the client but its transport. *)
Definition own c :=
  (requestTimeoutMs c, pending c, status c, statusEmitter c,
   messageEmitter c, errorEmitter c, logEmitter c, unsubs c, promises c,
   timers c).
End SseClientDefs.

(** ** Base 36 *)
Module Base36.
(** Reading base 36 back, as [parseInt(s, 36)] does on the digits
    [toString(36)] writes. *)
Definition digit_value (a : ascii) : N :=
  let k := N_of_ascii a in
  if (k <? 58)%N then (k - 48)%N else (k - 87)%N.

Fixpoint parse36 (acc : N) (s : string) : N :=
  match s with
  | EmptyString => acc
  | String a rest => parse36 (acc * 36 + digit_value a) rest
  end.

(** No character of the text is the hyphen. *)
Fixpoint hyphen_free (s : string) : Prop :=
  match s with
  | EmptyString => True
  | String a rest => a ≠ "-"%char ∧ hyphen_free rest
  end.
End Base36.

(** ** createMcpStores (lib/stores/createMcpStores.ts)

    The four stores as the values they hold. The three closures the
    function subscribes to the client are [External] callbacks; their
    identities are those the host gives them, [k_status], [k_error] and
    [k_log]. *)
Module McpStores.
Import McpClient.

Record ConnectionState := mkConnection {
  cs_status : McpStatus;
  cs_isConnected : bool;
  cs_lastError : option string
}.

Record t := mk {
  connection : ConnectionState;
  tools : list JsonValue;
  resources : list JsonValue;
  logs : list McpLog;
  k_status : nat;
  k_error : nat;
  k_log : nat
}.

Definition set_connection (v : ConnectionState) (st : t) : t :=
  mk v (tools st) (resources st) (logs st)
     (k_status st) (k_error st) (k_log st).

Definition set_logs (v : list McpLog) (st : t) : t :=
  mk (connection st) (tools st) (resources st) v
     (k_status st) (k_error st) (k_log st).

(** [items.slice(-n)]: the last [n] items, all of them if there are
    fewer. *)
Definition slice_last {A} (n : nat) (items : list A) : list A :=
  drop (length items - n) items.

(** [connection.set({ status, isConnected: status === 'connected' })] *)
Definition statusHandler (v : McpStatus) (st : t) : t :=
  set_connection (mkConnection v (bool_decide (v = Connected)) None) st.

(** [connection.update((state) => ({ ...state, lastError: error.message }))] *)
Definition errorHandler (e : JsError) (st : t) : t :=
  set_connection
    (mkConnection (cs_status (connection st))
                  (cs_isConnected (connection st))
                  (Some (err_message e))) st.

(** [logs.update((items) => [...items, log].slice(-200))] *)
Definition logHandler (l : McpLog) (st : t) : t :=
  set_logs (slice_last 200 (logs st ++ [l])) st.

(** One [emit] of the client, as the stores see it: [emit] calls the
    handlers it holds in order, the closures of the stores among
    them. *)
Definition called (k : nat) (f : t → t) (to : list Handler) (st : t) : t :=
  foldl (λ st h, if decide (h = External k) then f st else st) st to.

Definition notify (e : Effect) (st : t) : t :=
  match e with
  | Emit (EvStatus v) to => called (k_status st) (statusHandler v) to st
  | Emit (EvError err) to => called (k_error st) (errorHandler err) to st
  | Emit (EvLog l) to => called (k_log st) (logHandler l) to st
  | _ => st
  end.

(** The stores after a run of effects of the client. *)
Definition observe (out : list Effect) (st : t) : t :=
  foldl (λ st e, notify e st) st out.

(** What every handler keeps: the flag says whether the status is
    [Connected], and the tools and the resources are as they were. *)
Definition sound (st0 st : t) : Prop :=
  cs_isConnected (connection st)
  = bool_decide (cs_status (connection st) = Connected)
  ∧ tools st = tools st0 ∧ resources st = resources st0
  ∧ k_status st = k_status st0 ∧ k_error st = k_error st0
  ∧ k_log st = k_log st0.

(** The effects after which the connection store holds the status
    the client emitted last. *)
Definition heard (ks : nat) (e : Effect) : Prop :=
  match e with
  | Emit (EvStatus _) to => External ks ∈ to
  | _ => True
  end.

(** An effect that tells the connection store nothing. *)
Definition calm (e : Effect) : Prop :=
  match e with
  | Emit (EvStatus _) _ | Emit (EvError _) _ => False
  | _ => True
  end.

Section WithTransport.
Context {T : Type} `{McpTransport T}.

(** [createMcpStores(client)]: the result is the stores; the effect
    on the client is the three subscriptions. *)
Definition createMcpStores (ks ke kl : nat)
  : Run Effect (McpClient.t T) t :=
  onStatus (External ks) ;;;
  onError (External ke) ;;;
  onLog (External kl) ;;;
  ret (mk (mkConnection Disconnected false None) [] [] [] ks ke kl).

(** [destroy]: [unsubs.forEach((fn) => fn())]. *)
Definition destroy (st : t) : Run Effect (McpClient.t T) unit :=
  offStatus (External (k_status st)) ;;;
  offError (External (k_error st)) ;;;
  offLog (External (k_log st)).
End WithTransport.
End McpStores.

(** * Properties of the numbers *)
Module NumberFacts.
Import SpecFloat.

Lemma digits_bound (p : positive) :
  (Zpos p < 2 ^ Zpos (digits2_pos p))%Z.
Proof.
  induction p as [p IH|p IH|]; cbn [digits2_pos];
    rewrite ?Pos2Z.inj_succ, ?Z.pow_succ_r by lia; lia.
Qed.

Lemma digits_le (p : positive) (k : Z) :
  (0 <= k)%Z → (Zpos p < 2 ^ k)%Z → (Zpos (digits2_pos p) <= k)%Z.
Proof.
  revert k. induction p as [p IH|p IH|]; intros k Hk Hlt;
    cbn [digits2_pos]; rewrite ?Pos2Z.inj_succ.
  - destruct (decide (k = 0%Z)) as [->|Hne]; [cbn in Hlt; lia|].
    assert (Hp : (Zpos p < 2 ^ (k - 1))%Z).
    { replace k with (Z.succ (k - 1)) in Hlt by lia.
      rewrite Z.pow_succ_r in Hlt by lia. lia. }
    specialize (IH (k - 1)%Z). lia.
  - destruct (decide (k = 0%Z)) as [->|Hne]; [cbn in Hlt; lia|].
    assert (Hp : (Zpos p < 2 ^ (k - 1))%Z).
    { replace k with (Z.succ (k - 1)) in Hlt by lia.
      rewrite Z.pow_succ_r in Hlt by lia. lia. }
    specialize (IH (k - 1)%Z). lia.
  - destruct (decide (k = 0%Z)) as [->|Hne]; [cbn in Hlt; lia|]. lia.
Qed.

(** A valid double has a mantissa of at most 53 bits. *)
Lemma valid_mantissa (s : bool) (m : positive) (e : Z) :
  Number.valid (S754_finite s m e) = true → (Zpos m < 2 ^ 53)%Z.
Proof.
  unfold Number.valid, valid_binary, bounded, canonical_mantissa, fexp,
    SpecFloat.emin, Number.prec, Number.emax.
  intros Hv. apply andb_prop in Hv as [Hc _]. apply Z.eqb_eq in Hc.
  pose proof (digits_bound m) as Hd.
  assert (Hle : (Zpos (digits2_pos m) <= 53)%Z) by lia.
  eapply Z.lt_le_trans; [exact Hd|].
  apply Z.pow_le_mono_r; lia.
Qed.

Lemma signed_value (s : bool) (m : positive) (e : Z) :
  (Number.value (S754_finite s m e)
   == (if s then -1 else 1) * (inject_Z (Zpos m) * 2 ^ e))%Q.
Proof.
  cbn [Number.value]. destruct s; [|ring].
  change (Zneg m) with (- Zpos m)%Z. rewrite inject_Z_opp. ring.
Qed.

Lemma pow2_pos (e : Z) : (0 < 2 ^ e)%Q.
Proof.
  destruct e as [|p|p]; [reflexivity|..].
  - apply Qpower_0_lt. reflexivity.
  - apply Qpower_0_lt. reflexivity.
Qed.

(** The double of an integer of at most 53 bits is that integer. *)
Lemma value_of_pos (s : bool) (p : positive) :
  (Zpos p < 2 ^ 53)%Z →
  (Number.value (Number.of_pos s p)
   == inject_Z (if s then Zneg p else Zpos p))%Q.
Proof.
  intros Hp. unfold Number.of_pos, Number.prec.
  pose proof (digits_le p 53 ltac:(lia) Hp) as Hd.
  rewrite (proj2 (Z.leb_le _ _) Hd).
  set (d := Zpos (digits2_pos p)) in *.
  rewrite signed_value, Z.shiftl_mul_pow2 by lia.
  assert (Hpos : (0 < Zpos p * 2 ^ (53 - d))%Z).
  { apply Z.mul_pos_pos; [lia|]. apply Z.pow_pos_nonneg; lia. }
  rewrite Z2Pos.id by exact Hpos.
  rewrite inject_Z_mult, Zpower_Qpower by lia.
  replace (d - 53)%Z with (- (53 - d))%Z by lia.
  rewrite Qpower_opp.
  assert (Hne : ¬ (inject_Z 2 ^ (53 - d) == 0)%Q).
  { pose proof (pow2_pos (53 - d)) as H0. intros E.
    change (inject_Z 2) with 2%Q in E. rewrite E in H0.
    by apply Qlt_irrefl in H0. }
  change (inject_Z 2) with 2%Q in *.
  destruct s.
  - change (Zneg p) with (- Zpos p)%Z. rewrite inject_Z_opp. by field.
  - by field.
Qed.

Lemma value_of_Z (z : Z) :
  (Z.abs z < 2 ^ 53)%Z → (Number.value (Number.of_Z z) == inject_Z z)%Q.
Proof.
  intros Hz. destruct z as [|p|p]; [reflexivity|..];
    apply value_of_pos; lia.
Qed.

Lemma Qfloor_half (z : Z) : Qfloor (inject_Z z + (1 # 2)) = z.
Proof.
  apply Z.le_antisymm.
  - pose proof (Qfloor_le (inject_Z z + (1 # 2))) as Hle.
    apply Z.lt_succ_r. rewrite (Zlt_Qlt _ _).
    unfold Z.succ. rewrite inject_Z_plus. change (inject_Z 1) with 1%Q.
    set (f := inject_Z (Qfloor (inject_Z z + (1 # 2)))) in *.
    lra.
  - rewrite <- (Qfloor_Z z) at 1. apply Qfloor_resp_le. lra.
Qed.

(** [Math.round] of a finite double is the integer nearest to it, the
    greater one of two. *)
Lemma round_value (x : number) :
  Number.valid x = true → Number.finite x = true →
  (Number.value (Math.round x)
   == inject_Z (Qfloor (Number.value x + (1 # 2))))%Q.
Proof.
  intros Hv Hf. destruct x as [s|s| |s m e]; try discriminate.
  { reflexivity. }
  pose proof (valid_mantissa s m e Hv) as Hm.
  unfold Math.round. destruct (0 <=? e)%Z eqn:He.
  - apply Z.leb_le in He.
    assert (E : (Number.value (S754_finite s m e)
                 == inject_Z ((if s then Zneg m else Zpos m) * 2 ^ e))%Q).
    { cbn [Number.value]. rewrite inject_Z_mult, Zpower_Qpower by lia.
      reflexivity. }
    rewrite E at 2. rewrite Qfloor_half. exact E.
  - apply Z.leb_gt in He.
    set (q := Number.value (S754_finite s m e)).
    destruct (Qfloor (q + (1 # 2)) =? 0)%Z eqn:Hz.
    { apply Z.eqb_eq in Hz. rewrite Hz. reflexivity. }
    apply value_of_Z.
    assert (Hq : (- inject_Z (2 ^ 52) < q < inject_Z (2 ^ 52))%Q).
    { subst q. rewrite signed_value.
      assert (Hp : (0 < 2 ^ e <= 1 # 2)%Q).
      { split; [apply pow2_pos|].
        change (1 # 2)%Q with (2 ^ (-1))%Q.
        apply Qpower_le_compat_l; [lia|]. by apply Qle_bool_imp_le. }
      assert (Hmq : (0 < inject_Z (Zpos m) < inject_Z (2 ^ 53))%Q).
      { split; [by rewrite <- (Zlt_Qlt 0)|by rewrite <- Zlt_Qlt]. }
      change (inject_Z (2 ^ 53)) with (2 * inject_Z (2 ^ 52))%Q in Hmq.
      set (a := inject_Z (Zpos m)) in *. set (b := (2 ^ e)%Q) in *.
      set (c := inject_Z (2 ^ 52)) in *.
      assert (Hab : (0 < a * b < c)%Q) by (split; nra).
      destruct s; lra. }
    pose proof (Qfloor_le (q + (1 # 2))) as Hle.
    pose proof (Qlt_floor (q + (1 # 2))) as Hlt.
    rewrite inject_Z_plus in Hlt. change (inject_Z 1) with 1%Q in Hlt.
    set (z := Qfloor (q + (1 # 2))) in *.
    assert (Hz1 : (inject_Z z < inject_Z (2 ^ 52 + 1))%Q).
    { rewrite inject_Z_plus. change (inject_Z 1) with 1%Q. lra. }
    assert (Hz2 : (inject_Z (- 2 ^ 52 - 1) < inject_Z z)%Q).
    { unfold Z.sub. rewrite inject_Z_plus, inject_Z_opp.
      change (inject_Z (- (1))) with (- (1))%Q. lra. }
    rewrite <- Zlt_Qlt in Hz1, Hz2. lia.
Qed.

(** So it moves the number by at most one half. *)
Lemma round_bounds (x : number) :
  Number.valid x = true → Number.finite x = true →
  (Number.value x - (1 # 2) < Number.value (Math.round x)
   <= Number.value x + (1 # 2))%Q.
Proof.
  intros Hv Hf. rewrite (round_value x Hv Hf).
  pose proof (Qfloor_le (Number.value x + (1 # 2))) as Hle.
  pose proof (Qlt_floor (Number.value x + (1 # 2))) as Hlt.
  rewrite inject_Z_plus in Hlt. change (inject_Z 1) with 1%Q in Hlt.
  set (f := inject_Z (Qfloor (Number.value x + (1 # 2)))) in *.
  split; lra.
Qed.

(** Without a spread the jitter adds nothing: for a finite [exp]
    that is not zero and a finite [random],
    [exp - spread + random * spread * 2] is [exp] when [spread] is
    [exp * 0]. *)
Lemma no_jitter (exp random zero : number) :
  Number.nonzero exp = true →
  Number.is_zero zero = true →
  Number.finite random = true →
  (exp - exp * zero + random * (exp * zero) * Number.of_Z 2)%number = exp.
Proof.
  intros He Hz Hr.
  destruct exp as [| | |s m e]; try discriminate.
  destruct zero as [sz| | |]; try discriminate.
  destruct random as [sr|sr| |sr mr er]; try discriminate; reflexivity.
Qed.
End NumberFacts.

(** * Properties of the transport *)
Module SseTransportFacts.
Import SseTransport.

Ltac sse_unfold :=
  unfold react, connect, disconnect, send, onopen, onmessage, onerror,
    timerFired, reconnectCallback, scheduleReconnect, nextBackoffDelay,
    openEventSource, closeEventSource, clearReconnectTimer, emitError,
    log, setStatus, setTimeout, clearTimeout, freshHandle,
    onMessage, onStatus, onError, onLog,
    offMessage, offStatus, offError, offLog in *;
  run_unfold.

(** Case analysis on whatever field of the state, parse result or timer
    table the method at hand branches on. *)
Ltac sse_cases :=
  cbn;
  repeat (match goal with
          | |- context [decide (?x = Connected)] => destruct x
          | |- context [decide (?h ∈ ?l)] => destruct (decide (h ∈ l))
          | |- context [match ?f ?d with inl _ => _ | inr _ => _ end] =>
              destruct (f d) as [?|?]
          | |- context [Emitter.emit_until ?f ?l] =>
              destruct (Emitter.emit_until f l) as [? [?|]]
          | |- context [match ?x with _ => _ end] => is_var x; destruct x
          end; cbn).

(** The three ways [onmessage] goes: [JSON.parse] throws, every
    subscriber returns, a subscriber throws. *)
Ltac parse_cases JSON_parse data :=
  destruct (JSON_parse data) as [?|?];
  [|match goal with
    | |- context [Emitter.emit_until ?f ?l] =>
        destruct (Emitter.emit_until f l) as [? [?|]]
    end].

(** [emit] with a handler that may throw: every handler is called
    when none throws, and the client's is the last one called when it
    throws. *)
Lemma emit_until_returns (ev : Event) (hs : list Handler) :
  (ev = EvMessage (NotObject NNull) → ClientHook ∉ hs) →
  Emitter.emit_until (throws ev) hs = (hs, None).
Proof.
  induction hs as [|h rest IH]; intros Hnot; [reflexivity|].
  cbn [Emitter.emit_until].
  assert (Hh : throws ev h = None).
  { destruct h; [|reflexivity].
    destruct ev as [[| []]| | |]; try reflexivity.
    exfalso. apply Hnot; [reflexivity|apply list_elem_of_here]. }
  rewrite Hh, IH; [reflexivity|].
  intros E Hin. apply (Hnot E). by apply list_elem_of_further.
Qed.

Lemma emit_until_throws (hs : list Handler) :
  ClientHook ∈ hs →
  ∃ before after,
    hs = before ++ ClientHook :: after
    ∧ (ClientHook ∉ before)
    ∧ Emitter.emit_until (throws (EvMessage (NotObject NNull))) hs
      = (before ++ [ClientHook], Some (ThrownError null_has_no_id)).
Proof.
  induction hs as [|h rest IH]; intros Hin; [by apply elem_of_nil in Hin|].
  destruct h as [|k].
  - exists [], rest. split; [reflexivity|].
    split; [apply not_elem_of_nil|reflexivity].
  - apply elem_of_cons in Hin as [Hin|Hin]; [discriminate|].
    destruct (IH Hin) as (before & after & -> & Hnot & Hem).
    exists (External k :: before), after. split; [reflexivity|].
    split.
    + apply not_elem_of_cons. by split.
    + cbn [Emitter.emit_until throws]. by rewrite Hem.
Qed.

Lemma emit_until_prefix (f : Handler → option Thrown) (hs : list Handler) :
  (Emitter.emit_until f hs).1 `prefix_of` hs.
Proof.
  induction hs as [|h rest IH]; [done|]. cbn [Emitter.emit_until].
  destruct (f h).
  - by apply prefix_cons, prefix_nil.
  - by apply prefix_cons.
Qed.

Lemma nextBackoffDelay_spec (random : number) (s : t) :
  let exp := backoff_exp (reconnectConfig s) (retryAttempt s) in
  let spread := backoff_spread (reconnectConfig s) (retryAttempt s) in
  nextBackoffDelay random s
  = (Math.round (exp - spread + random * spread * Number.of_Z 2)%number,
     set_retryAttempt (retryAttempt s + 1) s, []).
Proof. reflexivity. Qed.

(** Without jitter the delay is [Math.round(exp)]. *)
Lemma nextBackoffDelay_no_jitter (random : number) (s : t) :
  Number.is_zero (Number.ToNumber (jitter (reconnectConfig s))) = true →
  Number.nonzero (backoff_exp (reconnectConfig s) (retryAttempt s)) = true →
  Number.finite random = true →
  (nextBackoffDelay random s).1.1
  = Math.round (backoff_exp (reconnectConfig s) (retryAttempt s)).
Proof.
  intros Hj Hexp Hr. rewrite nextBackoffDelay_spec. cbn [fst].
  unfold backoff_spread. by rewrite NumberFacts.no_jitter.
Qed.

Section WithParser.
Variable JSON_parse : string → Thrown + McpMessage.

(** An error of the channel that is not ignored schedules exactly one
    reconnect, after the delay [nextBackoffDelay] computes, and counts
    the attempt. *)
Lemma onerror_schedules (s : t) (random : number) (now : Z) :
  manualClose s = false →
  let r := exec (onerror random now) s in
  timeouts r.2 = [(nextBackoffDelay random s).1.1]
  ∧ retryAttempt r.1 = S (retryAttempt s)
  ∧ manualClose r.1 = false
  ∧ reconnectConfig r.1 = reconnectConfig s.
Proof.
  intros Hm. sse_unfold. cbn. rewrite Hm.
  destruct (reconnectTimer s); cbn; repeat split;
    first [reflexivity | assumption | lia].
Qed.

(** While the transport is closed by hand an error of the channel does
    nothing at all. *)
Lemma onerror_ignored (s : t) (random : number) (now : Z) :
  manualClose s = true → exec (onerror random now) s = (s, []).
Proof. intros Hm. sse_unfold. cbn. rewrite Hm. reflexivity. Qed.

(** Only [connect] clears the manual-close flag, and while it is set
    nothing starts a reconnection. *)
Lemma manualClose_kept (s : t) (i : Input) :
  manualClose s = true → i ≠ CallConnect →
  manualClose (exec (react JSON_parse i) s).1 = true
  ∧ reconnections (exec (react JSON_parse i) s).2 = [].
Proof.
  intros Hm Hi. destruct s; cbn in Hm; subst.
  destruct i as [| |m|ev k|ev k|now|data now|random now|h];
    try congruence; try destruct ev; sse_unfold; cbn; sse_cases;
    split; reflexivity.
Qed.

Lemma manualClose_kept_run (inputs : list Input) (s : t) :
  manualClose s = true → CallConnect ∉ inputs →
  manualClose (run JSON_parse inputs s).1 = true
  ∧ reconnections (run JSON_parse inputs s).2 = [].
Proof.
  revert s. induction inputs as [|i rest IH]; intros s Hm Hnot.
  - split; [exact Hm|reflexivity].
  - apply not_elem_of_cons in Hnot as [Hi Hrest].
    destruct (manualClose_kept s i Hm) as [Hm1 Hq1]; [congruence|].
    cbn [run].
    destruct (exec (react JSON_parse i) s) as [s1 o1] eqn:E1.
    destruct (IH s1 Hm1 Hrest) as [Hm2 Hq2].
    destruct (run JSON_parse rest s1) as [s2 o2]. cbn in *.
    split; [exact Hm2|].
    unfold reconnections in *. rewrite filter_app, Hq1, Hq2. reflexivity.
Qed.

Lemma timers_owned_step (s : t) (i : Input) :
  timers_owned s → timers_owned (exec (react JSON_parse i) s).1.
Proof.
  unfold timers_owned. intros Hown. destruct s; cbn in Hown.
  destruct i as [| |m|ev k|ev k|now|data now|random now|h];
    try destruct ev; sse_unfold; cbn; sse_cases; try exact Hown.
  all: intros h';
    rewrite ?elem_of_app, ?list_elem_of_filter, ?list_elem_of_singleton;
    intros Hin;
    repeat match goal with
      | H : _ ∨ _ |- _ => destruct H
      | H : _ ∧ _ |- _ => destruct H
      end; subst; try reflexivity;
    match goal with
    | H : _ ∈ _ |- _ => specialize (Hown _ H); congruence
    end.
Qed.

Lemma timers_owned_reachable (s : t) :
  reachable JSON_parse s → timers_owned s.
Proof.
  induction 1 as [o|s i _ IH].
  - intros h Hin. cbn in Hin. by apply elem_of_nil in Hin.
  - by apply timers_owned_step.
Qed.

(** Only the opening of the channel lowers the retry counter; every
    other input leaves it or adds one. *)
Lemma retryAttempt_step (s : t) (i : Input) :
  (∀ now, i ≠ SourceOpen now) →
  let n := retryAttempt (exec (react JSON_parse i) s).1 in
  n = retryAttempt s ∨ n = S (retryAttempt s).
Proof.
  intros Hi. destruct s.
  destruct i as [| |m|ev k|ev k|now|data now|random now|h];
    try (by destruct (Hi now)); try destruct ev; sse_unfold; cbn;
    sse_cases; auto; right; lia.
Qed.
Lemma transport_reachable_run (inputs : list Input) (s : t) :
  reachable JSON_parse s → reachable JSON_parse (run JSON_parse inputs s).1.
Proof.
  revert s. induction inputs as [|i rest IH]; intros s Hs; [exact Hs|].
  cbn [run]. specialize (IH _ (reachable_step JSON_parse s i Hs)).
  destruct (exec (react JSON_parse i) s) as [s1 o1]. cbn [fst] in IH.
  destruct (run JSON_parse rest s1) as [s2 o2]. exact IH.
Qed.

(** C5, as the code has it. The delay of a reconnect is
    [Math.round(exp - spread + random * spread * 2)], computed in
    double arithmetic, with
    [exp = Math.min(maxDelayMs, baseDelayMs * 2 ** attempt)] and
    [spread = exp * jitter] (a member of the configuration that is
    [undefined] counts as [NaN]). When the value before rounding is
    finite the delay is the integer nearest to it, the greater one of
    two, so it is within one half of that value; it is rounded, not
    clamped to [exp - spread, exp + spread]. With a jitter of zero, a
    finite [exp] that is not zero and a finite [random] the delay is
    [Math.round(exp)]. Every scheduled reconnect adds one to the
    attempt counter, the opening of the channel sets it to 0 and no
    other input lowers it. With [baseDelayMs = 100],
    [maxDelayMs = 1000] and [jitter = 0] three errors in a row after
    [connect] schedule reconnects after 100, 200 and 400 ms. *)
Theorem backoff_delay_rounded_not_clamped :
  (∀ (s : t) (random : number),
      let c := reconnectConfig s in
      let exp :=
        Math.min (Number.ToNumber (maxDelayMs c))
                 (Number.ToNumber (baseDelayMs c)
                  * Number.pow2 (retryAttempt s))%number in
      let spread := (exp * Number.ToNumber (jitter c))%number in
      let x := (exp - spread + random * spread * Number.of_Z 2)%number in
      let delay := (nextBackoffDelay random s).1.1 in
      delay = Math.round x
      ∧ retryAttempt (nextBackoffDelay random s).1.2 = S (retryAttempt s)
      ∧ (Number.valid x = true → Number.finite x = true →
         (Number.value delay
          == inject_Z (Qfloor (Number.value x + (1 # 2))))%Q
         ∧ (Number.value x - (1 # 2) < Number.value delay
            <= Number.value x + (1 # 2))%Q)
      ∧ (Number.is_zero (Number.ToNumber (jitter c)) = true →
         Number.nonzero exp = true →
         Number.finite random = true →
         delay = Math.round exp))
  ∧ (∀ (s : t) (random : number) (now : Z),
        manualClose s = false →
        let r := exec (onerror random now) s in
        timeouts r.2 = [(nextBackoffDelay random s).1.1]
        ∧ retryAttempt r.1 = S (retryAttempt s))
  ∧ (∀ (s : t) (now : Z), retryAttempt (exec (onopen now) s).1 = 0)
  ∧ (∀ (s : t) (i : Input),
        (∀ now, i ≠ SourceOpen now) →
        let n := retryAttempt (exec (react JSON_parse i) s).1 in
        n = retryAttempt s ∨ n = S (retryAttempt s))
  ∧ (∀ (r1 r2 r3 : number) (n1 n2 n3 : Z),
        Number.finite r1 = true → Number.finite r2 = true →
        Number.finite r3 = true →
        timeouts
          (run JSON_parse
             [CallConnect; SourceError r1 n1; SourceError r2 n2;
              SourceError r3 n3]
             (new (mkOptions None None
                             (Some (Some (Number.of_Z 100)))
                             (Some (Some (Number.of_Z 1000)))
                             (Some (Some (Number.of_Z 0)))))).2
        = [Number.of_Z 100; Number.of_Z 200; Number.of_Z 400]).
Proof.
  split; [|split; [|split; [|split]]].
  - intros s random c exp spread x delay.
    split; [reflexivity|]. split; [cbn; lia|]. split.
    + intros Hv Hf. change delay with (Math.round x).
      split; [by apply NumberFacts.round_value
             |by apply NumberFacts.round_bounds].
    + intros Hj Hexp Hr. by apply nextBackoffDelay_no_jitter.
  - intros s random now Hm r.
    destruct (onerror_schedules s random now Hm) as (Ht & Hr & _).
    split; assumption.
  - intros s now. reflexivity.
  - apply retryAttempt_step.
  - intros r1 r2 r3 n1 n2 n3 Hf1 Hf2 Hf3. cbn [run].
    set (s0 := new _).
    destruct (exec (react JSON_parse CallConnect) s0) as [s1 o1] eqn:E1.
    assert (H1 : manualClose s1 = false ∧ retryAttempt s1 = 0
                 ∧ reconnectConfig s1
                   = mkBackoff (Some (Number.of_Z 100))
                               (Some (Number.of_Z 1000))
                               (Some (Number.of_Z 0))
                 ∧ timeouts o1 = []).
    { inversion E1. repeat split. }
    destruct H1 as (Hm1 & Ha1 & Hc1 & Ho1).
    pose proof (onerror_schedules s1 r1 n1 Hm1) as Hs1.
    change (exec (react JSON_parse (SourceError r1 n1)) s1)
      with (exec (onerror r1 n1) s1).
    destruct (exec (onerror r1 n1) s1) as [s2 o2].
    cbn [fst snd] in Hs1. destruct Hs1 as (Ho2 & Ha2 & Hm2 & Hc2).
    pose proof (onerror_schedules s2 r2 n2 Hm2) as Hs2.
    change (exec (react JSON_parse (SourceError r2 n2)) s2)
      with (exec (onerror r2 n2) s2).
    destruct (exec (onerror r2 n2) s2) as [s3 o3].
    cbn [fst snd] in Hs2. destruct Hs2 as (Ho3 & Ha3 & Hm3 & Hc3).
    pose proof (onerror_schedules s3 r3 n3 Hm3) as Hs3.
    change (exec (react JSON_parse (SourceError r3 n3)) s3)
      with (exec (onerror r3 n3) s3).
    destruct (exec (onerror r3 n3) s3) as [s4 o4].
    cbn [fst snd run app] in *. destruct Hs3 as (Ho4 & _).
    unfold timeouts in *. rewrite !omap_app, Ho1, Ho2, Ho3, Ho4.
    cbn [app omap].
    rewrite (nextBackoffDelay_no_jitter r1 s1),
      (nextBackoffDelay_no_jitter r2 s2),
      (nextBackoffDelay_no_jitter r3 s3); try done.
    all: rewrite ?Hc3, ?Hc2, ?Hc1, ?Ha3, ?Ha2, ?Ha1; vm_compute; reflexivity.
Qed.
(** C7. Once [disconnect] has returned the manual-close flag is set,
    the reconnect timer is cleared (no timeout of the transport is
    left due), the channel is closed and the status is
    [Disconnected]; and after any inputs that follow, as long as none
    of them is [connect], nothing has started a reconnection and an
    error of the channel is ignored: it changes nothing and emits
    nothing. *)
Theorem disconnect_suppresses_reconnection (s : t) :
  reachable JSON_parse s →
  let r := exec disconnect s in
  manualClose r.1 = true
  ∧ reconnectTimer r.1 = None
  ∧ dueTimers r.1 = []
  ∧ (∀ h, reconnectTimer s = Some h → TClearTimeout h ∈ r.2)
  ∧ eventSource r.1 = None
  ∧ status r.1 = Disconnected
  ∧ ∀ inputs : list Input,
      CallConnect ∉ inputs →
      let r' := run JSON_parse inputs r.1 in
      manualClose r'.1 = true
      ∧ reconnections r'.2 = []
      ∧ ∀ random now, exec (onerror random now) r'.1 = (r'.1, []).
Proof.
  intros Hreach r.
  pose proof (timers_owned_reachable s Hreach) as Hown.
  assert (Hm : manualClose r.1 = true).
  { subst r. destruct s. sse_unfold. sse_cases; reflexivity. }
  repeat split.
  - exact Hm.
  - subst r. destruct s. sse_unfold. sse_cases; reflexivity.
  - subst r. destruct s as [? ? ? ? ? ? src tm ? ? ? ? due ?].
    unfold timers_owned in Hown. cbn in Hown.
    sse_unfold. destruct tm as [h|], src; cbn.
    all: apply elem_of_nil_inv; intros h' Hin;
      try apply list_elem_of_filter in Hin as [Hne Hin];
      specialize (Hown _ Hin); congruence.
  - intros h Hh. subst r. destruct s. cbn in Hh. subst.
    sse_unfold. sse_cases; apply list_elem_of_here.
  - subst r. destruct s. sse_unfold. sse_cases; reflexivity.
  - subst r. destruct s. sse_unfold. sse_cases; reflexivity.
  - by apply manualClose_kept_run.
  - by apply manualClose_kept_run.
  - intros random now. apply onerror_ignored.
    by apply manualClose_kept_run.
Qed.

(** C8, as the code has it. [onmessage] never changes the transport,
    its status included, and reports what is thrown inside its [try],
    nothing else. When [JSON.parse] throws, one error goes to the
    subscribers of the error emitter (the thrown [Error], or
    [Error("Invalid SSE payload")] for any other thrown value),
    followed by its log entry, and no message is emitted. When
    [JSON.parse] returns, the value is emitted to the message
    subscribers whatever it is, a message or not, and no error is
    emitted, unless the value is [null] and the client is subscribed:
    then the subscribers up to the client are called, the client
    throws a [TypeError] and that is the one error emitted. *)
Theorem payload_reported_only_if_thrown (s : t) (data : string) (now : Z) :
  let r := onmessage JSON_parse data now s in
  let subscribers := Emitter.handlers (messageEmitter s) in
  let report e :=
    [TEmit (EvError e) (Emitter.handlers (errorEmitter s));
     TEmit (EvLog (mkLog LevelError (err_message e) now None))
          (Emitter.handlers (logEmitter s))] in
  r.1.2 = s
  ∧ status r.1.2 = status s
  ∧ (∀ thrown, JSON_parse data = inl thrown →
       r.2 = report (caught thrown)
       ∧ errorsEmitted r.2
         = [(caught thrown, Emitter.handlers (errorEmitter s))]
       ∧ messagesEmitted r.2 = [])
  ∧ (∀ parsed, JSON_parse data = inr parsed →
       (parsed = NotObject NNull → ClientHook ∉ subscribers) →
       r.2 = [TEmit (EvMessage parsed) subscribers]
       ∧ errorsEmitted r.2 = []
       ∧ messagesEmitted r.2 = [parsed])
  ∧ (JSON_parse data = inr (NotObject NNull) →
     ClientHook ∈ subscribers →
     ∃ before after,
       subscribers = before ++ ClientHook :: after
       ∧ (ClientHook ∉ before)
       ∧ r.2 = TEmit (EvMessage (NotObject NNull)) (before ++ [ClientHook])
               :: report null_has_no_id
       ∧ errorsEmitted r.2
         = [(null_has_no_id, Emitter.handlers (errorEmitter s))]
       ∧ messagesEmitted r.2 = [NotObject NNull]).
Proof.
  intros r subscribers report.
  assert (Hs : r.1.2 = s).
  { subst r. unfold onmessage. destruct (JSON_parse data) as [?|parsed];
      [reflexivity|]. run_unfold. cbn.
    by destruct (Emitter.emit_until _ _) as [? [?|]]. }
  split; [exact Hs|]. split; [by rewrite Hs|]. split; [|split].
  - intros thrown Hparse. subst r. unfold onmessage. rewrite Hparse.
    by repeat split.
  - intros parsed Hparse Hnull. subst r. unfold onmessage.
    rewrite Hparse. run_unfold. cbn.
    rewrite (emit_until_returns (EvMessage parsed)); [by repeat split|].
    intros [= E]. by apply Hnull.
  - intros Hparse Hin. subst r. unfold onmessage. rewrite Hparse.
    destruct (emit_until_throws _ Hin) as (before & after & E & Hnot & Hem).
    exists before, after. split; [exact E|]. split; [exact Hnot|].
    run_unfold. cbn. fold subscribers. rewrite Hem. by repeat split.
Qed.
End WithParser.

(** A reading of C5 that the code does not meet: with
    [baseDelayMs = 1], [maxDelayMs = 1000], [jitter = 0.75] and
    [Math.random() = 0.125], all of them doubles and every step exact,
    the first delay is [Math.round(0.4375) = 0], below
    [exp - spread = 0.25]. *)
Lemma backoff_delay_leaves_spread :
  let quarter := (Number.of_Z 1 / Number.of_Z 4)%number in
  let s := new (mkOptions None None
                  (Some (Some (Number.of_Z 1)))
                  (Some (Some (Number.of_Z 1000)))
                  (Some (Some (Number.of_Z 3 / Number.of_Z 4)%number))) in
  let random := (Number.of_Z 1 / Number.of_Z 8)%number in
  let exp := backoff_exp (reconnectConfig s) (retryAttempt s) in
  let spread := backoff_spread (reconnectConfig s) (retryAttempt s) in
  let delay := (nextBackoffDelay random s).1.1 in
  exp = Number.of_Z 1
  ∧ (exp - spread)%number = quarter
  ∧ (exp - spread + random * spread * Number.of_Z 2)%number
    = (Number.of_Z 7 / Number.of_Z 16)%number
  ∧ delay = Number.of_Z 0
  ∧ Number.ltb delay (exp - spread)%number = true.
Proof. vm_compute. by repeat split. Qed.

(** The theorem of C5 at the default configuration, first attempt,
    [Math.random() = 0.5]: the value before rounding is 500 and so is
    the delay. *)
Lemma backoff_delay_default_witness :
  let s := new (mkOptions None None None None None) in
  let half := (Number.of_Z 1 / Number.of_Z 2)%number in
  (nextBackoffDelay half s).1.1 = Number.of_Z 500
  ∧ (Number.value (nextBackoffDelay half s).1.1 == 500)%Q.
Proof.
  intros s half. split; [vm_compute; reflexivity|].
  destruct (proj1 (backoff_delay_rounded_not_clamped sample_parse) s half)
    as (_ & _ & Hround & _).
  destruct Hround as [Hvalue _]; [vm_compute; reflexivity..|].
  rewrite Hvalue. vm_compute. reflexivity.
Defined.

(** The theorem of C7 on a transport that connected, lost its channel
    and so has a reconnect timer running when [disconnect] is called. *)
Lemma disconnect_suppresses_reconnection_witness :
  let s := (run sample_parse [CallConnect; SourceError sample_random 0]
                (new (mkOptions None None None None None))).1 in
  reconnectTimer s = Some 2
  ∧ dueTimers s = [2]
  ∧ dueTimers (exec disconnect s).1 = []
  ∧ exec (onerror sample_random 1)
         (run sample_parse [TimerFired 2; SourceOpen 1]
              (exec disconnect s).1).1
    = ((run sample_parse [TimerFired 2; SourceOpen 1]
            (exec disconnect s).1).1, []).
Proof.
  intros s.
  assert (Hs : reachable sample_parse s)
    by (apply transport_reachable_run, reachable_new).
  pose proof (disconnect_suppresses_reconnection sample_parse s Hs)
    as (_ & _ & Hdue & _ & _ & _ & Hlater).
  split; [reflexivity|]. split; [reflexivity|]. split; [exact Hdue|].
  refine (proj2 (proj2 (Hlater [TimerFired 2; SourceOpen 1%Z] _)) _ _).
  intros Hin. repeat (apply elem_of_cons in Hin as [Hin|Hin]; [discriminate|]).
  by apply elem_of_nil in Hin.
Defined.

(** A reading of C8 that the code does not meet: the payload [42]
    is no message, yet it is emitted to the message subscribers and no
    error is emitted; and the payload [null], on the transport of a
    client, is emitted to the client before the [TypeError] of the
    client is reported as the error. *)
Lemma number_payload_emitted_as_message :
  let s := (run sample_parse
                [Subscribe (EvMessage (NotObject NNull)) 3;
                 Subscribe (EvError (Error "any")) 7; CallConnect]
                (new (mkOptions None None None None None))).1 in
  let c := McpClient.transport SseClient.sample_client in
  sample_parse "42" = inr (NotObject (NNumber (Number.of_Z 42)))
  ∧ (onmessage sample_parse "42" 5 s).2
    = [TEmit (EvMessage (NotObject (NNumber (Number.of_Z 42)))) [External 3]]
  ∧ errorsEmitted (onmessage sample_parse "42" 5 s).2 = []
  ∧ sample_parse "null" = inr (NotObject NNull)
  ∧ messagesEmitted (onmessage sample_parse "null" 5 c).2
    = [NotObject NNull]
  ∧ errorsEmitted (onmessage sample_parse "null" 5 c).2
    = [(null_has_no_id, [ClientHook])].
Proof. by repeat split. Qed.

(** The theorem of C8 on the payload ["not json"]. *)
Lemma payload_reported_only_if_thrown_witness :
  let s := (run sample_parse
                [Subscribe (EvError (Error "any")) 7; CallConnect]
                (new (mkOptions None None None None None))).1 in
  sample_parse "not json" = inl (ThrownError (Error "Unexpected token"))
  ∧ errorsEmitted (onmessage sample_parse "not json" 5 s).2
    = [(Error "Unexpected token", [External 7])]
  ∧ status (onmessage sample_parse "not json" 5 s).1.2 = Connecting.
Proof.
  intros s. split; [reflexivity|].
  pose proof (payload_reported_only_if_thrown sample_parse s "not json" 5)
    as (_ & Hst & Hthrown & _).
  destruct (Hthrown (ThrownError (Error "Unexpected token")) eq_refl)
    as (_ & Herr & _).
  split; [exact Herr|]. rewrite Hst. reflexivity.
Defined.
End SseTransportFacts.

(** * Properties of the map *)
Module JsMapFacts.
Import JsMap.

Section WithValue.
Context {V : Type}.
Implicit Types (m : list (string * V)) (k : string) (v : V).

Lemma get_Some_elem_of m k v : get k m = Some v → (k, v) ∈ m.
Proof.
  induction m as [|[k' v'] m IH]; cbn; [discriminate|].
  destruct (decide (k' = k)) as [->|Hne].
  - intros [= ->]. apply list_elem_of_here.
  - intros Hget. apply list_elem_of_further, IH, Hget.
Qed.

Lemma get_None_not_key m k : get k m = None ↔ k ∉ keys m.
Proof.
  unfold keys. induction m as [|[k' v'] m IH]; cbn.
  - split; [intros _; apply not_elem_of_nil|reflexivity].
  - rewrite not_elem_of_cons. destruct (decide (k' = k)) as [->|Hne].
    + split; [discriminate|intros [Hk _]; congruence].
    + rewrite IH. split; [intros Hk; split; [congruence|exact Hk]|tauto].
Qed.

Lemma elem_of_get m k v : NoDup (keys m) → (k, v) ∈ m → get k m = Some v.
Proof.
  unfold keys. induction m as [|[k' v'] m IH]; cbn.
  - intros _ Hin. by apply elem_of_nil in Hin.
  - intros Hnd Hin. apply NoDup_cons in Hnd as [Hk' Hnd].
    apply elem_of_cons in Hin as [[= -> ->]|Hin].
    + by rewrite decide_True.
    + rewrite decide_False; [by apply IH|].
      intros ->. apply Hk'. apply list_elem_of_fmap.
      by exists (k, v).
Qed.

Lemma elem_of_delete m k k' v :
  (k', v) ∈ delete k m ↔ k' ≠ k ∧ (k', v) ∈ m.
Proof. unfold delete. by rewrite list_elem_of_filter. Qed.

Lemma get_delete m k : get k (delete k m) = None.
Proof.
  apply get_None_not_key. unfold keys. intros Hin.
  apply list_elem_of_fmap in Hin as ([k' v] & -> & Hin).
  apply elem_of_delete in Hin as [Hne _]. by apply Hne.
Qed.

Lemma NoDup_keys_delete m k : NoDup (keys m) → NoDup (keys (delete k m)).
Proof.
  unfold keys, delete. induction m as [|[k' v'] m IH]; [done|].
  rewrite fmap_cons. intros Hnd. apply NoDup_cons in Hnd as [Hk' Hnd].
  rewrite filter_cons. destruct (decide ((k', v').1 ≠ k)); [|by apply IH].
  rewrite fmap_cons. apply NoDup_cons. split; [|by apply IH].
  intros Hin. apply Hk'.
  apply list_elem_of_fmap in Hin as ([k2 v2] & Heq & Hin).
  apply list_elem_of_filter in Hin as [_ Hin].
  apply list_elem_of_fmap. by exists (k2, v2).
Qed.

(** Deleting the key of the first entry leaves the entries after it. *)
Lemma delete_head m k v :
  NoDup (keys ((k, v) :: m)) → delete k ((k, v) :: m) = m.
Proof.
  unfold keys, delete. rewrite fmap_cons. intros Hnd.
  apply NoDup_cons in Hnd as [Hk _].
  rewrite filter_cons, decide_False by (intros Hne; by apply Hne).
  induction m as [|[k' v'] m IH]; [done|].
  rewrite fmap_cons in Hk. apply not_elem_of_cons in Hk as [Hne Hk].
  rewrite filter_cons, decide_True by (cbn in *; congruence).
  f_equal. by apply IH.
Qed.

Lemma keys_set m k v :
  keys (set k v m) = if decide (k ∈ keys m) then keys m else keys m ++ [k].
Proof.
  unfold keys. induction m as [|[k' v'] m IH]; cbn.
  - rewrite decide_False; [done|apply not_elem_of_nil].
  - destruct (decide (k' = k)) as [->|Hne]; cbn.
    + rewrite decide_True; [done|apply list_elem_of_here].
    + rewrite IH. destruct (decide (k ∈ m.*1)) as [Hin|Hnin].
      * rewrite decide_True; [done|by apply list_elem_of_further].
      * rewrite decide_False; [done|].
        rewrite not_elem_of_cons. split; [congruence|done].
Qed.

Lemma NoDup_keys_set m k v : NoDup (keys m) → NoDup (keys (set k v m)).
Proof.
  intros Hnd. rewrite keys_set. destruct (decide (k ∈ keys m)); [done|].
  apply NoDup_app. split; [done|]. split.
  - intros x Hx Hin. apply list_elem_of_singleton in Hin as ->. done.
  - apply NoDup_singleton.
Qed.

Lemma elem_of_set m k v k' v' :
  (k', v') ∈ set k v m → (k' = k ∧ v' = v) ∨ (k', v') ∈ m.
Proof.
  induction m as [|[k2 v2] m IH]; cbn.
  - intros Hin. apply list_elem_of_singleton in Hin as [= -> ->]. by left.
  - destruct (decide (k2 = k)) as [->|Hne].
    + intros Hin. apply elem_of_cons in Hin as [[= -> ->]|Hin]; [by left|].
      right. by apply list_elem_of_further.
    + intros Hin. apply elem_of_cons in Hin as [[= -> ->]|Hin].
      * right. apply list_elem_of_here.
      * destruct (IH Hin) as [?|?]; [by left|].
        right. by apply list_elem_of_further.
Qed.

(** A key that is not in the map is added at the end and no entry is
    touched; a key that is in the map has its entry replaced. *)
Lemma set_fresh m k v : k ∉ keys m → set k v m = m ++ [(k, v)].
Proof.
  unfold keys. induction m as [|[k' v'] m IH]; cbn; [done|].
  intros Hk. apply not_elem_of_cons in Hk as [Hne Hk].
  rewrite decide_False by congruence. f_equal. by apply IH.
Qed.

Lemma get_set m k v k' :
  get k' (set k v m) = if decide (k = k') then Some v else get k' m.
Proof.
  induction m as [|[k2 v2] m IH]; cbn.
  - destruct (decide (k = k')); done.
  - destruct (decide (k2 = k)) as [->|Hne]; cbn.
    + destruct (decide (k = k')); done.
    + destruct (decide (k2 = k')) as [->|Hne'].
      * rewrite decide_False by congruence. done.
      * exact IH.
Qed.
End WithValue.
End JsMapFacts.

(** * Properties of the client *)
Module McpClientFacts.
Import McpClient JsMapFacts.

(** ** The three moves and the invariant *)

Lemma core_steps_trans k1 k2 k3 :
  core_steps k1 k2 → core_steps k2 k3 → core_steps k1 k3.
Proof.
  induction 1 as [|? ? ? Hstep _ IH]; [done|].
  intros Hrest. eapply steps_next; [exact Hstep|by apply IH].
Qed.

Lemma core_steps_one k1 k2 : core_step k1 k2 → core_steps k1 k2.
Proof. intros Hstep. eapply steps_next; [exact Hstep|apply steps_refl]. Qed.

Lemma length_settleIn p o ps : length (settleIn p o ps) = length ps.
Proof.
  unfold settleIn. destruct (ps !! p) as [[]|]; try done.
  apply length_insert.
Qed.

Lemma lookup_settleIn_ne p o ps q :
  p ≠ q → settleIn p o ps !! q = ps !! q.
Proof.
  intros Hne. unfold settleIn. destruct (ps !! p) as [[]|]; try done.
  by apply list_lookup_insert_ne.
Qed.

Lemma lookup_settleIn_eq p o ps :
  ps !! p = Some Unsettled → settleIn p o ps !! p = Some o.
Proof.
  intros Hp. unfold settleIn. rewrite Hp.
  apply list_lookup_insert_eq. by eapply lookup_lt_Some.
Qed.

(** A promise that is settled stays as it is. *)
Lemma lookup_settleIn_settled p o ps q o' :
  ps !! q = Some o' → o' ≠ Unsettled → settleIn p o ps !! q = Some o'.
Proof.
  intros Hq Ho'. destruct (decide (p = q)) as [->|Hne].
  - unfold settleIn. rewrite Hq. by destruct o'.
  - by rewrite lookup_settleIn_ne.
Qed.

(** Retiring timeout [h]: its callback is dropped, its promise is asked
    to settle and the key it deletes leaves the map. *)
Lemma consistent_retire pd ps ts h cb o :
  consistent pd ps ts → ts !! h = Some (Some cb) → o ≠ Unsettled →
  consistent (JsMap.delete (cb_id cb) pd) (settleIn h o ps) (<[h:=None]> ts).
Proof.
  intros (Hlen & Hnd & Htm & Hno & Hpd) Hh Ho.
  assert (Hlt : h < length ts) by (by eapply lookup_lt_Some).
  destruct (Htm _ _ Hh) as [_ Hps].
  split; [|split; [|split; [|split]]].
  - by rewrite length_settleIn, length_insert.
  - by apply NoDup_keys_delete.
  - intros h' cb' Hl. destruct (decide (h = h')) as [->|Hne].
    + rewrite list_lookup_insert_eq in Hl by done. discriminate.
    + rewrite list_lookup_insert_ne in Hl by done.
      rewrite lookup_settleIn_ne by done. by apply Htm.
  - intros h' Hl. destruct (decide (h = h')) as [->|Hne].
    + exists o. split; [by apply lookup_settleIn_eq|done].
    + rewrite list_lookup_insert_ne in Hl by done.
      destruct (Hno _ Hl) as (o' & Ho' & Hset). exists o'.
      split; [by apply lookup_settleIn_settled|done].
  - intros id' pr' Hin. apply elem_of_delete in Hin as [Hne Hin].
    destruct (Hpd _ _ Hin) as (Hid & Heq & cb' & Hcb' & Hcbid').
    split; [done|]. split; [done|]. exists cb'. split; [|done].
    rewrite list_lookup_insert_ne; [done|].
    intros Heq'. rewrite <- Heq' in Hcb'. congruence.
Qed.

Lemma consistent_register pd ps ts id method :
  consistent pd ps ts → id ≠ EmptyString →
  consistent (JsMap.set id (mkPending (length ps) (length ts)) pd)
             (ps ++ [Unsettled])
             (ts ++ [Some (mkCallback id method (length ps))]).
Proof.
  intros (Hlen & Hnd & Htm & Hno & Hpd) Hid.
  split; [|split; [|split; [|split]]].
  - rewrite !length_app. cbn. lia.
  - by apply NoDup_keys_set.
  - intros h cb Hl. apply lookup_app_Some in Hl as [Hl|[Hge Hl]].
    + destruct (Htm _ _ Hl) as [? Hps]. split; [done|].
      by apply lookup_app_l_Some.
    + apply list_lookup_singleton_Some in Hl as [Hz [= <-]].
      assert (h = length ps) as -> by lia. cbn. split; [done|].
      rewrite lookup_app_r by lia. by rewrite Nat.sub_diag.
  - intros h Hl. apply lookup_app_Some in Hl as [Hl|[Hge Hl]].
    + destruct (Hno _ Hl) as (o & Ho & Hset). exists o.
      split; [by apply lookup_app_l_Some|done].
    + apply list_lookup_singleton_Some in Hl as [_ [=]].
  - intros id' pr' Hin. apply elem_of_set in Hin as [[-> ->]|Hin].
    + split; [done|]. cbn. split; [lia|].
      exists (mkCallback id method (length ps)). split; [|done].
      rewrite lookup_app_r by lia. by rewrite Nat.sub_diag.
    + destruct (Hpd _ _ Hin) as (? & ? & cb' & Hcb' & Hcbid').
      split; [done|]. split; [done|].
      exists cb'. split; [|done]. by apply lookup_app_l_Some.
Qed.

Lemma consistent_step pd ps ts pd' ps' ts' :
  core_step (pd, ps, ts) (pd', ps', ts') →
  consistent pd ps ts → consistent pd' ps' ts'.
Proof.
  intros Hstep Hc.
  inversion Hstep as [? ? ? id pr o Hin Ho|? ? ? h cb e Hh|? ? ? id method Hid];
    subst; clear Hstep.
  - destruct Hc as (Hlen & Hnd & Htm & Hno & Hpd).
    destruct (Hpd _ _ Hin) as (_ & -> & cb & Hcb & <-).
    by apply consistent_retire.
  - destruct Hc as (Hlen & Hnd & Htm & Hno & Hpd).
    destruct (Htm _ _ Hh) as [-> _].
    by apply consistent_retire.
  - by apply consistent_register.
Qed.

Lemma consistent_steps k k' :
  core_steps k k' → consistent k.1.1 k.1.2 k.2 → consistent k'.1.1 k'.1.2 k'.2.
Proof.
  induction 1 as [|[[? ?] ?] [[? ?] ?] ? Hstep _ IH]; [done|].
  intros Hc. apply IH. eapply consistent_step; [exact Hstep|exact Hc].
Qed.

(** No move changes a promise that is settled. *)
Lemma settled_step k k' p o :
  core_step k k' → k.1.2 !! p = Some o → o ≠ Unsettled →
  k'.1.2 !! p = Some o.
Proof.
  intros Hstep. destruct Hstep; cbn; intros Hp Ho.
  - by apply lookup_settleIn_settled.
  - by apply lookup_settleIn_settled.
  - by apply lookup_app_l_Some.
Qed.

Lemma settled_steps k k' p o :
  core_steps k k' → k.1.2 !! p = Some o → o ≠ Unsettled →
  k'.1.2 !! p = Some o.
Proof.
  induction 1 as [|? ? ? Hstep _ IH]; [done|].
  intros Hp Ho. apply IH; [|done]. by eapply settled_step.
Qed.
(** No move brings back a timeout that was cleared or has fired. *)
Lemma cleared_step k k' h :
  core_step k k' → k.2 !! h = Some None → k'.2 !! h = Some None.
Proof.
  intros Hstep. destruct Hstep; cbn; intros Hh.
  - destruct (decide (timeoutId pr = h)) as [->|Hne].
    + apply list_lookup_insert_eq. by eapply lookup_lt_Some.
    + by rewrite list_lookup_insert_ne.
  - destruct (decide (h0 = h)) as [->|Hne].
    + apply list_lookup_insert_eq. by eapply lookup_lt_Some.
    + by rewrite list_lookup_insert_ne.
  - by apply lookup_app_l_Some.
Qed.

Lemma cleared_steps k k' h :
  core_steps k k' → k.2 !! h = Some None → k'.2 !! h = Some None.
Proof.
  induction 1 as [|? ? ? Hstep _ IH]; [done|].
  intros Hh. apply IH. by eapply cleared_step.
Qed.

(** The slot of a timeout keeps its callback until it is emptied. *)
Lemma slot_step k k' h cb :
  core_step k k' → k.2 !! h = Some (Some cb) →
  k'.2 !! h = Some (Some cb) ∨ k'.2 !! h = Some None.
Proof.
  intros Hstep. destruct Hstep; cbn; intros Hh.
  - destruct (decide (timeoutId pr = h)) as [->|Hne].
    + right. apply list_lookup_insert_eq. by eapply lookup_lt_Some.
    + left. by rewrite list_lookup_insert_ne.
  - destruct (decide (h0 = h)) as [->|Hne].
    + right. apply list_lookup_insert_eq. by eapply lookup_lt_Some.
    + left. by rewrite list_lookup_insert_ne.
  - left. by apply lookup_app_l_Some.
Qed.

Lemma slot_steps k k' h cb :
  core_steps k k' → k.2 !! h = Some (Some cb) →
  k'.2 !! h = Some (Some cb) ∨ k'.2 !! h = Some None.
Proof.
  induction 1 as [|? ? ? Hstep Hrest IH]; [by left|].
  intros Hh. destruct (slot_step _ _ _ _ Hstep Hh) as [Hh'|Hh'].
  - by apply IH.
  - right. apply (cleared_steps _ _ _ Hrest Hh').
Qed.

(** ** What each method does to the state *)
Section WithTransport.
Context {T : Type} `{McpTransport T}.
Implicit Types (c : McpClient.t T) (now : Z).
Local Abbreviation moves := (@McpClient.moves T _).
Local Abbreviation quiet := (@McpClient.quiet T _).
Local Abbreviation steady := (@McpClient.steady T _).
Local Abbreviation mirroring := (@McpClient.mirroring T _).

Lemma log_eq level message data now c :
  log level message data now c
  = (tt, c, [Emit (EvLog (mkLog level message now data))
                  (Emitter.emit (logEmitter c));
             Logger (mkLog level message now data)]).
Proof. reflexivity. Qed.

Lemma setStatus_eq v now c :
  setStatus v now c
  = (tt, set_status v c,
     [Emit (EvStatus v) (Emitter.emit (statusEmitter c));
      Emit (EvLog (mkLog LevelInfo ("status " +:+ status_name v)
                                now None))
           (Emitter.emit (logEmitter c));
      Logger (mkLog LevelInfo ("status " +:+ status_name v) now None)]).
Proof. reflexivity. Qed.

Lemma handleError_eq e now c :
  handleError e now c
  = (tt, c,
     [Emit (EvError e) (Emitter.emit (errorEmitter c));
      Emit (EvLog (mkLog LevelError (err_message e) now None))
           (Emitter.emit (logEmitter c));
      Logger (mkLog LevelError (err_message e) now None)]).
Proof. reflexivity. Qed.

(** [null] is emitted to the subscribers of the client before
    [message.id] throws. *)
Lemma handleMessage_null now c :
  handleMessage (NotObject NNull) now c
  = (Some (ThrownError null_has_no_id), c,
     [Emit (EvMessage (NotObject NNull))
           (Emitter.emit (messageEmitter c))]).
Proof. reflexivity. Qed.

Lemma handleMessage_unmatched m now c :
  unmatched m c →
  handleMessage m now c
  = (None, c,
     [Emit (EvMessage m) (Emitter.emit (messageEmitter c));
      Emit (EvLog (mkLog LevelInfo "message" now
                                (Some (message_to_json m))))
           (Emitter.emit (logEmitter c));
      Logger (mkLog LevelInfo "message" now (Some (message_to_json m)))]).
Proof.
  unfold unmatched, handleMessage. run_unfold. intros [Hnull Hid].
  destruct m as [id ? ? ? ?|v].
  - cbn in *. destruct id as [id|]; [|reflexivity].
    destruct Hid as [->|Hget]; [reflexivity|].
    unfold JsMap.has. rewrite Hget.
    destruct (bool_decide (id ≠ EmptyString)); reflexivity.
  - destruct v; try reflexivity. by destruct Hnull.
Qed.

Lemma handleMessage_matched m now c id pr :
  m_id m = Some id → id ≠ EmptyString →
  JsMap.get id (pending c) = Some pr →
  handleMessage m now c
  = (None,
     set_promises (settleIn (promise pr) (response_outcome m) (promises c))
       (set_pending (JsMap.delete id (pending c))
          (set_timers (<[timeoutId pr:=None]> (timers c)) c)),
     [Emit (EvMessage m) (Emitter.emit (messageEmitter c));
      ClearTimeout (timeoutId pr);
      response_effect (promise pr) m]).
Proof.
  intros Hid Hne Hget.
  destruct m as [id' ? ? ? err|v]; [|discriminate]. cbn in Hid. subst id'.
  unfold handleMessage, response_outcome, response_effect,
    clearTimeout, reject, resolve, settle.
  run_unfold. cbn [m_id m_error]. unfold JsMap.has. rewrite Hget.
  rewrite bool_decide_true by done. cbn.
  destruct err; reflexivity.
Qed.

(** A message with an id is not [null]. *)
Lemma unmatched_with_id m c id :
  m_id m = Some id →
  id = EmptyString ∨ JsMap.get id (pending c) = None →
  unmatched m c.
Proof.
  intros Hid Hcase. split; [by intros ->|]. by rewrite Hid.
Qed.

Lemma timeoutFired_due h cb c :
  timers c !! h = Some (Some cb) →
  timeoutFired h c
  = (tt,
     set_promises
       (settleIn (cb_reject cb)
                 (Rejected (Error ("Request timed out: " +:+ cb_method cb)))
                 (promises c))
       (set_pending (JsMap.delete (cb_id cb) (pending c))
          (set_timers (<[h:=None]> (timers c)) c)),
     [Reject (cb_reject cb)
             (Error ("Request timed out: " +:+ cb_method cb))]).
Proof.
  intros Hh. unfold timeoutFired, reject, settle. run_unfold.
  rewrite Hh. reflexivity.
Qed.

Lemma timeoutFired_not_due h c :
  (∀ cb, timers c !! h ≠ Some (Some cb)) → timeoutFired h c = (tt, c, []).
Proof.
  intros Hh. unfold timeoutFired. run_unfold.
  destruct (timers c !! h) as [[cb|]|] eqn:E; try reflexivity.
  by destruct (Hh cb).
Qed.

Lemma rejectOne_eq error entry c :
  rejectOne error entry c
  = (tt,
     set_pending (JsMap.delete entry.1 (pending c))
       (set_promises (settleIn (promise entry.2) (Rejected error)
                               (promises c))
          (set_timers (<[timeoutId entry.2:=None]> (timers c)) c)),
     [ClearTimeout (timeoutId entry.2);
      Reject (promise entry.2) error]).
Proof. reflexivity. Qed.

Lemma request_eq method params now random36 c :
  let id := generateId now random36 in
  let p := length (promises c) in
  let c1 :=
    set_pending (JsMap.set id (mkPending p (length (timers c))) (pending c))
      (set_timers (timers c ++ [Some (mkCallback id method p)])
         (set_promises (promises c ++ [Unsettled]) c)) in
  let data :=
    Some (JObject (("id", JString id)
                   :: from_option (λ x, [("params", x)]) [] params)) in
  let sent :=
    callTransport
      (tr_send (mkMessage (Some id) (Some method) params None None))
      now c1 in
  request method params now random36 c
  = (p, sent.1.2,
     [SetTimeout (length (timers c)) (requestTimeoutMs c);
      Emit (EvLog (mkLog LevelDebug ("send " +:+ method) now data))
           (Emitter.emit (logEmitter c));
      Logger (mkLog LevelDebug ("send " +:+ method) now data)]
     ++ sent.2).
Proof.
  intros id p c1 data sent. subst sent c1 data p id.
  unfold request, newPromise, setTimeout, log. run_unfold.
  cbn -[callTransport generateId].
  match goal with
  | |- context [callTransport ?op now ?x] =>
      destruct (callTransport op now x) as [[[] c2] o2]
  end.
  cbn. by rewrite app_nil_r.
Qed.

(** ** Every method moves the pending map, the promises and the
    timers by the three moves only *)

Lemma moves_wf {A} (m : Run Effect (McpClient.t T) A) c :
  moves m → wf c → wf (m c).1.2.
Proof.
  intros Hm Hwf. apply (consistent_steps _ _ (Hm c Hwf)). exact Hwf.
Qed.

Lemma moves_ret {A} (a : A) :
  moves (ret a : Run Effect (McpClient.t T) A).
Proof. intros c _. apply steps_refl. Qed.

Lemma moves_get : moves (get : Run Effect (McpClient.t T) _).
Proof. intros c _. apply steps_refl. Qed.

Lemma moves_tell o : moves (tell o : Run Effect (McpClient.t T) unit).
Proof. intros c _. apply steps_refl. Qed.

Lemma moves_modify (f : McpClient.t T → McpClient.t T) :
  (∀ c, core (f c) = core c) → moves (modify f).
Proof. intros Hf c _. cbn. rewrite Hf. apply steps_refl. Qed.

Lemma moves_bind {A B} (m : Run Effect (McpClient.t T) A)
    (k : A → Run Effect (McpClient.t T) B) :
  moves m → (∀ a, moves (k a)) → moves (bind m k).
Proof.
  intros Hm Hk c Hwf. unfold bind.
  pose proof (Hm c Hwf) as H1. pose proof (moves_wf m c Hm Hwf) as Hwf1.
  destruct (m c) as [[a c1] o1]. cbn in H1, Hwf1.
  pose proof (Hk a c1 Hwf1) as H2.
  destruct (k a c1) as [[b c2] o2]. cbn in *.
  by eapply core_steps_trans.
Qed.

Lemma moves_log level message data now : moves (log level message data now).
Proof. intros c _. rewrite log_eq. apply steps_refl. Qed.

Lemma moves_setStatus v now : moves (setStatus v now).
Proof. intros c _. rewrite setStatus_eq. apply steps_refl. Qed.

Lemma moves_handleError e now : moves (handleError e now).
Proof. intros c _. rewrite handleError_eq. apply steps_refl. Qed.

(** A message is [null], the response to a pending request, or
    unmatched. *)
Lemma handleMessage_cases m c :
  m = NotObject NNull
  ∨ (∃ id pr, m_id m = Some id ∧ id ≠ EmptyString
              ∧ JsMap.get id (pending c) = Some pr)
  ∨ unmatched m c.
Proof.
  destruct m as [[id|] ? ? ? ?|v].
  - destruct (decide (id = EmptyString)) as [->|Hne].
    { right; right. split; [done|]. by left. }
    destruct (JsMap.get id (pending c)) as [pr|] eqn:Hget.
    + right; left. by exists id, pr.
    + right; right. split; [done|]. cbn. by right.
  - right; right. by split.
  - destruct v; [by left|..]; right; right; by split.
Qed.

(** What [handleMessage] throws is what [throws] tells the transport. *)
Lemma handleMessage_throws m now c :
  (handleMessage m now c).1.1 = throws (EvMessage m) ClientHook.
Proof.
  destruct (handleMessage_cases m c)
    as [->|[(id & pr & Hid & Hne & Hget)|Hun]].
  - reflexivity.
  - rewrite (handleMessage_matched m now c id pr) by done.
    by destruct m as [|[]].
  - rewrite handleMessage_unmatched by done.
    destruct Hun as [Hnull _]. by destruct m as [|[]].
Qed.

Lemma moves_handleMessage m now : moves (handleMessage m now).
Proof.
  intros c Hwf.
  destruct (handleMessage_cases m c)
    as [->|[(id & pr & Hid & Hne & Hget)|Hun]].
  - rewrite handleMessage_null. apply steps_refl.
  - rewrite (handleMessage_matched m now c id pr) by done.
    apply core_steps_one. unfold core. cbn.
    apply step_finish; [by apply get_Some_elem_of|].
    unfold response_outcome. by destruct (m_error m).
  - rewrite handleMessage_unmatched by done. apply steps_refl.
Qed.

Lemma moves_timeoutFired h : moves (timeoutFired h).
Proof.
  intros c Hwf. destruct (timers c !! h) as [[cb|]|] eqn:Hh.
  - rewrite (timeoutFired_due h cb) by done.
    apply core_steps_one, step_fire. exact Hh.
  - rewrite timeoutFired_not_due; [apply steps_refl|]. congruence.
  - rewrite timeoutFired_not_due; [apply steps_refl|]. congruence.
Qed.

Lemma moves_clientHook ev now : moves (clientHook ev now).
Proof.
  destruct ev; cbn.
  - apply moves_bind; [apply moves_handleMessage|intros _; apply moves_ret].
  - apply moves_setStatus.
  - apply moves_handleError.
  - intros c _. apply steps_refl.
Qed.

Lemma moves_deliver e now : moves (deliver e now).
Proof.
  destruct e as [ev to| | | | |]; cbn; try apply moves_ret.
  destruct (decide (ClientHook ∈ to)); [apply moves_clientHook|apply moves_ret].
Qed.

Lemma moves_dispatch out now : moves (dispatch out now).
Proof.
  induction out as [|e rest IH]; cbn; [apply moves_ret|].
  apply moves_bind; [apply moves_tell|intros _].
  apply moves_bind; [apply moves_deliver|intros _]. exact IH.
Qed.

Lemma moves_callTransport {A} (op : Run TransportEffect T A) now : moves (callTransport op now).
Proof.
  intros c Hwf. unfold callTransport.
  destruct (op (transport c)) as [[a tr] out].
  pose proof (moves_dispatch out now (set_transport tr c) Hwf) as Hd.
  destruct (dispatch out now (set_transport tr c)) as [[[] c'] o].
  exact Hd.
Qed.

Lemma generateId_not_empty now random36 :
  generateId now random36 ≠ EmptyString.
Proof.
  unfold generateId. destruct (toString36 now); discriminate.
Qed.

Lemma moves_request method params now random36 :
  moves (request method params now random36).
Proof.
  intros c Hwf. rewrite request_eq. cbn [fst snd].
  set (c1 := set_pending _ _).
  assert (Hreg : core_steps (core c) (core c1)).
  { apply core_steps_one. unfold core, c1. cbn.
    apply step_register, generateId_not_empty. }
  eapply core_steps_trans; [exact Hreg|].
  apply moves_callTransport. apply (consistent_steps _ _ Hreg). exact Hwf.
Qed.
Lemma rejectEach_cons error entry rest c :
  rejectEach error (entry :: rest) c
  = (tt, (rejectEach error rest (rejectOne error entry c).1.2).1.2,
     [ClearTimeout (timeoutId entry.2);
      Reject (promise entry.2) error]
     ++ (rejectEach error rest (rejectOne error entry c).1.2).2).
Proof.
  cbn [rejectEach]. unfold bind at 1. rewrite rejectOne_eq. cbn [fst snd].
  by destruct (rejectEach error rest _) as [[[] c2] o2].
Qed.

Lemma rejectEach_spec error entries c :
  wf c → pending c = entries →
  let r := rejectEach error entries c in
  core_steps (core c) (core r.1.2)
  ∧ pending r.1.2 = []
  ∧ (∀ id pr, (id, pr) ∈ entries →
              promises r.1.2 !! promise pr = Some (Rejected error)
              ∧ timers r.1.2 !! timeoutId pr = Some None)
  ∧ r.2 = rejections error entries
  ∧ transport r.1.2 = transport c
  ∧ status r.1.2 = status c
  ∧ unsubs r.1.2 = unsubs c.
Proof.
  revert c. induction entries as [|[id pr] rest IH]; intros c Hwf Hpd.
  - cbn. split; [apply steps_refl|]. split; [done|].
    split; [intros ? ? Hin; by apply elem_of_nil in Hin|done].
  - rewrite rejectEach_cons. rewrite rejectOne_eq. cbn [fst snd].
    set (c1 := set_pending _ _).
    assert (Hin : (id, pr) ∈ pending c)
      by (rewrite Hpd; apply list_elem_of_here).
    assert (Hstep : core_step (core c) (core c1)).
    { unfold core, c1. cbn. by apply step_finish. }
    assert (Hwf1 : wf c1).
    { unfold wf. eapply (consistent_step _ _ _ _ _ _ Hstep). exact Hwf. }
    assert (Hpd1 : pending c1 = rest).
    { unfold c1. cbn [pending set_pending fst]. rewrite Hpd.
      apply (delete_head rest id pr).
      destruct Hwf as (_ & Hnd & _). rewrite Hpd in Hnd. exact Hnd. }
    destruct (IH c1 Hwf1 Hpd1) as (Hsteps & Hempty & Hall & Hout & Htr & Hst & Hun).
    destruct (rejectEach error rest c1) as [[[] c2] o2].
    cbn [fst snd] in *.
    split; [by eapply steps_next|]. split; [done|].
    split; [|split; [by rewrite Hout|by rewrite Htr, Hst, Hun]].
    intros id' pr' Hin'. apply elem_of_cons in Hin' as [[= -> ->]|Hin'];
      [|by apply (Hall id' pr')].
    destruct Hwf as (_ & _ & Htm & _ & Hpending).
    destruct (Hpending _ _ Hin) as (_ & Heq & cb & Hcb & _).
    destruct (Htm _ _ Hcb) as [_ Hps]. rewrite <- Heq in Hps.
    split.
    + apply (settled_steps _ _ _ _ Hsteps); [|done]. unfold core, c1. cbn.
      by apply lookup_settleIn_eq.
    + apply (cleared_steps _ _ _ Hsteps). unfold core, c1. cbn.
      apply list_lookup_insert_eq. by eapply lookup_lt_Some.
Qed.

Lemma moves_rejectAllPending error : moves (rejectAllPending error).
Proof.
  intros c Hwf. unfold rejectAllPending, bind, get.
  pose proof (rejectEach_spec error (pending c) c Hwf eq_refl) as (Hs & _).
  destruct (rejectEach error (pending c) c) as [[[] c'] o]. exact Hs.
Qed.

Lemma moves_connect now : moves (connect now).
Proof.
  apply moves_bind; [apply moves_setStatus|intros _].
  apply moves_callTransport.
Qed.

Lemma moves_disconnect now : moves (disconnect now).
Proof. apply moves_callTransport. Qed.

Lemma moves_disconnectResumed awaited now :
  moves (disconnectResumed awaited now).
Proof.
  destruct awaited as [e|]; [apply moves_ret|].
  apply moves_bind; [apply moves_setStatus|intros _].
  apply moves_bind; [apply moves_rejectAllPending|intros _].
  apply moves_ret.
Qed.

Lemma moves_runAll fns now : moves (runAll fns now).
Proof.
  induction fns as [|fn rest IH]; cbn; [apply moves_ret|].
  apply moves_bind; [apply moves_callTransport|by intros _].
Qed.

Lemma moves_destroy now : moves (destroy now).
Proof.
  apply moves_bind; [apply moves_get|intros c0].
  apply moves_bind; [apply moves_runAll|intros _].
  apply moves_bind; [by apply moves_modify|intros _].
  apply moves_rejectAllPending.
Qed.

Lemma moves_react i : moves (react i).
Proof.
  destruct i as [now|now|awaited now|now r|now r|name args now r|now|ev k|ev k|h|i now];
    cbn [react].
  - apply moves_bind; [apply moves_connect|intros _; apply moves_ret].
  - apply moves_bind; [apply moves_disconnect|intros _; apply moves_ret].
  - apply moves_bind; [apply moves_disconnectResumed|intros _; apply moves_ret].
  - apply moves_bind; [apply moves_request|intros _; apply moves_ret].
  - apply moves_bind; [apply moves_request|intros _; apply moves_ret].
  - apply moves_bind; [apply moves_request|intros _; apply moves_ret].
  - apply moves_destroy.
  - destruct ev; (apply moves_bind; [apply moves_get|intros c0];
                  by apply moves_modify).
  - destruct ev; (apply moves_bind; [apply moves_get|intros c0];
                  by apply moves_modify).
  - apply moves_timeoutFired.
  - apply moves_callTransport.
Qed.

Lemma wf_new tr options now : wf (new tr options now).
Proof.
  unfold new, construct, exec. cbn [fst].
  match goal with
  | |- wf (?m ?c).1.2 => apply (moves_wf m c)
  end.
  - apply moves_bind; [apply moves_callTransport|intros u1].
    apply moves_bind; [apply moves_callTransport|intros u2].
    apply moves_bind; [apply moves_callTransport|intros u3].
    apply moves_bind; [by apply moves_modify|intros _].
    destruct tr_onLog as [onLog|]; [|apply moves_ret].
    apply moves_bind; [apply moves_callTransport|intros u4].
    apply moves_bind; [apply moves_get|intros c0].
    by apply moves_modify.
  - split; [done|]. split; [apply NoDup_nil_2|]. split; [|split].
    + intros h cb Hl. cbn in Hl. by rewrite lookup_nil in Hl.
    + intros h Hl. cbn in Hl. by rewrite lookup_nil in Hl.
    + intros id pr Hin. cbn in Hin. by apply elem_of_nil in Hin.
Qed.

(** Every state the client can be in is consistent. *)
Lemma wf_reachable c : reachable c → wf c.
Proof.
  induction 1 as [tr options now|c i _ IH]; [apply wf_new|].
  by apply (moves_wf (react i) c (moves_react i)).
Qed.

Lemma reachable_run inputs c : reachable c → reachable (run inputs c).1.
Proof.
  revert c. induction inputs as [|i rest IH]; intros c Hc; [exact Hc|].
  cbn [run]. specialize (IH _ (reachable_step c i Hc)).
  destruct (exec (react i) c) as [c1 o1]. cbn [fst] in IH.
  destruct (run rest c1) as [c2 o2]. exact IH.
Qed.

(** Once settled, a promise keeps its outcome whatever happens. *)
Lemma settled_forever inputs c p o :
  wf c → promises c !! p = Some o → o ≠ Unsettled →
  promises (run inputs c).1 !! p = Some o.
Proof.
  revert c. induction inputs as [|i rest IH]; intros c Hwf Hp Ho; [done|].
  cbn [run].
  pose proof (moves_react i c Hwf) as Hsteps.
  pose proof (moves_wf (react i) c (moves_react i) Hwf) as Hwf1.
  pose proof (settled_steps _ _ p o Hsteps Hp Ho) as Hp1.
  unfold exec. destruct (react i c) as [[[] c1] o1]. cbn in *.
  specialize (IH c1 Hwf1 Hp1 Ho).
  destruct (run rest c1) as [c2 o2]. exact IH.
Qed.
Lemma run_steps inputs c :
  wf c → core_steps (core c) (core (run inputs c).1).
Proof.
  revert c. induction inputs as [|i rest IH]; intros c Hwf;
    [apply steps_refl|].
  cbn [run].
  pose proof (moves_react i c Hwf) as Hsteps.
  pose proof (moves_wf (react i) c (moves_react i) Hwf) as Hwf1.
  unfold exec. destruct (react i c) as [[[] c1] o1]. cbn in *.
  specialize (IH c1 Hwf1). destruct (run rest c1) as [c2 o2].
  by eapply core_steps_trans.
Qed.

Lemma exec_then_ret {A} (m : Run Effect (McpClient.t T) A) c :
  (exec (m ;;; ret tt) c).1 = (m c).1.2.
Proof. unfold exec, bind. by destruct (m c) as [[a c1] o1]. Qed.

Lemma dispatch_cons e rest now c :
  dispatch (e :: rest) now c
  = (tt, (dispatch rest now (deliver e now c).1.2).1.2,
     FromTransport e
     :: (deliver e now c).2 ++ (dispatch rest now (deliver e now c).1.2).2).
Proof.
  cbn [dispatch]. unfold bind, tell.
  destruct (deliver e now c) as [[[] c1] o1]. cbn [fst snd].
  destruct (dispatch rest now c1) as [[[] c2] o2]. reflexivity.
Qed.

(** ** A timeout stays due until its request is settled *)
Section Spares.
Variables (X : string) (p : nat).
Local Abbreviation spares := (@McpClient.spares T X p _).

Lemma spares_still {A} (m : Run Effect (McpClient.t T) A) :
  (∀ c, timers (m c).1.2 = timers c) → spares m.
Proof. intros Hm c cb _ Hdue _ _. by rewrite Hm. Qed.

Lemma spares_bind {A B} (m : Run Effect (McpClient.t T) A)
    (k : A → Run Effect (McpClient.t T) B) :
  moves m → spares m → (∀ a, spares (k a)) → spares (bind m k).
Proof.
  intros Hmv Hm Hk c cb Hwf Hdue Hid Hall. unfold bind in *.
  pose proof (moves_wf m c Hmv Hwf) as Hwf1.
  specialize (Hm c cb Hwf Hdue Hid).
  destruct (m c) as [[a c1] o1]. cbn [fst snd] in *.
  specialize (Hk a c1 cb Hwf1).
  destruct (k a c1) as [[b c2] o2]. cbn [fst snd] in *.
  apply Forall_app in Hall as [Ho1 Ho2]. by apply Hk; [apply Hm|..].
Qed.

(** A message with another id clears another timeout. *)
Lemma spares_handleMessage m now :
  m_id m ≠ Some X → spares (handleMessage m now).
Proof.
  intros Hid c cb Hwf Hdue Hcb _.
  destruct (handleMessage_cases m c)
    as [->|[(id & pr & Hm & Hne & Hget)|Hun]].
  - by rewrite handleMessage_null.
  - rewrite (handleMessage_matched m now c id pr) by done.
    cbn [fst snd timers set_promises set_pending set_timers].
    rewrite list_lookup_insert_ne; [exact Hdue|].
    intros E. destruct Hwf as (_ & _ & _ & _ & Hpd).
    destruct (Hpd _ _ (get_Some_elem_of _ _ _ Hget))
      as (_ & _ & cb' & Hcb' & Hid').
    rewrite E, Hdue in Hcb'. injection Hcb' as <-. congruence.
  - by rewrite handleMessage_unmatched.
Qed.

Lemma spares_deliver e now :
  ¬ answers X (FromTransport e) → spares (deliver e now).
Proof.
  intros Hno. destruct e as [ev to| | | | |]; cbn [deliver];
    try (by apply spares_still).
  destruct (decide (ClientHook ∈ to)) as [Hin|]; [|by apply spares_still].
  destruct ev as [m| | |]; cbn [clientHook]; try (by apply spares_still).
  apply spares_bind; [apply moves_handleMessage| |intros _; by apply spares_still].
  apply spares_handleMessage. intros Hid. apply Hno. by split.
Qed.

Lemma spares_dispatch out now : spares (dispatch out now).
Proof.
  induction out as [|e rest IH]; [by apply spares_still|].
  intros c cb Hwf Hdue Hid. rewrite dispatch_cons. cbn [fst snd].
  intros Hall. apply Forall_cons in Hall as [He Hall].
  apply Forall_app in Hall as [Ho1 Ho2].
  apply IH; [apply (moves_wf _ c (moves_deliver e now) Hwf)| |done|done].
  by apply (spares_deliver e now He c cb).
Qed.

Lemma spares_callTransport {A} (op : Run TransportEffect T A) now :
  spares (callTransport op now).
Proof.
  intros c cb Hwf Hdue Hid. unfold callTransport.
  destruct (op (transport c)) as [[a tr] out].
  pose proof (spares_dispatch out now (set_transport tr c) cb Hwf Hdue Hid)
    as Hd.
  by destruct (dispatch out now (set_transport tr c)) as [[[] c'] o].
Qed.

Lemma spares_request method params now random36 :
  spares (request method params now random36).
Proof.
  intros c cb Hwf Hdue Hid. rewrite request_eq. cbn [fst snd].
  set (c1 := set_pending _ _). intros Hall.
  apply Forall_app in Hall as [_ Hall].
  apply spares_callTransport; [| |done|done].
  - unfold wf, c1. cbn. apply consistent_register; [exact Hwf|].
    apply generateId_not_empty.
  - unfold c1. cbn. by apply lookup_app_l_Some.
Qed.

Lemma spares_timeoutFired h : h ≠ p → spares (timeoutFired h).
Proof.
  intros Hne c cb _ Hdue _ _.
  destruct (timers c !! h) as [[cb'|]|] eqn:Hh.
  - rewrite (timeoutFired_due h cb') by done. cbn.
    by rewrite list_lookup_insert_ne.
  - rewrite timeoutFired_not_due; [done|congruence].
  - rewrite timeoutFired_not_due; [done|congruence].
Qed.

(** Every input but [destroy], the rest of a [disconnect] and the
    firing of the timeout itself spares the timeout. *)
Lemma spares_react i :
  (∀ now, i ≠ CallDestroy now) →
  (∀ now, i ≠ DisconnectResumed None now) →
  i ≠ TimeoutFired p →
  spares (react i).
Proof.
  intros Hdestroy Hresumed Hfired.
  destruct i as [now|now|awaited now|now r|now r|name args now r|now|ev k|ev k|h|i now];
    cbn [react].
  - apply spares_bind; [apply moves_connect| |intros _; by apply spares_still].
    apply spares_bind; [apply moves_setStatus|by apply spares_still|intros _].
    apply spares_callTransport.
  - apply spares_bind; [apply moves_disconnect| |intros _; by apply spares_still].
    apply spares_callTransport.
  - destruct awaited as [e|]; [by apply spares_still|].
    by destruct (Hresumed now).
  - apply spares_bind; [apply moves_request| |intros _; by apply spares_still].
    apply spares_request.
  - apply spares_bind; [apply moves_request| |intros _; by apply spares_still].
    apply spares_request.
  - apply spares_bind; [apply moves_request| |intros _; by apply spares_still].
    apply spares_request.
  - by destruct (Hdestroy now).
  - destruct ev; by apply spares_still.
  - destruct ev; by apply spares_still.
  - apply spares_timeoutFired. congruence.
  - apply spares_callTransport.
Qed.

Lemma spares_run inputs c cb :
  wf c → timers c !! p = Some (Some cb) → cb_id cb = X →
  Forall (λ e, ¬ answers X e) (run inputs c).2 →
  (∀ now, CallDestroy now ∉ inputs) →
  (∀ now, DisconnectResumed None now ∉ inputs) →
  (TimeoutFired p ∉ inputs) →
  timers (run inputs c).1 !! p = Some (Some cb).
Proof.
  revert c. induction inputs as [|i rest IH];
    intros c Hwf Hdue Hid Hall Hdestroy Hresumed Hfired; [exact Hdue|].
  cbn [run] in *.
  pose proof (moves_wf (react i) c (moves_react i) Hwf) as Hwf1.
  assert (Hi : spares (react i)).
  { apply spares_react.
    - intros now' ->. apply (Hdestroy now'), list_elem_of_here.
    - intros now' ->. apply (Hresumed now'), list_elem_of_here.
    - intros ->. apply Hfired, list_elem_of_here. }
  specialize (Hi c cb Hwf Hdue Hid).
  unfold exec in *. destruct (react i c) as [[[] c1] o1]. cbn [fst snd] in *.
  specialize (IH c1). destruct (run rest c1) as [c2 o2]. cbn [fst snd] in *.
  apply Forall_app in Hall as [Ho1 Ho2].
  apply IH; try done.
  - by apply Hi.
  - intros now' Hin. apply (Hdestroy now'). by apply list_elem_of_further.
  - intros now' Hin. apply (Hresumed now'). by apply list_elem_of_further.
  - intros Hin. apply Hfired. by apply list_elem_of_further.
Qed.
End Spares.

(** What [handleMessage] does with the response to a pending request,
    in a consistent state. *)
Lemma response_settles c (m : McpMessage) now (X : string)
    (pr : PendingRequest) :
  wf c →
  JsMap.get X (pending c) = Some pr →
  m_id m = Some X →
  let r := handleMessage m now c in
  promises c !! promise pr = Some Unsettled
  ∧ promises r.1.2 !! promise pr = Some (response_outcome m)
  ∧ r.2 = [Emit (EvMessage m) (Emitter.emit (messageEmitter c));
           ClearTimeout (timeoutId pr);
           response_effect (promise pr) m]
  ∧ JsMap.get X (pending r.1.2) = None
  ∧ timers r.1.2 !! timeoutId pr = Some None.
Proof.
  intros Hwf Hget Hid r.
  destruct Hwf as (Hlen & Hnd & Htm & Hno & Hpd).
  destruct (Hpd _ _ (get_Some_elem_of _ _ _ Hget))
    as (Hne & Heq & cb & Hcb & Hcbid).
  destruct (Htm _ _ Hcb) as [_ Hps]. rewrite <- Heq in Hps.
  subst r. rewrite (handleMessage_matched m now c X pr Hid Hne Hget).
  cbn [fst snd promises pending timers set_promises set_pending set_timers].
  split; [exact Hps|]. split; [by apply lookup_settleIn_eq|].
  split; [done|]. split; [apply get_delete|].
  apply list_lookup_insert_eq. by eapply lookup_lt_Some.
Qed.


(** C2, as the code has it. A request for method [M] sets a timeout
    of [requestTimeoutMs] milliseconds. Whatever happens next, as long
    as no message with the id of the request is delivered to the
    client, [destroy] is not called, no [disconnect] goes on after its
    [await] and the timeout has not fired yet, the timeout is still due
    and the request unsettled. When the host then runs the timeout, the
    promise of the request is rejected with the error
    ["Request timed out: M"] and the id leaves the pending map; so is
    the promise of the operation when [send] has fulfilled, whereas it
    is rejected with the error of [send] when [send] has rejected. A
    message with that id delivered next settles nothing: the client is
    as before, and the message is only broadcast to the message
    subscribers and logged at info level. *)
Theorem request_times_out c (method : string) (params : option JsonValue)
    now (random36 : string) :
  reachable c →
  let X := generateId now random36 in
  let r := request method params now random36 c in
  let p := r.1.1 in
  let timed_out := Error ("Request timed out: " +:+ method) in
  SetTimeout p (requestTimeoutMs c) ∈ r.2
  ∧ ∀ inputs : list Input,
      let later := run inputs r.1.2 in
      Forall (λ e, ¬ answers X e) (r.2 ++ later.2) →
      (∀ now', CallDestroy now' ∉ inputs) →
      (∀ now', DisconnectResumed None now' ∉ inputs) →
      (TimeoutFired p ∉ inputs) →
      let f := timeoutFired p later.1 in
      timers later.1 !! p = Some (Some (mkCallback X method p))
      ∧ promises later.1 !! p = Some Unsettled
      ∧ promises f.1.2 !! p = Some (Rejected timed_out)
      ∧ f.2 = [Reject p timed_out]
      ∧ (∀ op, outcome op SendFulfilled (promises later.1 !! p) = Unsettled
               ∧ outcome op SendFulfilled (promises f.1.2 !! p)
                 = Rejected timed_out)
      ∧ (∀ op e, outcome op (SendRejected e) (promises f.1.2 !! p)
                 = Rejected e)
      ∧ JsMap.get X (pending f.1.2) = None
      ∧ ∀ (m : McpMessage) (now' : Z),
          m_id m = Some X →
          handleMessage m now' f.1.2
          = (None, f.1.2,
             [Emit (EvMessage m) (Emitter.emit (messageEmitter f.1.2));
              Emit (EvLog (mkLog LevelInfo "message" now'
                                 (Some (message_to_json m))))
                   (Emitter.emit (logEmitter f.1.2));
              Logger (mkLog LevelInfo "message" now'
                            (Some (message_to_json m)))]).
Proof.
  intros Hreach X r p timed_out.
  pose proof (wf_reachable c Hreach) as Hwf.
  pose proof (moves_wf _ c (moves_request method params now random36) Hwf)
    as Hwf1.
  assert (Hp : length (promises c) = length (timers c))
    by (by destruct Hwf).
  assert (Hslot : Forall (λ e, ¬ answers X e) r.2 →
                  timers r.1.2 !! p
                  = Some (Some (mkCallback X method p))).
  { subst r p. rewrite request_eq. cbn [fst snd].
    set (c1 := set_pending _ _). intros Hall.
    apply Forall_app in Hall as [_ Hall].
    apply (spares_callTransport X); [| |done|done].
    - unfold wf, c1. cbn. apply consistent_register; [exact Hwf|].
      apply generateId_not_empty.
    - unfold c1. cbn. rewrite Hp, lookup_app_r by lia.
      by rewrite Nat.sub_diag. }
  split.
  { subst r p. rewrite request_eq. cbn [fst snd]. rewrite Hp.
    apply list_elem_of_here. }
  intros inputs later Hall Hdestroy Hresumed Hfired f.
  apply Forall_app in Hall as [Hr Hlater].
  assert (Hdue : timers later.1 !! p
                 = Some (Some (mkCallback X method p))).
  { apply (spares_run X); try done. by apply Hslot. }
  assert (Hwf2 : wf later.1).
  { apply (consistent_steps _ _ (run_steps inputs r.1.2 Hwf1)).
    exact Hwf1. }
  destruct Hwf2 as (_ & _ & Htm & _ & _).
  destruct (Htm _ _ Hdue) as [_ Hps]. cbn [cb_reject] in Hps.
  subst f. rewrite (timeoutFired_due _ _ _ Hdue).
  cbn [fst snd promises pending timers set_promises set_pending set_timers
       cb_reject cb_id cb_method messageEmitter logEmitter].
  fold timed_out.
  split; [done|]. split; [done|].
  split; [by apply lookup_settleIn_eq|]. split; [done|].
  split.
  { intros op. rewrite Hps, lookup_settleIn_eq by done. by split. }
  split; [done|]. split; [apply get_delete|].
  intros m now' Hid. rewrite handleMessage_unmatched; [reflexivity|].
  apply (unmatched_with_id _ _ X Hid). right. apply get_delete.
Qed.

(** C4. After [callTool], whatever else happens, as long as the entry
    of the request is in the pending map a response with its id that
    has a result and no top-level error resolves the promise of
    [callTool] with that result, unchanged, whatever the result holds;
    nothing is rejected. A response with a top-level error field is
    what rejects it. *)
Theorem callTool_resolves_with_result c (name : string)
    (args : option JsonValue) now (random36 : string) :
  reachable c →
  let X := generateId now random36 in
  let r := callTool name args now random36 c in
  let p := r.1.1 in
  ∀ (inputs : list Input) (pr : PendingRequest) (m : McpMessage) (now' : Z),
    let c2 := (run inputs r.1.2).1 in
    JsMap.get X (pending c2) = Some pr →
    promise pr = p →
    m_id m = Some X →
    let r' := handleMessage m now' c2 in
    (∀ v, m_result m = Some v → m_error m = None →
          promises r'.1.2 !! p = Some (Resolved v)
          ∧ outcome CallTool SendFulfilled (promises r'.1.2 !! p)
            = Resolved v
          ∧ rejected r'.2 = [])
    ∧ (∀ e, m_error m = Some e →
            promises r'.1.2 !! p = Some (Rejected (Error (e_message e)))).
Proof.
  intros Hreach X r p inputs pr m now' c2 Hget Hpr Hid r'.
  assert (Hreach2 : reachable c2).
  { apply reachable_run. subst r. unfold callTool.
    rewrite <- (exec_then_ret (request _ _ now random36) c).
    apply (reachable_step c (CallCallTool name args now random36) Hreach). }
  destruct (response_settles c2 m now' X pr (wf_reachable c2 Hreach2)
              Hget Hid) as (Hps & Hset & Hout & _).
  fold r' in Hset, Hout. rewrite Hpr in Hset, Hout.
  split.
  - intros v Hv He. rewrite Hset, Hout.
    unfold response_outcome, response_effect. rewrite He, Hv.
    split; [done|]. split; done.
  - intros e He. rewrite Hset. unfold response_outcome. by rewrite He.
Qed.
(** ** What the client leaves alone *)

Section Respects.
Context (R : McpClient.t T → McpClient.t T → Prop) `{!PreOrder R}
        (P : Effect → Prop).

Lemma respects_ret {A} (a : A) :
  respects R P (ret a : Run Effect (McpClient.t T) A).
Proof. intros c. split; [reflexivity|constructor]. Qed.

Lemma respects_get : respects R P (get : Run Effect (McpClient.t T) _).
Proof. intros c. split; [reflexivity|constructor]. Qed.

Lemma respects_tell o :
  Forall P o → respects R P (tell o : Run Effect (McpClient.t T) unit).
Proof. intros Ho c. split; [reflexivity|exact Ho]. Qed.

Lemma respects_modify (f : McpClient.t T → McpClient.t T) :
  (∀ c, R c (f c)) → respects R P (modify f).
Proof. intros Hf c. split; [apply Hf|constructor]. Qed.

Lemma respects_bind {A B} (m : Run Effect (McpClient.t T) A)
    (k : A → Run Effect (McpClient.t T) B) :
  respects R P m → (∀ a, respects R P (k a)) → respects R P (bind m k).
Proof.
  intros Hm Hk c. unfold bind. destruct (Hm c) as [HR1 HP1].
  destruct (m c) as [[a c1] o1]. destruct (Hk a c1) as [HR2 HP2].
  destruct (k a c1) as [[b c2] o2]. cbn in *.
  split; [by etransitivity|by apply Forall_app].
Qed.
End Respects.

Global Instance untouched_preorder : PreOrder (@untouched T).
Proof.
  split.
  - by intros c.
  - intros c1 c2 c3 (? & ? & ?) (? & ? & ?). unfold untouched.
    repeat split; congruence.
Qed.

Global Instance steady_state_preorder : PreOrder (@steady_state T).
Proof.
  split.
  - by intros c.
  - intros c1 c2 c3 (? & ?) (? & ?). unfold steady_state.
    split; congruence.
Qed.

(** Straight-line code: one rule per construct of the monad, and a
    case analysis wherever the code branches. *)
Ltac respects_step :=
  first
    [ apply respects_ret; solve [apply _]
    | apply respects_get; solve [apply _]
    | apply respects_tell; [solve [apply _] ..|repeat constructor]
    | apply respects_modify;
      [solve [apply _] ..|intros ?; hnf; by repeat split]
    | apply respects_bind; [solve [apply _] ..| |intros ?]
    | match goal with
      | |- respects _ _ (match ?x with _ => _ end) => destruct x
      | |- respects _ _ (if ?b then _ else _) => destruct b
      end ].

Ltac respects_tac := repeat respects_step.

Lemma quiet_log level message data now : quiet (log level message data now).
Proof. unfold quiet, log. respects_tac. Qed.

Lemma quiet_handleError e now : quiet (handleError e now).
Proof. unfold quiet, handleError, log. respects_tac. Qed.

Lemma quiet_handleMessage m now : quiet (handleMessage m now).
Proof.
  unfold quiet, handleMessage, clearTimeout, reject, resolve, settle, log.
  respects_tac.
Qed.

Lemma quiet_hookMessage m now : quiet (handleMessage m now ;;; ret tt).
Proof.
  apply respects_bind; [solve [apply _] ..|apply quiet_handleMessage|intros _].
  apply respects_ret; apply _.
Qed.

Lemma quiet_timeoutFired h : quiet (timeoutFired h).
Proof. unfold quiet, timeoutFired, reject, settle. respects_tac. Qed.

Lemma quiet_rejectAllPending error : quiet (rejectAllPending error).
Proof.
  unfold quiet, rejectAllPending.
  apply respects_bind; [solve [apply _] ..|respects_step|intros c0].
  induction (pending c0) as [|entry rest IH]; cbn [rejectEach].
  - respects_tac.
  - apply respects_bind; [solve [apply _] ..| |intros _; exact IH].
    unfold rejectOne, clearTimeout, reject, settle. respects_tac.
Qed.

Lemma quiet_steady {A} (m : Run Effect (McpClient.t T) A) :
  quiet m → steady m.
Proof.
  intros Hq c. destruct (Hq c) as [(_ & ? & ?) _].
  split; [by split|]. apply Forall_true. done.
Qed.

Lemma steady_setStatus v now : steady (setStatus v now).
Proof. unfold steady, setStatus, log. respects_tac. Qed.

Lemma steady_clientHook ev now : steady (clientHook ev now).
Proof.
  destruct ev; cbn [clientHook].
  - apply quiet_steady, quiet_hookMessage.
  - apply steady_setStatus.
  - apply quiet_steady, quiet_handleError.
  - unfold steady. respects_tac.
Qed.

Lemma steady_dispatch out now : steady (dispatch out now).
Proof.
  unfold steady.
  induction out as [|e rest IH]; cbn [dispatch]; [respects_tac|].
  apply respects_bind; [solve [apply _] ..|respects_tac|intros _].
  apply respects_bind; [solve [apply _] ..| |intros _; exact IH].
  destruct e as [ev to| | | | |]; cbn; try respects_tac.
  apply steady_clientHook.
Qed.

(** Calling the transport changes the client as its callbacks do and
    leaves the transport as the call left it. *)
Lemma callTransport_transport {A} (op : Run TransportEffect T A) now c :
  transport (callTransport op now c).1.2 = (op (transport c)).1.2
  ∧ unsubs (callTransport op now c).1.2 = unsubs c
  ∧ (callTransport op now c).1.1 = (op (transport c)).1.1.
Proof.
  unfold callTransport. destruct (op (transport c)) as [[a tr] out].
  destruct (steady_dispatch out now (set_transport tr c)) as [[Htr Hun] _].
  destruct (dispatch out now (set_transport tr c)) as [[[] c'] o].
  cbn in *. by rewrite Htr, Hun.
Qed.
(** ** The statuses the client emits *)

Lemma quiet_no_status (out : list Effect) :
  Forall quiet_effect out →
  statusesEmitted out = [] ∧ statusesReported out = [].
Proof.
  induction 1 as [|e out He _ [IH1 IH2]]; [done|].
  unfold statusesEmitted, statusesReported in *. cbn.
  rewrite IH1, IH2. by destruct e as [|[] ?| | | | |].
Qed.

Lemma quiet_mirroring {A} (m : Run Effect (McpClient.t T) A) :
  quiet m → mirroring m.
Proof.
  intros Hq c. destruct (Hq c) as [(Hst & _) Hout].
  destruct (quiet_no_status _ Hout) as [-> ->]. by rewrite Hst.
Qed.

Lemma statusesEmitted_app o1 o2 :
  statusesEmitted (o1 ++ o2) = statusesEmitted o1 ++ statusesEmitted o2.
Proof. apply omap_app. Qed.

Lemma statusesReported_app o1 o2 :
  statusesReported (o1 ++ o2)
  = statusesReported o1 ++ statusesReported o2.
Proof. apply omap_app. Qed.

Lemma default_last_app {X} (d : X) (l1 l2 : list X) :
  default d (last (l1 ++ l2)) = default (default d (last l1)) (last l2).
Proof. rewrite last_app. by destruct (last l2). Qed.

Lemma mirroring_bind {A B} (m : Run Effect (McpClient.t T) A)
    (k : A → Run Effect (McpClient.t T) B) :
  mirroring m → (∀ a, mirroring (k a)) → mirroring (bind m k).
Proof.
  intros Hm Hk c. unfold bind. destruct (Hm c) as [He1 Hs1].
  destruct (m c) as [[a c1] o1]. destruct (Hk a c1) as [He2 Hs2].
  destruct (k a c1) as [[b c2] o2]. cbn [fst snd] in *.
  rewrite statusesEmitted_app, statusesReported_app, He1, He2.
  split; [done|]. rewrite <- He1, <- He2, default_last_app.
  by rewrite <- Hs1.
Qed.

(** One effect of the transport, with the answer of the client. *)
Lemma mirroring_deliver e now :
  mirroring (tell [FromTransport e] ;;; deliver e now).
Proof.
  destruct e as [ev to| | | | |]; [|by intros c ..].
  cbn [deliver]. destruct (decide (ClientHook ∈ to)) as [Hin|Hnot].
  - destruct ev as [m|s|err|l]; cbn [clientHook].
    + intros c. set (hm := handleMessage m now ;;; ret tt).
      unfold bind, tell.
      destruct (quiet_hookMessage m now c) as [(Hst & _) Hout].
      destruct (quiet_no_status _ Hout) as [He Hr]. fold hm in Hst, He, Hr.
      destruct (hm c) as [[[] c1] o1]. cbn in *.
      unfold statusesEmitted, statusesReported in *. cbn.
      by rewrite He, Hr, Hst.
    + intros c. unfold bind, tell. rewrite setStatus_eq.
      unfold statusesEmitted, statusesReported. cbn.
      by rewrite decide_True.
    + intros c. unfold bind, tell. rewrite handleError_eq. done.
    + intros c. done.
  - intros c. unfold bind, tell, ret.
    unfold statusesEmitted, statusesReported. cbn.
    destruct ev; try done. by rewrite decide_False.
Qed.

Lemma mirroring_dispatch out now : mirroring (dispatch out now).
Proof.
  induction out as [|e rest IH]; cbn [dispatch].
  - by intros c.
  - intros c.
    pose proof (mirroring_bind (tell [FromTransport e] ;;; deliver e now)
                  (λ _, dispatch rest now) (mirroring_deliver e now)
                  (λ _, IH) c) as Hb.
    unfold bind, tell in *.
    destruct (deliver e now c) as [[[] c1] o1].
    destruct (dispatch rest now c1) as [[[] c2] o2].
    cbn [fst snd app] in *. exact Hb.
Qed.

Lemma mirroring_callTransport {A} (op : Run TransportEffect T A) now :
  mirroring (callTransport op now).
Proof.
  intros c. unfold callTransport.
  destruct (op (transport c)) as [[a tr] out].
  pose proof (mirroring_dispatch out now (set_transport tr c)) as Hd.
  by destruct (dispatch out now (set_transport tr c)) as [[[] c'] o].
Qed.

Lemma mirroring_request method params now random36 :
  mirroring (request method params now random36).
Proof.
  unfold request.
  apply mirroring_bind;
    [apply quiet_mirroring; unfold newPromise; respects_tac|intros p].
  apply mirroring_bind; [apply quiet_mirroring; respects_tac|intros c0].
  apply mirroring_bind;
    [apply quiet_mirroring; unfold setTimeout; respects_tac|intros h].
  apply mirroring_bind; [apply quiet_mirroring; respects_tac|intros c1].
  apply mirroring_bind; [apply quiet_mirroring; respects_tac|intros _].
  apply mirroring_bind; [apply quiet_mirroring, quiet_log|intros _].
  apply mirroring_bind; [apply mirroring_callTransport|intros _].
  apply quiet_mirroring. respects_tac.
Qed.

Lemma mirroring_runAll fns now : mirroring (runAll fns now).
Proof.
  induction fns as [|fn rest IH]; cbn [runAll].
  - apply quiet_mirroring. respects_tac.
  - apply mirroring_bind; [apply mirroring_callTransport|by intros _].
Qed.

Lemma mirroring_destroy now : mirroring (destroy now).
Proof.
  unfold destroy.
  apply mirroring_bind; [apply quiet_mirroring; respects_tac|intros c0].
  apply mirroring_bind; [apply mirroring_runAll|intros _].
  apply mirroring_bind; [by intros c|intros _].
  apply quiet_mirroring, quiet_rejectAllPending.
Qed.
Lemma mirroring_react i :
  (∀ now, i ≠ CallConnect now) →
  (∀ now, i ≠ DisconnectResumed None now) →
  mirroring (react i).
Proof.
  intros Hc Hd.
  destruct i as [now|now|awaited now|now r|now r|name args now r|now|ev k|ev k|h|i now];
    cbn [react]; try (by destruct (Hc now)).
  - apply mirroring_bind; [apply mirroring_callTransport|intros _].
    apply quiet_mirroring. respects_tac.
  - destruct awaited as [e|]; [|by destruct (Hd now)].
    apply quiet_mirroring. cbn [disconnectResumed]. respects_tac.
  - apply mirroring_bind; [apply mirroring_request|intros _].
    apply quiet_mirroring. respects_tac.
  - apply mirroring_bind; [apply mirroring_request|intros _].
    apply quiet_mirroring. respects_tac.
  - apply mirroring_bind; [apply mirroring_request|intros _].
    apply quiet_mirroring. respects_tac.
  - apply mirroring_destroy.
  - apply quiet_mirroring.
    destruct ev; unfold onMessage, onStatus, onError, onLog; respects_tac.
  - apply quiet_mirroring.
    destruct ev; unfold offMessage, offStatus, offError, offLog;
      respects_tac.
  - apply quiet_mirroring, quiet_timeoutFired.
  - apply mirroring_callTransport.
Qed.

Lemma exec_then_ret_effects {A} (m : Run Effect (McpClient.t T) A) c :
  (exec (m ;;; ret tt) c).2 = (m c).2.
Proof.
  unfold exec, bind. destruct (m c) as [[a c1] o1]. cbn.
  apply app_nil_r.
Qed.

Lemma connect_statuses now c :
  let r := connect now c in
  statusesEmitted r.2 = Connecting :: statusesReported r.2
  ∧ status r.1.2 = default (status c) (last (statusesEmitted r.2)).
Proof.
  unfold connect, bind. rewrite setStatus_eq.
  destruct (mirroring_callTransport tr_connect now
              (set_status Connecting c)) as [He Hs].
  destruct (callTransport tr_connect now _) as [[a c1] o1].
  cbn [fst snd] in *.
  rewrite statusesEmitted_app, statusesReported_app, He.
  split; [done|]. rewrite <- He, default_last_app. exact Hs.
Qed.

Lemma disconnectResumed_statuses now c :
  let r := disconnectResumed None now c in
  statusesEmitted r.2 = Disconnected :: statusesReported r.2
  ∧ statusesReported r.2 = []
  ∧ status r.1.2 = Disconnected.
Proof.
  cbn [disconnectResumed]. unfold bind, ret. rewrite setStatus_eq.
  destruct (quiet_rejectAllPending (Error "Disconnected")
              (set_status Disconnected c)) as [(Hst & _) Hq].
  destruct (quiet_no_status _ Hq) as [Hqe Hqr].
  destruct (rejectAllPending _ _) as [[[] c2] o2].
  cbn [fst snd] in *. rewrite !app_nil_r.
  rewrite !statusesEmitted_app, !statusesReported_app, Hqe, Hqr.
  by rewrite Hst.
Qed.

(** C9, as the code has it. Of the statuses the client emits, two
    are its own: [connect] sets and emits [Connecting] before it calls
    the transport, and [disconnect] sets and emits [Disconnected]
    when it goes on after the transport has disconnected (the
    transport reports nothing to the client then). Every other status
    the client emits is one its transport reports to it, emitted again
    in the same order, and the status the client holds is the last one
    it emitted (the constructor starts it at [Disconnected] without
    emitting). *)
Theorem status_mirrored_but_for_connect_and_disconnect c (i : Input) :
  let r := exec (react i) c in
  statusesEmitted r.2
  = match i with
    | CallConnect _ => Connecting :: statusesReported r.2
    | DisconnectResumed None _ => Disconnected :: statusesReported r.2
    | _ => statusesReported r.2
    end
  ∧ status r.1 = default (status c) (last (statusesEmitted r.2))
  ∧ (∀ now, i = DisconnectResumed None now → statusesReported r.2 = [])
  ∧ (∀ tr options now,
        let k := @construct T _ tr options now in
        statusesEmitted k.2 = statusesReported k.2
        ∧ status k.1 = default Disconnected (last (statusesEmitted k.2))).
Proof.
  intros r.
  assert (Hstep :
    statusesEmitted r.2
    = match i with
      | CallConnect _ => Connecting :: statusesReported r.2
      | DisconnectResumed None _ => Disconnected :: statusesReported r.2
      | _ => statusesReported r.2
      end
    ∧ status r.1 = default (status c) (last (statusesEmitted r.2))
    ∧ (∀ now, i = DisconnectResumed None now → statusesReported r.2 = [])).
  { subst r.
    destruct i as [now|now|[e|] now|now r|now r|name args now r|now|ev k|ev k|h|i now].
    1: { cbn [react]. rewrite exec_then_ret, exec_then_ret_effects.
         destruct (connect_statuses now c) as [H1 H2]. by repeat split. }
    3: { cbn [react]. rewrite exec_then_ret, exec_then_ret_effects.
         destruct (disconnectResumed_statuses now c) as (H1 & H2 & H3).
         split; [exact H1|]. split; [|by intros ? _].
         by rewrite H3, H1, H2. }
    all: (split; [|split; [|by intros ? [=]]]);
      apply mirroring_react; congruence. }
  destruct Hstep as (H1 & H2 & H3).
  split; [exact H1|]. split; [exact H2|]. split; [exact H3|].
  intros tr options now k. subst k. unfold construct.
  match goal with
  | |- context [exec ?m ?c0] =>
      assert (Hm : mirroring m); [|destruct (Hm c0) as [He Hs]]
  end.
  { apply mirroring_bind; [apply mirroring_callTransport|intros u1].
    apply mirroring_bind; [apply mirroring_callTransport|intros u2].
    apply mirroring_bind; [apply mirroring_callTransport|intros u3].
    apply mirroring_bind; [by intros c'|intros _].
    destruct tr_onLog as [onLog|]; [|by intros c'].
    apply mirroring_bind; [apply mirroring_callTransport|intros u4].
    apply mirroring_bind; [by intros c'|intros c0]. by intros c'. }
  split; [exact He|exact Hs].
Qed.
End WithTransport.
End McpClientFacts.

(** * Properties of the client over the SSE transport *)
Module SseClientFacts.
Import McpClient SseClient JsMapFacts McpClientFacts.

(** One rule per construct of the monad, for any relation the state is
    to respect. *)
Ltac frame_step :=
  first
    [ apply respects_ret; solve [apply _]
    | apply respects_get; solve [apply _]
    | apply respects_tell; [solve [apply _] ..|repeat constructor]
    | apply respects_modify;
      [solve [apply _] ..|intros ?; hnf; by repeat split]
    | apply respects_bind; [solve [apply _] ..| |intros ?]
    | match goal with
      | |- respects _ _ (match ?x with _ => _ end) => destruct x
      | |- respects _ _ (if ?b then _ else _) => destruct b
      end ].

(** ** Calls of the transport that deliver no message *)
Section WithTransport.
Context {T : Type} `{McpTransport T}.
Implicit Types (c : McpClient.t T) (now : Z).

Lemma quiet_rejectEach error entries :
  @quiet T _ (rejectEach error entries).
Proof.
  unfold quiet.
  induction entries as [|entry rest IH]; cbn [rejectEach];
    [frame_step|].
  apply respects_bind; [solve [apply _] ..| |intros _; exact IH].
  unfold rejectOne, clearTimeout, reject, settle. repeat frame_step.
Qed.

Lemma rejected_app (o1 o2 : list Effect) :
  rejected (o1 ++ o2) = rejected o1 ++ rejected o2.
Proof. apply omap_app. Qed.

Lemma rejected_transport e (o : list Effect) :
  rejected (FromTransport e :: o) = rejected o.
Proof. reflexivity. Qed.

Lemma dispatch_no_message out now c :
  Forall no_message out →
  core (dispatch out now c).1.2 = core c
  ∧ rejected (dispatch out now c).2 = [].
Proof.
  intros Hout. revert c.
  induction Hout as [|e rest He _ IH]; intros c; [done|].
  rewrite dispatch_cons. cbn [fst snd].
  assert (Hd : core (deliver e now c).1.2 = core c
               ∧ rejected (deliver e now c).2 = []).
  { destruct e as [[m|s|err|l] to| | | | |]; cbn [deliver]; try done.
    all: destruct (decide (ClientHook ∈ to)); try done. }
  destruct Hd as [Hc Hr]. destruct (IH (deliver e now c).1.2) as [Hc2 Hr2].
  split; [congruence|].
  by rewrite rejected_transport, rejected_app, Hr, Hr2.
Qed.

Lemma callTransport_no_message {A} (op : Run TransportEffect T A) now c :
  Forall no_message (op (transport c)).2 →
  core (callTransport op now c).1.2 = core c
  ∧ rejected (callTransport op now c).2 = [].
Proof.
  intros Hout. unfold callTransport.
  destruct (op (transport c)) as [[a tr] out]. cbn [snd] in Hout.
  pose proof (dispatch_no_message out now (set_transport tr c) Hout) as Hd.
  by destruct (dispatch out now (set_transport tr c)) as [[[] c'] o].
Qed.

Lemma disconnectResumed_eq now c :
  let rj := rejectEach (Error "Disconnected") (pending c)
                       (set_status Disconnected c) in
  disconnectResumed None now c
  = (None, rj.1.2, (setStatus Disconnected now c).2 ++ rj.2).
Proof.
  intros rj. subst rj. cbn [disconnectResumed]. unfold bind at 1.
  rewrite setStatus_eq. cbn [fst snd].
  unfold rejectAllPending. run_unfold. cbn [pending set_status].
  destruct (rejectEach _ _ _) as [[[] c2] o2]. cbn [fst snd].
  by rewrite !app_nil_r.
Qed.

Lemma rejected_rejections error entries :
  rejected (rejections error entries)
  = (λ entry : string * PendingRequest, (promise entry.2, error))
      <$> entries.
Proof.
  unfold rejections.
  induction entries as [|entry rest IH]; [done|]. cbn. by rewrite <- IH.
Qed.

Lemma elem_of_rejections error entries id pr :
  (id, pr) ∈ entries →
  ClearTimeout (timeoutId pr) ∈ rejections error entries.
Proof.
  unfold rejections. intros Hin. apply list_elem_of_bind.
  exists (id, pr). split; [apply list_elem_of_here|exact Hin].
Qed.

(** [rejectEach] leaves the promises and the timeouts of other
    requests as they are. *)
Lemma rejectEach_others error entries c (p : nat) :
  (∀ id pr, (id, pr) ∈ entries → promise pr ≠ p ∧ timeoutId pr ≠ p) →
  promises (rejectEach error entries c).1.2 !! p = promises c !! p
  ∧ timers (rejectEach error entries c).1.2 !! p = timers c !! p.
Proof.
  revert c. induction entries as [|[id pr] rest IH]; intros c Hne; [done|].
  rewrite rejectEach_cons, rejectOne_eq. cbn [fst snd].
  destruct (Hne id pr (list_elem_of_here _ _)) as [Hp Ht].
  destruct (IH (set_pending (JsMap.delete id (pending c))
                  (set_promises
                     (settleIn (promise pr) (Rejected error) (promises c))
                     (set_timers (<[timeoutId pr:=None]> (timers c)) c))))
    as [IHp IHt].
  { intros id' pr' Hin. apply (Hne id' pr'). by apply list_elem_of_further. }
  rewrite IHp, IHt. cbn.
  by rewrite lookup_settleIn_ne, list_lookup_insert_ne.
Qed.

(** [disconnect] once it goes on after a transport that has
    disconnected: every request pending at that moment is rejected. *)
Lemma disconnectResumed_fulfilled now c :
  wf c →
  let r := disconnectResumed None now c in
  r.1.1 = None
  ∧ pending r.1.2 = []
  ∧ status r.1.2 = Disconnected
  ∧ transport r.1.2 = transport c
  ∧ (∀ id pr, (id, pr) ∈ pending c →
              promises r.1.2 !! promise pr
              = Some (Rejected (Error "Disconnected"))
              ∧ timers r.1.2 !! timeoutId pr = Some None)
  ∧ r.2 = (setStatus Disconnected now c).2
          ++ rejections (Error "Disconnected") (pending c)
  ∧ rejected r.2
    = (λ entry, (promise entry.2, Error "Disconnected")) <$> pending c
  ∧ wf r.1.2.
Proof.
  intros Hwf r. subst r. rewrite disconnectResumed_eq.
  assert (Hwf2 : wf (set_status Disconnected c)) by exact Hwf.
  destruct (rejectEach_spec (Error "Disconnected") (pending c)
              (set_status Disconnected c) Hwf2 eq_refl)
    as (Hsteps & Hempty & Hall & Hout & Htr & Hst & _).
  pose proof (consistent_steps _ _ Hsteps Hwf2) as Hwf3.
  cbn [fst snd] in *.
  split; [done|]. split; [done|]. split; [done|]. split; [done|].
  split; [exact Hall|]. split; [by rewrite Hout|].
  split; [|exact Hwf3].
  rewrite rejected_app, Hout, rejected_rejections. by rewrite setStatus_eq.
Qed.

(** C3, as the code has it. [disconnect] calls
    [transport.disconnect()] and awaits the promise it returns; what
    it does itself comes after that promise has settled. If it
    rejects, [disconnect] rejects with the same error and does nothing
    else: no request is rejected. If it fulfils, [disconnect] goes on
    in a later turn and there, in every state the client can be in by
    then, rejects the promise of every entry of the pending map, each
    unsettled until then, with the
    error ["Disconnected"], one rejection per entry in the order of the
    map, clears the timeout of each and leaves the map empty; the
    operation that made such a request, once [send] has fulfilled,
    rejects with that error, and no input that follows changes the
    outcome. The promises and timeouts of requests that have no entry
    (settled before, or overwritten by a request with the same id) are
    left as they are. *)
Theorem disconnect_rejects_pending_entries c (awaited : option JsError) now :
  reachable c →
  let r := disconnectResumed awaited now c in
  (disconnect now c).1.1 = (tr_disconnect (transport c)).1.1
  ∧ (∀ e, awaited = Some e → r = (Some e, c, []))
  ∧ (awaited = None →
     r.1.1 = None
     ∧ pending r.1.2 = []
     ∧ rejected r.2
       = (λ entry, (promise entry.2, Error "Disconnected")) <$> pending c
     ∧ length (rejected r.2) = length (pending c)
     ∧ (∀ id pr,
          (id, pr) ∈ pending c →
          promises c !! promise pr = Some Unsettled
          ∧ promises r.1.2 !! promise pr
            = Some (Rejected (Error "Disconnected"))
          ∧ timers r.1.2 !! timeoutId pr = Some None
          ∧ ClearTimeout (timeoutId pr) ∈ r.2
          ∧ (∀ op, outcome op SendFulfilled (promises r.1.2 !! promise pr)
                   = Rejected (Error "Disconnected"))
          ∧ ∀ inputs : list Input,
              promises (run inputs r.1.2).1 !! promise pr
              = Some (Rejected (Error "Disconnected")))
     ∧ (∀ p : nat,
          (∀ id pr, (id, pr) ∈ pending c → promise pr ≠ p) →
          promises r.1.2 !! p = promises c !! p
          ∧ timers r.1.2 !! p = timers c !! p)).
Proof.
  intros Hreach r. pose proof (wf_reachable c Hreach) as Hwf.
  split.
  { unfold disconnect.
    by destruct (callTransport_transport tr_disconnect now c) as (_ & _ & ->). }
  split; [by intros e ->|]. intros ->.
  destruct (disconnectResumed_fulfilled now c Hwf)
    as (Hnone & Hempty & _ & _ & Hall & Heff & Hout & Hwf').
  fold r in Hnone, Hempty, Hall, Heff, Hout, Hwf'.
  split; [exact Hnone|]. split; [exact Hempty|]. split; [exact Hout|].
  split; [by rewrite Hout, length_fmap|]. split.
  - intros id pr Hin. destruct (Hall id pr Hin) as [Hp Ht].
    split.
    { destruct Hwf as (_ & _ & Htm & _ & Hpending).
      destruct (Hpending _ _ Hin) as (_ & Heq & cb & Hcb & _).
      destruct (Htm _ _ Hcb) as [_ Hps]. by rewrite Heq. }
    split; [exact Hp|]. split; [exact Ht|]. split.
    { rewrite Heff. apply elem_of_app. right.
      by apply (elem_of_rejections _ _ id). }
    split; [intros op; by rewrite Hp|].
    intros inputs. by apply settled_forever.
  - intros p Hp. subst r. rewrite disconnectResumed_eq. cbn [fst snd].
    destruct (rejectEach_others (Error "Disconnected") (pending c)
                (set_status Disconnected c) p) as [H1 H2]; [|by split].
    intros id pr Hin. split; [by apply (Hp id)|].
    destruct Hwf as (_ & _ & _ & _ & Hpending).
    destruct (Hpending _ _ Hin) as (_ & <- & _). by apply (Hp id).
Qed.
End WithTransport.

(** ** The client of an [SseTransport] *)
Section WithParser.
Variable JSON_parse : string → Thrown + McpMessage.

#[local] Hint Extern 0 (McpTransport SseTransport.t) =>
  exact (SseTransport_McpTransport JSON_parse) : typeclass_instances.

Implicit Types (c : McpClient.t SseTransport.t) (now : Z).

Import SseTransportFacts.

Lemma sse_disconnect_outputs (tr : SseTransport.t) :
  (tr_disconnect tr).1.1 = None ∧ Forall no_message (tr_disconnect tr).2.
Proof.
  destruct tr. cbn [tr_disconnect SseTransport_McpTransport].
  sse_unfold. sse_cases; split; repeat constructor.
Qed.

(** *** What [destroy] undoes *)

#[local] Instance kept_state_preorder : PreOrder kept_state.
Proof.
  split.
  - by intros c.
  - intros c1 c2 c3 (? & ?) (? & ?). unfold kept_state. split; congruence.
Qed.

Lemma kept_steady {A} (m : Run Effect (McpClient.t SseTransport.t) A) :
  steady m → kept m.
Proof.
  intros Hs c. destruct (Hs c) as [[Htr Hun] _].
  split; [|apply Forall_true; done]. split; [done|by rewrite Htr].
Qed.

Lemma kept_callTransport {A} (op : Run TransportEffect SseTransport.t A) now :
  (∀ tr, SseTransport.hooks (op tr).1.2 = SseTransport.hooks tr) →
  kept (callTransport op now).
Proof.
  intros Hop c.
  destruct (callTransport_transport op now c) as (Htr & Hun & _).
  split; [|apply Forall_true; done]. split; [done|]. by rewrite Htr, Hop.
Qed.

Lemma hook_on_external (k : nat) (e : Emitter.t) :
  bool_decide (ClientHook ∈ Emitter.handlers (Emitter.on (External k) e))
  = bool_decide (ClientHook ∈ Emitter.handlers e).
Proof.
  apply bool_decide_ext. unfold Emitter.on.
  destruct (decide (External k ∈ Emitter.handlers e)); [done|]. cbn.
  rewrite elem_of_app, list_elem_of_singleton. split; [|by left].
  by intros [?|?].
Qed.

Lemma hook_off_external (k : nat) (e : Emitter.t) :
  bool_decide (ClientHook ∈ Emitter.handlers (Emitter.off (External k) e))
  = bool_decide (ClientHook ∈ Emitter.handlers e).
Proof.
  apply bool_decide_ext. unfold Emitter.off. cbn.
  rewrite list_elem_of_filter. split; [by intros [_ ?]|by split].
Qed.

(** The emitters of the transport, as a whole. *)
Lemma sse_emitters_kept (i : SseTransport.Input) (tr : SseTransport.t) :
  (∀ ev k, i ≠ SseTransport.Subscribe ev k) →
  (∀ ev k, i ≠ SseTransport.Unsubscribe ev k) →
  let tr' := (SseTransport.react JSON_parse i tr).1.2 in
  SseTransport.messageEmitter tr' = SseTransport.messageEmitter tr
  ∧ SseTransport.statusEmitter tr' = SseTransport.statusEmitter tr
  ∧ SseTransport.errorEmitter tr' = SseTransport.errorEmitter tr
  ∧ SseTransport.logEmitter tr' = SseTransport.logEmitter tr.
Proof.
  intros Hs Hu.
  destruct tr as [? ? st mc ? ? src tm ? ? ? ? due ?].
  destruct i as [| |m|ev k|ev k|now|data now|random now|h];
    try (by destruct (Hs ev k)); try (by destruct (Hu ev k));
    sse_unfold; cbn.
  - destruct tm, st; cbn; by repeat split.
  - destruct tm, src; cbn; by repeat split.
  - by repeat split.
  - by repeat split.
  - parse_cases JSON_parse data; cbn; by repeat split.
  - destruct mc, tm; cbn; by repeat split.
  - destruct (decide (h ∈ due)); cbn; [|by repeat split].
    destruct mc; cbn; [by repeat split|].
    destruct src, st; cbn; by repeat split.
Qed.

Lemma sse_hooks_kept (i : SseTransport.Input) (tr : SseTransport.t) :
  SseTransport.hooks (SseTransport.react JSON_parse i tr).1.2
  = SseTransport.hooks tr.
Proof.
  destruct i as [| |m|ev k|ev k|now|data now|random now|h].
  3: reflexivity.
  3: { destruct ev; unfold SseTransport.hooks;
       cbn -[Emitter.on Emitter.off bool_decide];
       by rewrite hook_on_external. }
  3: { destruct ev; unfold SseTransport.hooks;
       cbn -[Emitter.on Emitter.off bool_decide];
       by rewrite hook_off_external. }
  all: match goal with
       | |- context [SseTransport.react _ ?i _] =>
           destruct (sse_emitters_kept i tr) as (H1 & H2 & H3 & H4);
           [congruence|congruence|]
       end;
    unfold SseTransport.hooks; by rewrite H1, H2, H3, H4.
Qed.
Ltac kept_step := first [apply kept_callTransport | frame_step].

Lemma then_ret_state {E S A B} (m : Run E S A) (b : B) (s : S) :
  (bind m (λ _, ret b) s).1.2 = (m s).1.2.
Proof. unfold bind, ret. by destruct (m s) as [[a s1] o1]. Qed.

Lemma kept_connect now : kept (connect now).
Proof.
  unfold kept, connect.
  apply respects_bind; [solve [apply _] ..| |intros _].
  - apply kept_steady, steady_setStatus.
  - apply kept_callTransport. intros tr.
    cbn [tr_connect SseTransport_McpTransport].
    rewrite then_ret_state.
    apply (sse_hooks_kept SseTransport.CallConnect).
Qed.

Lemma kept_disconnect now : kept (disconnect now).
Proof.
  unfold kept, disconnect.
  apply kept_callTransport. intros tr.
  cbn [tr_disconnect SseTransport_McpTransport].
  rewrite then_ret_state.
  apply (sse_hooks_kept SseTransport.CallDisconnect).
Qed.

Lemma kept_disconnectResumed awaited now :
  kept (disconnectResumed awaited now).
Proof.
  unfold kept. destruct awaited as [e|]; cbn [disconnectResumed];
    [kept_step|].
  apply respects_bind; [solve [apply _] ..| |intros _].
  - apply kept_steady, steady_setStatus.
  - apply respects_bind; [solve [apply _] ..| |intros _; kept_step].
    apply kept_steady, quiet_steady, quiet_rejectAllPending.
Qed.

Lemma kept_request method params now random36 :
  kept (request method params now random36).
Proof.
  unfold kept, request, newPromise, setTimeout, log.
  repeat kept_step.
  intros tr. apply (sse_hooks_kept (SseTransport.CallSend _)).
Qed.

Lemma kept_react (i : Input) :
  (∀ now, i ≠ CallDestroy now) → kept (react i).
Proof.
  intros Hi.
  destruct i as [now|now|awaited now|now r|now r|name args now r|now|ev k|ev k|h|i now];
    cbn [react]; try (by destruct (Hi now)).
  - apply respects_bind; [solve [apply _] ..|apply kept_connect|intros _].
    kept_step.
  - apply respects_bind; [solve [apply _] ..|apply kept_disconnect|intros _].
    kept_step.
  - apply respects_bind;
      [solve [apply _] ..|apply kept_disconnectResumed|intros _].
    kept_step.
  - apply respects_bind; [solve [apply _] ..|apply kept_request|intros _].
    kept_step.
  - apply respects_bind; [solve [apply _] ..|apply kept_request|intros _].
    kept_step.
  - apply respects_bind; [solve [apply _] ..|apply kept_request|intros _].
    kept_step.
  - destruct ev; unfold onMessage, onStatus, onError, onLog;
      repeat kept_step.
  - destruct ev; unfold offMessage, offStatus, offError, offLog;
      repeat kept_step.
  - apply kept_steady, quiet_steady, quiet_timeoutFired.
  - apply kept_callTransport. intros tr. apply sse_hooks_kept.
Qed.
Lemma subscribed_new tr options now : subscribed (new tr options now).
Proof. left. reflexivity. Qed.

(** What [destroy] does when the subscriptions are in place, and when
    they are gone already. *)
Lemma destroy_subscribed now c :
  unsubs c = subscriptions →
  destroy now c
  = rejectEach (Error "Client destroyed") (pending c)
      (set_unsubs [] (set_transport (unhooked (transport c)) c)).
Proof.
  intros Hun. unfold destroy, bind at 1, get.
  rewrite Hun. unfold subscriptions. cbn [runAll].
  unfold rejectAllPending, callTransport.
  run_unfold. cbn -[rejectEach].
  destruct (rejectEach _ _ _) as [[[] c2] o2]. reflexivity.
Qed.

Lemma destroy_unsubscribed now c :
  unsubs c = [] →
  destroy now c
  = rejectEach (Error "Client destroyed") (pending c) (set_unsubs [] c).
Proof.
  intros Hun. unfold destroy, bind at 1, get.
  rewrite Hun. cbn [runAll]. unfold rejectAllPending.
  run_unfold. cbn -[rejectEach].
  destruct (rejectEach _ _ _) as [[[] c2] o2]. reflexivity.
Qed.

Lemma hooks_unhooked tr :
  SseTransport.hooks (unhooked tr) = (false, false, false, false).
Proof.
  unfold SseTransport.hooks, unhooked. cbn.
  rewrite !bool_decide_false; [done|..];
    rewrite list_elem_of_filter; by intros [? _].
Qed.

Lemma subscribed_destroy now c :
  subscribed c →
  unsubs (destroy now c).1.2 = []
  ∧ SseTransport.hooks (transport (destroy now c).1.2)
    = (false, false, false, false)
  ∧ SseTransport.connection (transport (destroy now c).1.2)
    = SseTransport.connection (transport c)
  ∧ status (destroy now c).1.2 = status c
  ∧ transportEffects (destroy now c).2 = [].
Proof.
  intros [Hun|[Hun Hh]].
  - rewrite (destroy_subscribed now c Hun).
    destruct (quiet_rejectEach (Error "Client destroyed") (pending c)
                (set_unsubs [] (set_transport (unhooked (transport c)) c)))
      as [(Hst & Htr & Hu) Hq].
    rewrite Htr, Hst, Hu. cbn [transport status unsubs set_unsubs set_transport].
    rewrite hooks_unhooked. repeat split; try done.
    clear -Hq. induction Hq as [|e o He _ IH]; [done|].
    unfold transportEffects in *. cbn. rewrite IH.
    by destruct e as [|[] ?| | | | |].
  - rewrite (destroy_unsubscribed now c Hun).
    destruct (quiet_rejectEach (Error "Client destroyed") (pending c)
                (set_unsubs [] c)) as [(Hst & Htr & Hu) Hq].
    rewrite Htr, Hst, Hu. cbn [transport status unsubs set_unsubs].
    repeat split; try done.
    clear -Hq. induction Hq as [|e o He _ IH]; [done|].
    unfold transportEffects in *. cbn. rewrite IH.
    by destruct e as [|[] ?| | | | |].
Qed.

Lemma subscribed_step c i : subscribed c → subscribed (exec (react i) c).1.
Proof.
  intros Hsub.
  destruct i as [now|now|awaited now|now r|now r|name args now r|now|ev k|ev k|h|i now].
  7: { right. destruct (subscribed_destroy now c Hsub) as (? & ? & _).
       by split. }
  all: match goal with
       | |- subscribed (exec (react ?i) ?c0).1 =>
           assert (Hi : ∀ now', i ≠ CallDestroy now') by (intros ?; congruence);
           destruct (kept_react i Hi c0) as [[Hun Hh] _]
       end.
  all: unfold subscribed, exec in *; cbn [fst]; rewrite Hun, Hh; exact Hsub.
Qed.

Lemma subscribed_reachable c : reachable c → subscribed c.
Proof.
  induction 1 as [tr options now|c i _ IH];
    [apply subscribed_new|by apply subscribed_step].
Qed.

(** C10. In every state the client can be in, [destroy] takes the
    callbacks of the client out of the four emitters of the transport
    and forgets the closures that did it, rejects every pending
    request with the error ["Client destroyed"] and empties the map;
    it makes no call of the transport that has an effect, so the
    state of the connection (every field of the transport but the
    emitters) is as before, [isConnected] answers what it answered
    before, which is what the transport says, and the status the
    client holds is unchanged. *)
Theorem destroy_leaves_connection c now :
  reachable c →
  let r := destroy now c in
  SseTransport.hooks (transport r.1.2) = (false, false, false, false)
  ∧ unsubs r.1.2 = []
  ∧ pending r.1.2 = []
  ∧ (∀ id pr, (id, pr) ∈ pending c →
              promises r.1.2 !! promise pr
              = Some (Rejected (Error "Client destroyed"))
              ∧ timers r.1.2 !! timeoutId pr = Some None)
  ∧ transportEffects r.2 = []
  ∧ SseTransport.connection (transport r.1.2)
    = SseTransport.connection (transport c)
  ∧ isConnected r.1.2 = isConnected c
  ∧ isConnected r.1.2 = SseTransport.isConnected (transport r.1.2)
  ∧ status r.1.2 = status c.
Proof.
  intros Hreach r.
  pose proof (wf_reachable c Hreach) as Hwf.
  pose proof (subscribed_reachable c Hreach) as Hsub.
  destruct (subscribed_destroy now c Hsub) as (Hun & Hh & Hconn & Hst & Hte).
  fold r in Hun, Hh, Hconn, Hst, Hte.
  assert (Hrej : pending r.1.2 = []
                 ∧ ∀ id pr, (id, pr) ∈ pending c →
                     promises r.1.2 !! promise pr
                     = Some (Rejected (Error "Client destroyed"))
                     ∧ timers r.1.2 !! timeoutId pr = Some None).
  { subst r. destruct Hsub as [Hu|[Hu _]].
    - rewrite (destroy_subscribed now c Hu).
      destruct (rejectEach_spec (Error "Client destroyed") (pending c)
                  (set_unsubs [] (set_transport (unhooked (transport c)) c))
                  Hwf eq_refl) as (_ & ? & ? & _).
      by split.
    - rewrite (destroy_unsubscribed now c Hu).
      destruct (rejectEach_spec (Error "Client destroyed") (pending c)
                  (set_unsubs [] c) Hwf eq_refl) as (_ & ? & ? & _).
      by split. }
  destruct Hrej as [Hempty Hall].
  split; [exact Hh|]. split; [exact Hun|]. split; [exact Hempty|].
  split; [exact Hall|]. split; [exact Hte|]. split; [exact Hconn|].
  assert (Hic : isConnected r.1.2 = isConnected c).
  { unfold isConnected. cbn [tr_isConnected SseTransport_McpTransport].
    unfold SseTransport.isConnected.
    assert (SseTransport.status (transport r.1.2)
            = SseTransport.status (transport c)) as ->; [|done].
    unfold SseTransport.connection in Hconn. congruence. }
  split; [exact Hic|]. split; [reflexivity|exact Hst].
Qed.
Lemma sse_send_outputs (m : McpMessage) (tr : SseTransport.t) :
  Forall no_message (tr_send m tr).2.
Proof.
  destruct tr. cbn [tr_send SseTransport_McpTransport].
  sse_unfold. sse_cases; repeat constructor.
Qed.

(** What [request] does to the pending map, in every state the client
    can be in. *)
Lemma request_sets_entry c (method : string)
    (params : option JsonValue) now (random36 : string) :
  reachable c →
  let X := generateId now random36 in
  let r := request method params now random36 c in
  let entry := mkPending r.1.1 r.1.1 in
  pending r.1.2 = JsMap.set X entry (pending c)
  ∧ JsMap.get X (pending r.1.2) = Some entry
  ∧ (X ∉ JsMap.keys (pending c) →
     pending r.1.2 = pending c ++ [(X, entry)])
  ∧ (∀ pr, JsMap.get X (pending c) = Some pr →
           JsMap.keys (pending r.1.2) = JsMap.keys (pending c)
           ∧ promise pr ≠ r.1.1
           ∧ promises r.1.2 !! promise pr = Some Unsettled
           ∧ timers r.1.2 !! timeoutId pr
             = timers c !! timeoutId pr
           ∧ ∃ cb, timers r.1.2 !! timeoutId pr = Some (Some cb))
  ∧ ∀ Y, Y ≠ X → JsMap.get Y (pending r.1.2) = JsMap.get Y (pending c).
Proof.
  intros Hreach X r entry.
  pose proof (wf_reachable c Hreach) as Hwf.
  subst entry r. rewrite request_eq. cbn [fst snd].
  match goal with
  | |- context [callTransport ?op now ?c1] =>
      destruct (callTransport_no_message op now c1) as [Hcore _];
      [apply sse_send_outputs|];
      set (sent := callTransport op now c1) in *
  end.
  pose proof (f_equal (λ x, x.1.1) Hcore) as Hpd.
  pose proof (f_equal (λ x, x.1.2) Hcore) as Hpr.
  pose proof (f_equal snd Hcore) as Htm.
  cbn [core fst snd pending promises timers set_pending set_promises
       set_timers] in Hpd, Hpr, Htm. clear Hcore.
  assert (Hlen : length (timers c) = length (promises c))
    by (by destruct Hwf as [-> _]).
  rewrite Hpd, Hpr, Htm, Hlen. clear Hpd Hpr Htm sent.
  split; [done|]. split; [by rewrite get_set, decide_True|].
  split; [apply set_fresh|]. split.
  - intros pr Hget. destruct Hwf as (_ & _ & Hdue & _ & Hpend).
    apply get_Some_elem_of in Hget.
    destruct (Hpend _ _ Hget) as (_ & Heq & cb & Htimer & _).
    pose proof (lookup_lt_Some _ _ _ Htimer) as Hlt.
    destruct (Hdue _ _ Htimer) as [_ Hun]. rewrite <- Heq in Hun.
    split.
    { rewrite keys_set, decide_True; [done|].
      apply list_elem_of_fmap. by exists (X, pr). }
    split; [rewrite Hlen, <- Heq in Hlt; lia|].
    split; [by apply lookup_app_l_Some|].
    rewrite (lookup_app_l_Some _ _ _ _ Htimer).
    split; [done|]. by exists cb.
  - intros Y HY. rewrite get_set, decide_False; [done|].
    intros E. exact (HY (eq_sym E)).
Qed.

(** C6, as the code has it. [request] takes the id [generateId]
    gives, which is made of [Date.now()] and [Math.random()] alone,
    and sets the entry without looking at the map. If no pending
    entry has that id the entry is added after the others, which are
    kept; if one has, the entry of the earlier request is replaced,
    the map is no longer, and the promise of the earlier request is
    left unsettled with its timeout due; a response with that id then
    settles the later request and leaves the earlier one as it is.
    Entries under other ids are kept either way. *)
Theorem request_sets_entry_unchecked c (method : string)
    (params : option JsonValue) now (random36 : string) :
  reachable c →
  let X := generateId now random36 in
  let r := request method params now random36 c in
  let entry := mkPending r.1.1 r.1.1 in
  pending r.1.2 = JsMap.set X entry (pending c)
  ∧ JsMap.get X (pending r.1.2) = Some entry
  ∧ (X ∉ JsMap.keys (pending c) →
     pending r.1.2 = pending c ++ [(X, entry)])
  ∧ (∀ pr, JsMap.get X (pending c) = Some pr →
           JsMap.keys (pending r.1.2) = JsMap.keys (pending c)
           ∧ promise pr ≠ r.1.1
           ∧ promises r.1.2 !! promise pr = Some Unsettled
           ∧ timers r.1.2 !! timeoutId pr
             = timers c !! timeoutId pr
           ∧ (∃ cb, timers r.1.2 !! timeoutId pr = Some (Some cb))
           ∧ ∀ (m : McpMessage) (now' : Z),
               m_id m = Some X →
               let h := handleMessage m now' r.1.2 in
               promises h.1.2 !! r.1.1 = Some (response_outcome m)
               ∧ promises h.1.2 !! promise pr = Some Unsettled
               ∧ timers h.1.2 !! timeoutId pr = timers c !! timeoutId pr)
  ∧ ∀ Y, Y ≠ X → JsMap.get Y (pending r.1.2) = JsMap.get Y (pending c).
Proof.
  intros Hreach X r entry.
  destruct (request_sets_entry c method params now random36 Hreach)
    as (Hset & Hget & Hfresh & Hold & Hother).
  fold X r entry in Hset, Hget, Hfresh, Hold, Hother.
  split; [exact Hset|]. split; [exact Hget|]. split; [exact Hfresh|].
  split; [|exact Hother].
  intros pr Hpr. destruct (Hold pr Hpr) as (Hkeys & Hne & Hun & Htm & Hdue).
  split; [exact Hkeys|]. split; [exact Hne|]. split; [exact Hun|].
  split; [exact Htm|]. split; [exact Hdue|].
  intros m now' Hid h.
  assert (Hwf : wf r.1.2).
  { apply (moves_wf _ c (moves_request method params now random36)).
    by apply wf_reachable. }
  destruct (response_settles r.1.2 m now' X entry Hwf Hget Hid)
    as (_ & Hsettled & _).
  fold h in Hsettled. split; [exact Hsettled|].
  assert (Hsame : promise pr = timeoutId pr).
  { destruct (wf_reachable c Hreach) as (_ & _ & _ & _ & Hpd).
    by destruct (Hpd _ _ (get_Some_elem_of _ _ _ Hpr)) as (_ & Heq & _). }
  subst h.
  rewrite (handleMessage_matched m now' r.1.2 X entry Hid
             (generateId_not_empty now random36) Hget).
  cbn [fst snd promises timers set_promises set_pending set_timers
       promise timeoutId entry].
  split.
  - rewrite lookup_settleIn_ne by (intros E; by apply Hne). exact Hun.
  - rewrite list_lookup_insert_ne; [exact Htm|].
    rewrite <- Hsame. intros E. by apply Hne.
Qed.
End WithParser.

(** ** The theorems on a client over the SSE transport *)
Section Examples.
#[local] Hint Extern 0 (McpTransport SseTransport.t) =>
  exact (SseTransport_McpTransport sample_parse) : typeclass_instances.


(** A list of effects none of which delivers a message with id
    [X]. *)
Ltac no_answer :=
  vm_compute;
  repeat (apply List.Forall_cons;
          [intros Hanswer;
           first [exact Hanswer | by destruct Hanswer as [_ [=]]]|]);
  apply List.Forall_nil.

Ltac not_among :=
  intros Hamong;
  repeat (apply elem_of_cons in Hamong as [Hamong|Hamong];
          [discriminate|]);
  by apply elem_of_nil in Hamong.

(** The theorem of C2 on a [listTools] whose timeout fires after the
    channel has opened. *)
Lemma request_times_out_witness :
  let r := request "mcp.listTools" None 1730000000000 "0.4fzyo82mvyr"
                   sample_client in
  let c2 := (run [@TransportInput _ (SseTransport_McpTransport sample_parse)
          (SseTransport.SourceOpen 3) 3]
                 r.1.2).1 in
  SetTimeout 0 (Number.of_Z 2000) ∈ r.2
  ∧ promises (timeoutFired 0 c2).1.2 !! 0
    = Some (Rejected (Error "Request timed out: mcp.listTools"))
  ∧ outcome ListTools SendFulfilled (promises (timeoutFired 0 c2).1.2 !! 0)
    = Rejected (Error "Request timed out: mcp.listTools")
  ∧ JsMap.get "m2r1bz7k-4fzyo82m" (pending (timeoutFired 0 c2).1.2) = None.
Proof.
  intros r c2.
  pose proof (request_times_out sample_client "mcp.listTools" None
                1730000000000 "0.4fzyo82mvyr"
                (reachable_new _ _ _)) as [Hset Hlater].
  split; [exact Hset|].
  destruct (Hlater [@TransportInput _ (SseTransport_McpTransport sample_parse)
          (SseTransport.SourceOpen 3) 3])
    as (_ & _ & Hrej & _ & Hop & _ & Hgone & _).
  - no_answer.
  - intros now'. not_among.
  - intros now'. not_among.
  - not_among.
  - split; [exact Hrej|]. split; [exact (proj2 (Hop ListTools))|exact Hgone].
Defined.

(** A reading of C2 that the code does not meet: no message with the
    id of the request arrives, yet the call does not reject with the
    time-out error. When the POST is answered 500, [send] rejects and
    the call rejects with ["POST failed: 500"], whatever the timeout
    does later; and when [destroy] is called before the timeout, the
    call rejects with ["Client destroyed"] and the timeout, cleared,
    never fires. *)
Lemma request_rejected_without_timeout :
  let X := "m2r1bz7k-4fzyo82m" in
  let r := listTools 1730000000000 "0.4fzyo82mvyr" sample_client in
  let fired := timeoutFired 0 r.1.2 in
  let destroyed := run [CallDestroy 7; TimeoutFired 0] r.1.2 in
  r.1.1 = 0
  ∧ Forall (λ e, ¬ answers X e) (r.2 ++ fired.2)
  ∧ SseTransport.send_outcome (SseTransport.Response false 500)
    = Some (Error "POST failed: 500")
  ∧ outcome ListTools (SendRejected (Error "POST failed: 500"))
            (promises fired.1.2 !! 0)
    = Rejected (Error "POST failed: 500")
  ∧ Forall (λ e, ¬ answers X e) (r.2 ++ destroyed.2)
  ∧ outcome ListTools SendFulfilled (promises destroyed.1 !! 0)
    = Rejected (Error "Client destroyed").
Proof.
  intros X r fired destroyed.
  split; [reflexivity|]. split; [no_answer|]. split; [reflexivity|].
  split; [reflexivity|]. split; [no_answer|]. vm_compute. reflexivity.
Qed.

(** The theorem of C3 on [sample_calling], which has one request
    pending, once [disconnect] has been called. *)
Lemma disconnect_rejects_pending_entries_witness :
  let c := (run [CallDisconnect 7] sample_calling).1 in
  let r := disconnectResumed None 8 c in
  pending c = [("m2r1bz7k-4fzyo82m", mkPending 0 0)]
  ∧ pending r.1.2 = []
  ∧ rejected r.2 = [(0, Error "Disconnected")]
  ∧ promises r.1.2 !! 0 = Some (Rejected (Error "Disconnected")).
Proof.
  intros c r.
  assert (Hr : reachable c)
    by (apply reachable_run, reachable_run, reachable_new).
  pose proof (disconnect_rejects_pending_entries c None 8 Hr)
    as (_ & _ & Hnone).
  destruct (Hnone eq_refl) as (_ & Hempty & Hrej & _ & Hall & _).
  subst r.
  split; [vm_compute; reflexivity|]. split; [exact Hempty|].
  split; [rewrite Hrej; vm_compute; reflexivity|].
  refine (proj1 (proj2 (Hall "m2r1bz7k-4fzyo82m" (mkPending 0 0) _))).
  replace (pending c)
    with [("m2r1bz7k-4fzyo82m", mkPending 0 0)]
    by (vm_compute; reflexivity).
  apply list_elem_of_here.
Defined.

(** A reading of C3 that the code does not meet. Two requests made in
    the same millisecond with the same random digits share an id, so
    the entry of the first is overwritten: [disconnect] rejects the
    second and leaves the first unsettled, its timeout still due. And
    when [destroy] is called while [disconnect] awaits the transport,
    the pending request is rejected with ["Client destroyed"], not
    with a disconnection error, and [disconnect] finds nothing to
    reject when it goes on. *)
Lemma disconnect_leaves_overwritten_request :
  let X := "m2r1bz7k-4fzyo82m" in
  let c := (run [CallListTools 1730000000000 "0.4fzyo82mvyr";
                 CallListResources 1730000000000 "0.4fzyo82mvyr";
                 CallDisconnect 7; DisconnectResumed None 8]
                sample_client).1 in
  let d := (run [CallListTools 1730000000000 "0.4fzyo82mvyr";
                 CallDisconnect 7; CallDestroy 7]
                sample_client).1 in
  pending c = []
  ∧ promises c !! 0 = Some Unsettled
  ∧ timers c !! 0 = Some (Some (mkCallback X "mcp.listTools" 0))
  ∧ promises c !! 1 = Some (Rejected (Error "Disconnected"))
  ∧ promises d !! 0 = Some (Rejected (Error "Client destroyed"))
  ∧ rejected (disconnectResumed None 8 d).2 = []
  ∧ promises (disconnectResumed None 8 d).1.2 !! 0
    = Some (Rejected (Error "Client destroyed")).
Proof. vm_compute. by repeat split. Qed.

(** The theorem of C4 on a response whose result holds an error of
    the tool. *)
Lemma callTool_resolves_with_result_witness :
  let X := "m2r1bz7k-4fzyo82m" in
  let payload :=
    JObject [("id", JString X);
             ("error", JObject [("message", JString "boom")])] in
  let m := mkMessage (Some X) None None (Some payload) None in
  let r := callTool "x" (Some (JObject [])) 1730000000000 "0.4fzyo82mvyr"
                    sample_client in
  r.1.1 = 0
  ∧ promises (handleMessage m 9 r.1.2).1.2 !! 0 = Some (Resolved payload)
  ∧ rejected (handleMessage m 9 r.1.2).2 = [].
Proof.
  intros X payload m r.
  pose proof (callTool_resolves_with_result sample_client "x"
                (Some (JObject [])) 1730000000000 "0.4fzyo82mvyr"
                (reachable_new _ _ _) [] (mkPending 0 0) m 9
                eq_refl eq_refl eq_refl) as [Hres _].
  destruct (Hres payload eq_refl eq_refl) as (Hp & _ & Hnone).
  split; [reflexivity|]. split; [exact Hp|exact Hnone].
Defined.

(** A reading of C6 that the code does not meet: two requests made
    in the same millisecond for which [Math.random()] gives the same
    digits get the same id; the second replaces the entry of the
    first, which is still pending and unsettled. *)
Lemma generateId_collides :
  let X := generateId 1730000000000 "0.4fzyo82mvyr" in
  let r1 := listTools 1730000000000 "0.4fzyo82mvyr" sample_client in
  let r2 := listResources 1730000000000 "0.4fzyo82mvyr" r1.1.2 in
  pending r1.1.2 = [(X, mkPending 0 0)]
  ∧ pending r2.1.2 = [(X, mkPending 1 1)]
  ∧ promises r2.1.2 = [Unsettled; Unsettled].
Proof. repeat split. Qed.

(** The theorem of C6 on the second of those two requests. *)
Lemma request_sets_entry_unchecked_witness :
  let X := generateId 1730000000000 "0.4fzyo82mvyr" in
  let r1 := listTools 1730000000000 "0.4fzyo82mvyr" sample_client in
  let r2 := listResources 1730000000000 "0.4fzyo82mvyr" r1.1.2 in
  JsMap.get X (pending r2.1.2) = Some (mkPending 1 1)
  ∧ JsMap.keys (pending r2.1.2) = JsMap.keys (pending r1.1.2)
  ∧ promises r2.1.2 !! 0 = Some Unsettled.
Proof.
  intros X r1 r2.
  assert (Hr : reachable r1.1.2).
  { unfold r1, listTools.
    rewrite <- (exec_then_ret (request "mcp.listTools" None 1730000000000
                                       "0.4fzyo82mvyr") sample_client).
    apply (reachable_step sample_client
             (CallListTools 1730000000000 "0.4fzyo82mvyr")).
    apply reachable_new. }
  pose proof (request_sets_entry_unchecked sample_parse r1.1.2
                "mcp.listResources" None 1730000000000 "0.4fzyo82mvyr" Hr)
    as (_ & Hget & _ & Hold & _).
  destruct (Hold (mkPending 0 0) eq_refl) as (Hkeys & _ & Hun & _).
  split; [exact Hget|]. split; [exact Hkeys|exact Hun].
Defined.

(** A reading of C9 that the code does not meet: on a client whose
    transport is connected, [connect] emits [Connecting], which the
    transport does not report: it reports [Connected]. *)
Lemma connect_originates_connecting :
  let c := (run [CallConnect 1;
                 @TransportInput _ (SseTransport_McpTransport sample_parse)
          (SseTransport.SourceOpen 2) 2]
                sample_client).1 in
  let r := exec (react (CallConnect 3)) c in
  status c = Connected
  ∧ statusesReported r.2 = [Connected]
  ∧ statusesEmitted r.2 = [Connecting; Connected].
Proof. repeat split. Qed.

(** The theorem of C10 on [sample_calling]: connected before
    [destroy] and after. *)
Lemma destroy_leaves_connection_witness :
  let r := destroy 8 sample_calling in
  isConnected sample_calling = true
  ∧ isConnected r.1.2 = true
  ∧ status r.1.2 = Connected
  ∧ pending r.1.2 = []
  ∧ promises r.1.2 !! 0 = Some (Rejected (Error "Client destroyed")).
Proof.
  intros r.
  assert (Hr : reachable sample_calling)
    by (apply reachable_run, reachable_new).
  pose proof (destroy_leaves_connection sample_parse sample_calling 8 Hr)
    as (_ & _ & Hempty & Hall & _ & _ & Hic & _ & Hst).
  subst r.
  split; [vm_compute; reflexivity|].
  split; [rewrite Hic; vm_compute; reflexivity|].
  split; [rewrite Hst; vm_compute; reflexivity|].
  split; [exact Hempty|].
  refine (proj1 (Hall "m2r1bz7k-4fzyo82m" (mkPending 0 0) _)).
  replace (pending sample_calling)
    with [("m2r1bz7k-4fzyo82m", mkPending 0 0)]
    by (vm_compute; reflexivity).
  apply list_elem_of_here.
Defined.
End Examples.
End SseClientFacts.

(** * More on the client, for any transport *)
Module McpClientLaws.
Import McpClient SseClient JsMapFacts McpClientFacts.

Section WithTransport.
Context {T : Type} `{McpTransport T}.
Implicit Types (c : McpClient.t T) (now : Z).

(** X1. In every state the client can be in, the pending map, the
    promises and the timeouts agree: the ids of the map are distinct
    and none is the empty string (which [handleMessage] would take
    for no id); the promise of every entry is unsettled and its
    timeout is due, set to delete that id and reject that promise;
    and every promise [request] made that is still unsettled has its
    timeout due, whether its entry is in the map or not. *)
Theorem pending_requests_consistent c :
  reachable c →
  NoDup (JsMap.keys (pending c))
  ∧ (∀ id pr, (id, pr) ∈ pending c →
       id ≠ EmptyString
       ∧ JsMap.get id (pending c) = Some pr
       ∧ promises c !! promise pr = Some Unsettled
       ∧ ∃ cb, timers c !! timeoutId pr = Some (Some cb)
               ∧ cb_id cb = id ∧ cb_reject cb = promise pr)
  ∧ (∀ p, promises c !! p = Some Unsettled →
          ∃ cb, timers c !! p = Some (Some cb) ∧ cb_reject cb = p).
Proof.
  intros Hreach.
  destruct (wf_reachable c Hreach) as (Hlen & Hnd & Htm & Hno & Hpd).
  split; [exact Hnd|]. split.
  - intros id pr Hin.
    destruct (Hpd _ _ Hin) as (Hne & Heq & cb & Hcb & Hid).
    destruct (Htm _ _ Hcb) as [Hrej Hps].
    split; [exact Hne|]. split; [by apply elem_of_get|].
    split; [by rewrite Heq|]. exists cb. by rewrite Heq.
  - intros p Hp.
    pose proof (lookup_lt_Some _ _ _ Hp) as Hlt. rewrite Hlen in Hlt.
    destruct (lookup_lt_is_Some_2 _ _ Hlt) as [[cb|] Hslot].
    + exists cb. split; [exact Hslot|]. by destruct (Htm _ _ Hslot).
    + destruct (Hno _ Hslot) as (o & Ho & Hne). congruence.
Qed.

(** X3. Of two messages with the id of a pending request the first
    settles it and the second settles nothing: it finds no entry,
    leaves the client as it is, and is emitted to the message
    subscribers and logged like any message that answers no
    request. *)
Theorem second_response_unmatched c (m m' : McpMessage) now now'
    (X : string) (pr : PendingRequest) :
  reachable c →
  JsMap.get X (pending c) = Some pr →
  m_id m = Some X →
  m_id m' = Some X →
  let c1 := (handleMessage m now c).1.2 in
  let r := handleMessage m' now' c1 in
  r.1.2 = c1
  ∧ promises r.1.2 !! promise pr = Some (response_outcome m)
  ∧ r.2 = [Emit (EvMessage m') (Emitter.emit (messageEmitter c1));
           Emit (EvLog (mkLog LevelInfo "message" now'
                              (Some (message_to_json m'))))
                (Emitter.emit (logEmitter c1));
           Logger (mkLog LevelInfo "message" now'
                         (Some (message_to_json m')))].
Proof.
  intros Hreach Hget Hid Hid' c1 r.
  destruct (response_settles c m now X pr (wf_reachable c Hreach)
              Hget Hid) as (_ & Hset & _ & Hgone & _).
  fold c1 in Hset, Hgone. subst r.
  rewrite handleMessage_unmatched.
  - cbn [fst snd]. by repeat split.
  - apply (unmatched_with_id _ _ X Hid'). by right.
Qed.

(** X4. The response to a request cancels its timeout for good:
    after it, and after any further inputs, the host running the
    callback of that timeout changes nothing and rejects nothing. *)
Theorem response_cancels_timeout c (m : McpMessage) now (X : string)
    (pr : PendingRequest) (inputs : list Input) :
  reachable c →
  JsMap.get X (pending c) = Some pr →
  m_id m = Some X →
  let c1 := (handleMessage m now c).1.2 in
  let c2 := (run inputs c1).1 in
  timeoutFired (timeoutId pr) c2 = (tt, c2, [])
  ∧ promises c2 !! promise pr = Some (response_outcome m).
Proof.
  intros Hreach Hget Hid c1 c2.
  pose proof (wf_reachable c Hreach) as Hwf.
  destruct (response_settles c m now X pr Hwf Hget Hid)
    as (_ & Hset & _ & _ & Hcleared).
  fold c1 in Hset, Hcleared.
  assert (Hwf1 : wf c1)
    by apply (moves_wf (handleMessage m now) c
                (moves_handleMessage m now) Hwf).
  split.
  - apply timeoutFired_not_due. intros cb Hcb.
    pose proof (cleared_steps _ _ (timeoutId pr) (run_steps inputs c1 Hwf1)
                  Hcleared) as Hnone.
    cbn in Hnone. fold c2 in Hnone. congruence.
  - apply settled_forever; [exact Hwf1|exact Hset|].
    unfold response_outcome. by destruct (m_error m).
Qed.

(** X5. A response settles its own request and no other: the
    entries under other ids stay in the map, their promises stay
    unsettled and their timeouts stay due. *)
Theorem response_leaves_other_requests c (m : McpMessage) now
    (X Y : string) (pr pr' : PendingRequest) :
  reachable c →
  JsMap.get X (pending c) = Some pr →
  m_id m = Some X →
  Y ≠ X →
  JsMap.get Y (pending c) = Some pr' →
  let r := handleMessage m now c in
  JsMap.get Y (pending r.1.2) = Some pr'
  ∧ promises r.1.2 !! promise pr' = Some Unsettled
  ∧ timers r.1.2 !! timeoutId pr' = timers c !! timeoutId pr'
  ∧ ∃ cb, timers r.1.2 !! timeoutId pr' = Some (Some cb).
Proof.
  intros Hreach Hget Hid Hne Hget' r.
  destruct (wf_reachable c Hreach) as (Hlen & Hnd & Htm & Hno & Hpd).
  destruct (Hpd _ _ (get_Some_elem_of _ _ _ Hget))
    as (HX & Heq & cb & Hcb & Hcbid).
  destruct (Hpd _ _ (get_Some_elem_of _ _ _ Hget'))
    as (_ & Heq' & cb' & Hcb' & Hcbid').
  destruct (Htm _ _ Hcb') as [_ Hps'].
  assert (Hdiff : timeoutId pr ≠ timeoutId pr').
  { intros E. rewrite E in Hcb. congruence. }
  subst r. rewrite (handleMessage_matched m now c X pr Hid HX Hget).
  cbn [fst snd promises pending timers set_promises set_pending
       set_timers].
  split.
  { apply elem_of_get; [by apply NoDup_keys_delete|].
    apply elem_of_delete. split; [done|].
    by apply get_Some_elem_of. }
  split.
  { rewrite lookup_settleIn_ne; [by rewrite Heq'|]. congruence. }
  rewrite list_lookup_insert_ne by done.
  split; [done|]. by exists cb'.
Qed.

(** X6. A response that has neither a result nor an error resolves
    the request with [null]; [listTools] and [listResources] then
    return the empty array, [callTool] returns [null]. *)
Theorem empty_response_resolves_null c (m : McpMessage) now
    (X : string) (pr : PendingRequest) :
  reachable c →
  JsMap.get X (pending c) = Some pr →
  m_id m = Some X →
  m_result m = None →
  m_error m = None →
  let r := handleMessage m now c in
  let inner := promises r.1.2 !! promise pr in
  inner = Some (Resolved JNull)
  ∧ outcome ListTools SendFulfilled inner = Resolved (JArray [])
  ∧ outcome ListResources SendFulfilled inner = Resolved (JArray [])
  ∧ outcome CallTool SendFulfilled inner = Resolved JNull.
Proof.
  intros Hreach Hget Hid Hres Herr r inner.
  destruct (response_settles c m now X pr (wf_reachable c Hreach)
              Hget Hid) as (_ & Hset & _).
  subst inner r. rewrite Hset. unfold response_outcome.
  rewrite Herr, Hres. by repeat split.
Qed.

(** X7. [destroy] a second time does nothing: the first leaves no
    subscription to undo and no request to reject. *)
Theorem destroy_twice c now now' :
  reachable c →
  let c1 := (destroy now c).1.2 in
  unsubs c1 = [] ∧ pending c1 = []
  ∧ destroy now' c1 = (tt, c1, []).
Proof.
  intros Hreach c1.
  pose proof (wf_reachable c Hreach) as Hwf.
  assert (Hun : unsubs c1 = [] ∧ pending c1 = []).
  { subst c1. unfold destroy. run_unfold. cbn [fst snd].
    destruct (runAll (unsubs c) now c) as [[[] c'] o'] eqn:E.
    cbn [fst snd].
    assert (Hwf' : wf c').
    { pose proof (moves_wf (runAll (unsubs c) now) c
                    (moves_runAll (unsubs c) now) Hwf) as Hw.
      by rewrite E in Hw. }
    unfold rejectAllPending. run_unfold. cbn [fst snd].
    destruct (rejectEach_spec (Error "Client destroyed")
                (pending (set_unsubs [] c')) (set_unsubs [] c')
                Hwf' eq_refl) as (_ & Hempty & _ & _ & _ & _ & Hu).
    destruct (rejectEach _ _ _) as [[[] c''] o'']. cbn [fst snd] in *.
    by split. }
  destruct Hun as [Hun Hpd]. split; [exact Hun|]. split; [exact Hpd|].
  clearbody c1. destruct c1. cbn in Hun, Hpd. subst. reflexivity.
Qed.
End WithTransport.
End McpClientLaws.

(** * The emitter *)
Module EmitterFacts.
Import Emitter.

Lemma elem_of_on (h h' : Handler) (e : t) :
  h' ∈ handlers (on h e) ↔ h' = h ∨ h' ∈ handlers e.
Proof.
  unfold on. destruct (decide (h ∈ handlers e)) as [Hin|Hout]; cbn.
  - split; [by right|]. by intros [->|?].
  - rewrite elem_of_app, list_elem_of_singleton. tauto.
Qed.

Lemma elem_of_off (h h' : Handler) (e : t) :
  h' ∈ handlers (off h e) ↔ h' ≠ h ∧ h' ∈ handlers e.
Proof. unfold off. cbn. by rewrite list_elem_of_filter. Qed.

Lemma NoDup_on (h : Handler) (e : t) :
  NoDup (handlers e) → NoDup (handlers (on h e)).
Proof.
  intros Hnd. unfold on. destruct (decide (h ∈ handlers e)); [done|].
  cbn. apply NoDup_app. split; [done|]. split.
  - intros x Hx Hin. apply list_elem_of_singleton in Hin as ->. done.
  - apply NoDup_singleton.
Qed.

Lemma NoDup_off (h : Handler) (e : t) :
  NoDup (handlers e) → NoDup (handlers (off h e)).
Proof. intros Hnd. unfold off. cbn. by apply NoDup_filter. Qed.

Lemma filter_absent (h : Handler) (l : list Handler) :
  h ∉ l → filter (λ h', h' ≠ h) l = l.
Proof.
  induction l as [|x l IH]; [done|]. intros Hout.
  apply not_elem_of_cons in Hout as [Hne Hout].
  rewrite filter_cons, decide_True by done. f_equal. by apply IH.
Qed.

Lemma off_on (h : Handler) (e : t) :
  handlers (off h (on h e)) = handlers (off h e).
Proof.
  unfold on. destruct (decide (h ∈ handlers e)); [done|]. cbn.
  rewrite filter_app, filter_cons, decide_False, filter_nil
    by (intros Hn; exact (Hn eq_refl)).
  apply app_nil_r.
Qed.

Lemma off_on_fresh (h : Handler) (e : t) :
  h ∉ handlers e → off h (on h e) = e.
Proof.
  intros Hout. pose proof (off_on h e) as Hoff.
  destruct e as [l]. unfold off in *. cbn [handlers] in *.
  f_equal. rewrite Hoff. by apply filter_absent.
Qed.

(** X8. The handlers of an emitter are a set kept in insertion
    order: [on] of a handler already there changes nothing, [on] of
    a new one puts it last, after the others in their order, and no
    handler is ever held, so called by [emit], twice. *)
Theorem on_adds_to_a_set (h : Handler) (e : t) :
  h ∈ emit (on h e)
  ∧ on h (on h e) = on h e
  ∧ (h ∈ handlers e → on h e = e)
  ∧ (h ∉ handlers e → emit (on h e) = emit e ++ [h])
  ∧ (∀ h', h' ∈ emit (on h e) ↔ h' = h ∨ h' ∈ emit e)
  ∧ (NoDup (emit e) → NoDup (emit (on h e)))
  ∧ (NoDup (emit e) → NoDup (emit (off h e)))
  ∧ NoDup (emit empty) ∧ NoDup (emit (clear e)).
Proof.
  unfold emit.
  assert (Hin : h ∈ handlers (on h e)) by (apply elem_of_on; by left).
  split; [exact Hin|].
  split; [unfold on at 1; by rewrite decide_True|].
  split; [intros Hh; unfold on; by rewrite decide_True|].
  split; [intros Hh; unfold on; by rewrite decide_False|].
  split; [intros h'; apply elem_of_on|].
  split; [apply NoDup_on|]. split; [apply NoDup_off|].
  split; apply NoDup_nil_2.
Qed.

(** X9. The closure [on] returns takes the handler out and leaves
    the others, in their order; a handler subscribed twice is out
    after one call of either closure; if the handler was not there
    before [on], the emitter is back as it was. *)
Theorem off_undoes_on (h : Handler) (e : t) :
  (h ∉ emit (off h (on h e)))
  ∧ emit (off h (on h e)) = emit (off h e)
  ∧ emit (off h (on h (on h e))) = emit (off h e)
  ∧ (∀ h', h' ∈ emit (off h e) ↔ h' ≠ h ∧ h' ∈ emit e)
  ∧ off h (off h e) = off h e
  ∧ (h ∉ handlers e → off h (on h e) = e).
Proof.
  unfold emit.
  pose proof (off_on h e) as Hoff.
  split; [rewrite elem_of_off; by intros [? _]|].
  split; [exact Hoff|].
  split.
  { assert (on h (on h e) = on h e) as ->; [|exact Hoff].
    unfold on at 1. rewrite decide_True; [done|].
    apply elem_of_on. by left. }
  split; [intros h'; apply elem_of_off|].
  split.
  { unfold off. cbn. f_equal. apply filter_absent.
    rewrite list_elem_of_filter. by intros [? _]. }
  apply off_on_fresh.
Qed.
End EmitterFacts.

(** * More on the transport *)
Module SseTransportLaws.
Import SseTransport SseTransportDefs SseTransportFacts EmitterFacts.

Section WithParser.
Variable JSON_parse : string → Thrown + McpMessage.

Lemma filter_one (h h' : nat) :
  filter (λ x, x ≠ h) [h'] = if decide (h' = h) then [] else [h'].
Proof.
  rewrite filter_cons, filter_nil.
  destruct (decide (h' = h)) as [->|Hne].
  - by rewrite decide_False by (by intros ?).
  - by rewrite decide_True.
Qed.

Ltac one_timer_solve JSON_parse :=
  repeat (match goal with
          | |- context [filter _ [_]] => rewrite filter_one
          | |- context [decide (?a = ?a)] =>
              rewrite (decide_True (P:=a = a)) by done
          | |- context [decide (?a ≠ ?a)] =>
              rewrite (decide_False (P:=a ≠ a))
                by (intros Hn; exact (Hn eq_refl))
          | |- context [decide (?a ≠ ?b)] =>
              destruct (decide (a ≠ b))
          | |- context [decide (?h ∈ [])] =>
              rewrite (decide_False (P:=h ∈ [])) by apply not_elem_of_nil
          | |- context [decide (?h ∈ [?a])] =>
              destruct (decide (h ∈ [a]))
                as [->%list_elem_of_singleton|?]
          | |- context [JSON_parse ?d] =>
              destruct (JSON_parse d) as [?|?]
          | |- context [Emitter.emit_until ?f ?l] =>
              destruct (Emitter.emit_until f l) as [? [?|]]
          | |- context [match ?x with _ => _ end] => is_var x; destruct x
          end; cbn);
  first [by left | right; eexists; by split].

Lemma one_timer_step (s : t) (i : Input) :
  one_timer s → one_timer (exec (react JSON_parse i) s).1.
Proof.
  unfold one_timer. intros Hone.
  destruct s as [? ? st mc ? ? src tm ? ? ? ? due ?]. cbn in Hone.
  destruct Hone as [->|(h0 & -> & [= ->])];
    destruct i as [| |m|ev k|ev k|now|data now|random now|h];
    try destruct ev; sse_unfold; cbn; one_timer_solve JSON_parse.
Qed.

(** X11. A transport never has two reconnects waiting: in every
    state it can be in at most one of its timeouts is due, and that
    one is the timeout [reconnectTimer] holds. *)
Theorem one_reconnect_timer (s : t) :
  reachable JSON_parse s →
  (length (dueTimers s) ≤ 1)%nat
  ∧ ∀ h, h ∈ dueTimers s → reconnectTimer s = Some h.
Proof.
  intros Hreach.
  assert (Hone : one_timer s).
  { induction Hreach as [o|s i _ IH]; [by left|by apply one_timer_step]. }
  destruct Hone as [->|(h0 & -> & ->)]; cbn.
  - split; [lia|]. intros h Hin. by apply elem_of_nil in Hin.
  - split; [lia|]. intros h Hin.
    by apply list_elem_of_singleton in Hin as ->.
Qed.

Lemma statuses_app o1 o2 : statuses (o1 ++ o2) = statuses o1 ++ statuses o2.
Proof. apply omap_app. Qed.

Lemma status_step (s : t) (i : Input) :
  let r := exec (react JSON_parse i) s in
  status r.1 = default (status s) (last (statuses r.2)).
Proof.
  destruct s as [? ? st mc ? ? src tm ? ? ? ? due ?].
  destruct i as [| |m|ev k|ev k|now|data now|random now|h];
    try destruct ev; sse_unfold; cbn; try reflexivity.
  - destruct tm, st; reflexivity.
  - destruct tm, src; reflexivity.
  - parse_cases JSON_parse data; reflexivity.
  - destruct mc; [reflexivity|]. destruct tm; reflexivity.
  - destruct (decide (h ∈ due)); [|reflexivity]. cbn.
    destruct mc; [reflexivity|]. destruct src, st; reflexivity.
Qed.

(** X12. The status of the transport never changes unannounced:
    after any inputs it is the last status the transport emitted
    on the way, or the status it had if it emitted none. *)
Theorem status_is_last_emitted (inputs : list Input) (s : t) :
  let r := run JSON_parse inputs s in
  status r.1 = default (status s) (last (statuses r.2)).
Proof.
  revert s. induction inputs as [|i rest IH]; intros s; [reflexivity|].
  cbn [run]. pose proof (status_step s i) as Hstep.
  destruct (exec (react JSON_parse i) s) as [s1 o1]. cbn [fst snd] in Hstep.
  specialize (IH s1). destruct (run JSON_parse rest s1) as [s2 o2].
  cbn [fst snd] in *. rewrite statuses_app, IH, Hstep, last_app.
  by destruct (last (statuses o2)).
Qed.

(** Whatever an input makes the transport emit goes to the
    handlers the emitter of the event held before the input, in
    order: to all of them, but for a message, which goes to the first
    of them, up to the one that throws. *)
Lemma emits_addressed (s : t) (i : Input) (ev : Event)
    (to : list Handler) :
  TEmit ev to ∈ (react JSON_parse i s).2 →
  to `prefix_of` Emitter.emit (emitter_of ev s)
  ∧ ((∀ m, ev ≠ EvMessage m) → to = Emitter.emit (emitter_of ev s)).
Proof.
  destruct s as [? ? st mc ? ? src tm em es ee el due ?].
  destruct i as [| |m|ev' k|ev' k|now|data now|random now|h];
    try destruct ev'; sse_unfold; cbn -[Emitter.on Emitter.off].
  13: { destruct (JSON_parse data) as [thrown|parsed];
         cbn -[Emitter.on Emitter.off].
       2: pose proof (emit_until_prefix (throws (EvMessage parsed))
                        (Emitter.handlers em)) as Hpre;
         destruct (Emitter.emit_until _ _) as [called [thrown|]];
         cbn -[Emitter.on Emitter.off].
       all: intros Hin;
         repeat (apply elem_of_cons in Hin as [Hin|Hin];
                 [try discriminate; injection Hin as -> ->;
                  split; [done|]; try done; by intros Hm; destruct (Hm parsed)|]);
         by apply elem_of_nil in Hin. }
  all: try (intros Hin; by apply elem_of_nil in Hin).
  all: try destruct tm; try destruct st; try destruct src;
    try destruct mc; try destruct (decide (h ∈ due));
    cbn -[Emitter.on Emitter.off];
    intros Hin;
    repeat (apply elem_of_cons in Hin as [Hin|Hin];
            [try discriminate; by injection Hin as -> ->|]);
    by apply elem_of_nil in Hin.
Qed.

(** Only a payload that parses makes the transport emit a
    message. *)
Lemma emits_no_message (s : t) (i : Input) :
  (∀ data now, i = SourceMessage data now →
               ∃ thrown, JSON_parse data = inl thrown) →
  Forall McpClient.no_message (react JSON_parse i s).2.
Proof.
  intros Hi.
  destruct s as [? ? st mc ? ? src tm em es ee el due ?].
  destruct i as [| |m|ev' k|ev' k|now|data now|random now|h];
    try destruct ev'; sse_unfold; cbn -[Emitter.on Emitter.off].
  all: try (by repeat constructor).
  - destruct tm, st; by repeat constructor.
  - destruct tm, src; by repeat constructor.
  - destruct (Hi data now eq_refl) as [thrown ->].
    destruct thrown; by repeat constructor.
  - destruct mc; [by constructor|]. destruct tm; by repeat constructor.
  - destruct (decide (h ∈ due)); [|by constructor]. cbn.
    destruct mc; [by constructor|].
    destruct src, st; by repeat constructor.
Qed.

Lemma emitters_sets_step (s : t) (i : Input) :
  emitters_sets s → emitters_sets (exec (react JSON_parse i) s).1.
Proof.
  unfold emitters_sets, Emitter.emit. intros (Hm & Hs & He & Hl).
  destruct s as [? ? st mc ? ? src tm em es ee el due ?]. cbn in *.
  destruct i as [| |m|ev k|ev k|now|data now|random now|h];
    try destruct ev; sse_unfold; cbn -[Emitter.on Emitter.off].
  all: try (by repeat split).
  all: try (repeat split; first [done | by apply NoDup_on
                                | by apply NoDup_off]).
  - destruct tm, st; by repeat split.
  - destruct tm, src; by repeat split.
  - parse_cases JSON_parse data; by repeat split.
  - destruct mc; [by repeat split|]. destruct tm; by repeat split.
  - destruct (decide (h ∈ due)); [|by repeat split].
    cbn. destruct mc; [by repeat split|].
    destruct src, st; by repeat split.
Qed.

(** X13. Each subscriber of a transport is called once per event:
    in every state the transport can be in, whatever was subscribed
    and however often, none of its four emitters holds a handler
    twice, and every [emit] in answer to an input goes to a list
    without repetition. *)
Theorem subscriber_called_once (s : t) (i : Input) :
  reachable JSON_parse s →
  emitters_sets s
  ∧ ∀ ev to, TEmit ev to ∈ (exec (react JSON_parse i) s).2 → NoDup to.
Proof.
  intros Hreach.
  assert (Hsets : emitters_sets s).
  { induction Hreach as [o|s i' _ IH]; [|by apply emitters_sets_step].
    repeat split; apply NoDup_nil_2. }
  split; [exact Hsets|].
  intros ev to Hin.
  destruct (emits_addressed s i ev to Hin) as [[rest Hto] _].
  assert (Hnd : NoDup (Emitter.emit (emitter_of ev s)))
    by (destruct Hsets as (Hm & Hs & He & Hl); by destruct ev).
  rewrite Hto in Hnd. by apply NoDup_app in Hnd as [? _].
Qed.
End WithParser.
End SseTransportLaws.

(** * More on the client over the SSE transport *)
Module SseClientLaws.
Import McpClient SseClient SseClientDefs JsMapFacts McpClientFacts
  SseClientFacts SseTransportDefs.

Section WithTransport.
Context {T : Type} `{McpTransport T}.
Implicit Types (c : McpClient.t T) (now : Z).

Lemma dispatch_unheard out now c :
  (∀ ev to, TEmit ev to ∈ out → ClientHook ∉ to) →
  dispatch out now c = (tt, c, FromTransport <$> out).
Proof.
  induction out as [|e rest IH]; intros Hout; [done|].
  rewrite dispatch_cons.
  assert (Hd : deliver e now c = (tt, c, [])).
  { destruct e as [ev to| | | | |]; try done. cbn [deliver].
    rewrite decide_False; [done|]. apply (Hout ev), list_elem_of_here. }
  rewrite Hd. cbn [fst snd]. rewrite IH; [done|].
  intros ev to Hin. apply (Hout ev). by apply list_elem_of_further.
Qed.

Lemma deliver_status e now c :
  status (deliver e now c).1.2
  = match e with
    | TEmit (EvStatus v) to =>
        if decide (ClientHook ∈ to) then v else status c
    | _ => status c
    end.
Proof.
  destruct e as [[m|v|err|l] to| | | | |]; cbn [deliver]; try done.
  all: destruct (decide (ClientHook ∈ to)); try done.
  by destruct (quiet_hookMessage m now c) as [(? & _) _].
Qed.

Lemma dispatch_status out now c :
  (∀ v to, TEmit (EvStatus v) to ∈ out → ClientHook ∈ to) →
  status (dispatch out now c).1.2
  = default (status c) (last (statuses out)).
Proof.
  revert c. induction out as [|e rest IH]; intros c Hout; [done|].
  rewrite dispatch_cons. cbn [fst snd].
  rewrite IH by (intros v to Hin; apply (Hout v);
                 by apply list_elem_of_further).
  rewrite deliver_status.
  destruct e as [[m|v|err|l] to| | | | |]; try done.
  rewrite decide_True by (apply (Hout v), list_elem_of_here).
  change (statuses (TEmit (EvStatus v) to :: rest))
    with (v :: statuses rest).
  rewrite last_cons. by destruct (last _).
Qed.

Lemma callTransport_status {A} (op : Run TransportEffect T A) now c :
  (∀ v to, TEmit (EvStatus v) to ∈ (op (transport c)).2 →
           ClientHook ∈ to) →
  status (callTransport op now c).1.2
  = default (status c) (last (statuses (op (transport c)).2)).
Proof.
  intros Hout. unfold callTransport.
  destruct (op (transport c)) as [[a tr] out]. cbn [snd] in Hout.
  pose proof (dispatch_status out now (set_transport tr c) Hout) as Hd.
  by destruct (dispatch out now (set_transport tr c)) as [[[] c'] o].
Qed.

Lemma callTransport_unheard {A} (op : Run TransportEffect T A) now c :
  (∀ ev to, TEmit ev to ∈ (op (transport c)).2 → ClientHook ∉ to) →
  callTransport op now c
  = ((op (transport c)).1.1, set_transport (op (transport c)).1.2 c,
     FromTransport <$> (op (transport c)).2).
Proof.
  intros Hout. unfold callTransport.
  destruct (op (transport c)) as [[a tr] out]. cbn [fst snd] in *.
  by rewrite dispatch_unheard.
Qed.
End WithTransport.

Section WithParser.
Variable JSON_parse : string → Thrown + McpMessage.

#[local] Hint Extern 0 (McpTransport SseTransport.t) =>
  exact (SseTransport_McpTransport JSON_parse) : typeclass_instances.

Implicit Types (c : McpClient.t SseTransport.t) (now : Z).

(** An input of the transport, as an input of its client. *)
Local Abbreviation FromChannel i now :=
  (@TransportInput _ (SseTransport_McpTransport JSON_parse) i now).

(** X14. Only a message settles a request: when the channel opens
    or fails, when the reconnect timer fires, when a payload does
    not parse, or when other code calls the transport, the pending
    map, the promises and the timeouts of the client are as before,
    whatever the client is told about status and errors. *)
Theorem channel_events_settle_nothing c (i : SseTransport.Input) now :
  (∀ data now', i = SseTransport.SourceMessage data now' →
                ∃ thrown, JSON_parse data = inl thrown) →
  let r := react (FromChannel i now) c in
  pending r.1.2 = pending c
  ∧ promises r.1.2 = promises c
  ∧ timers r.1.2 = timers c
  ∧ rejected r.2 = [].
Proof.
  intros Hi r. subst r. cbn [react tr_react SseTransport_McpTransport].
  destruct (callTransport_no_message (SseTransport.react JSON_parse i)
              now c) as [Hcore Hrej].
  { by apply SseTransportLaws.emits_no_message. }
  split; [exact (f_equal (λ k, k.1.1) Hcore)|].
  split; [exact (f_equal (λ k, k.1.2) Hcore)|].
  split; [exact (f_equal snd Hcore)|exact Hrej].
Qed.

(** *** After [destroy] *)

Lemma unhooked_emits (tr : SseTransport.t) (i : SseTransport.Input)
    (ev : Event) (to : list Handler) :
  SseTransport.hooks tr = (false, false, false, false) →
  TEmit ev to ∈ (SseTransport.react JSON_parse i tr).2 →
  ClientHook ∉ to.
Proof.
  intros Hh Hin Hto.
  destruct (SseTransportLaws.emits_addressed JSON_parse tr i ev to Hin)
    as [[rest Hpre] _].
  assert (Hall : ClientHook ∈ Emitter.emit (emitter_of ev tr))
    by (rewrite Hpre; apply elem_of_app; by left).
  unfold SseTransport.hooks in Hh. injection Hh as Hm Hs He Hl.
  revert Hall. destruct ev; cbn [emitter_of]; unfold Emitter.emit;
    by eapply bool_decide_eq_false.
Qed.

Lemma run_cons (i : Input) (rest : list Input) c :
  run (i :: rest) c
  = ((run rest (exec (react i) c).1).1,
     (exec (react i) c).2 ++ (run rest (exec (react i) c).1).2).
Proof.
  cbn [run]. destruct (exec (react i) c) as [c1 o1]. cbn [fst snd].
  by destruct (run rest c1) as [c2 o2].
Qed.

Lemma transport_run_cons (i : SseTransport.Input)
    (rest : list SseTransport.Input) (s : SseTransport.t) :
  SseTransport.run JSON_parse (i :: rest) s
  = ((SseTransport.run JSON_parse rest
        (exec (SseTransport.react JSON_parse i) s).1).1,
     (exec (SseTransport.react JSON_parse i) s).2
     ++ (SseTransport.run JSON_parse rest
           (exec (SseTransport.react JSON_parse i) s).1).2).
Proof.
  cbn [SseTransport.run].
  destruct (exec (SseTransport.react JSON_parse i) s) as [s1 o1].
  cbn [fst snd].
  by destruct (SseTransport.run JSON_parse rest s1) as [s2 o2].
Qed.

Lemma unheard_run (d : McpClient.t SseTransport.t)
    (events : list (SseTransport.Input * Z)) :
  SseTransport.hooks (transport d) = (false, false, false, false) →
  let r := run ((λ e, FromChannel e.1 e.2) <$> events) d in
  let t := SseTransport.run JSON_parse (fst <$> events) (transport d) in
  r.1 = set_transport t.1 d ∧ r.2 = FromTransport <$> t.2.
Proof.
  revert d. induction events as [|[i now'] rest IH]; intros d Hh.
  { by destruct d. }
  cbn zeta. rewrite !fmap_cons, run_cons, transport_run_cons.
  cbn [fst snd react tr_react SseTransport_McpTransport].
  unfold exec. cbn [fst snd].
  rewrite callTransport_unheard
    by (intros ev to; by apply unhooked_emits).
  cbn [fst snd].
  set (tr1 := (SseTransport.react JSON_parse i (transport d)).1.2).
  destruct (IH (set_transport tr1 d)) as [Hr Ho].
  { cbn [transport set_transport]. unfold tr1.
    by rewrite sse_hooks_kept. }
  cbn [transport set_transport] in Hr, Ho.
  rewrite Hr, Ho, fmap_app. by destruct d.
Qed.

(** X15. A destroyed client hears nothing: after [destroy],
    whatever happens to the transport from then on changes no field
    of the client (its status included, which may then differ from
    that of the transport) and makes the client emit, log, resolve
    or reject nothing; the transport goes on on its own. *)
Theorem destroyed_client_hears_nothing c now
    (events : list (SseTransport.Input * Z)) :
  reachable c →
  let d := (destroy now c).1.2 in
  let r := run ((λ e, FromChannel e.1 e.2) <$> events) d in
  let t := SseTransport.run JSON_parse (fst <$> events) (transport d) in
  own r.1 = own d
  ∧ transport r.1 = t.1
  ∧ r.2 = FromTransport <$> t.2.
Proof.
  intros Hreach d r t.
  destruct (unheard_run d events) as [Hr Ho].
  { by destruct (subscribed_destroy now c
                   (subscribed_reachable JSON_parse c Hreach))
      as (_ & ? & _). }
  fold r t in Hr, Ho. rewrite Hr. by repeat split.
Qed.

(** *** What a request puts on the wire *)

Lemma transportEffects_app (o1 o2 : list Effect) :
  transportEffects (o1 ++ o2) = transportEffects o1 ++ transportEffects o2.
Proof. apply omap_app. Qed.

Lemma transportEffects_fmap (out : list TransportEffect) :
  transportEffects (FromTransport <$> out) = out.
Proof.
  unfold transportEffects.
  induction out as [|e out IH]; [done|]. cbn in *. by f_equal.
Qed.

(** X17. Each request is one POST: [request] makes the transport
    [fetch] its [postUrl] once, with the message
    [{ id, method, params }] whose id is the generated one, the one
    the pending entry is under; it does nothing else to the host on
    behalf of the transport. [listTools] and [listResources] send
    their method without params, [callTool] sends
    ["mcp.callTool"] with [{ name, args }]. *)
Theorem request_posts_one_message c (method : string)
    (params : option JsonValue) now (random36 : string) :
  let X := generateId now random36 in
  let sent m := [Fetch (SseTransport.postUrl (transport c)) m] in
  transportEffects (request method params now random36 c).2
  = sent (mkMessage (Some X) (Some method) params None None)
  ∧ JsMap.has X (pending (request method params now random36 c).1.2)
    = true
  ∧ transportEffects (listTools now random36 c).2
    = sent (mkMessage (Some X) (Some "mcp.listTools") None None None)
  ∧ transportEffects (listResources now random36 c).2
    = sent (mkMessage (Some X) (Some "mcp.listResources") None None None)
  ∧ ∀ name args,
      transportEffects (callTool name args now random36 c).2
      = sent (mkMessage (Some X) (Some "mcp.callTool")
                (Some (JObject
                         (("name", JString name)
                          :: from_option (λ x, [("args", x)]) [] args)))
                None None).
Proof.
  intros X sent.
  assert (Hreq : ∀ method params,
             transportEffects (request method params now random36 c).2
             = sent (mkMessage (Some X) (Some method) params None None)
             ∧ JsMap.has X
                 (pending (request method params now random36 c).1.2)
               = true).
  { clear method params. intros method params. rewrite request_eq.
    cbn [fst snd]. fold X.
    match goal with
    | |- context [callTransport ?op now ?c1] =>
        rewrite (callTransport_unheard op now c1)
    end.
    - cbn [fst snd]. rewrite transportEffects_app, transportEffects_fmap.
      split; [done|]. cbn [pending set_transport set_pending].
      unfold JsMap.has. rewrite get_set, decide_True by done.
      by apply bool_decide_eq_true_2.
    - intros ev to Hin. cbn in Hin.
      apply list_elem_of_singleton in Hin. discriminate. }
  split; [apply Hreq|]. split; [apply Hreq|].
  split; [apply Hreq|]. split; [apply Hreq|].
  intros name args. apply Hreq.
Qed.
End WithParser.
End SseClientLaws.

(** * The ids of requests *)
Module GenerateIdFacts.
Import McpClient Base36.

Lemma digit36_value (d : N) : (d < 36)%N → digit_value (digit36 d) = d.
Proof.
  intros Hd. unfold digit_value, digit36.
  destruct (d <? 10)%N eqn:E.
  - apply N.ltb_lt in E. rewrite N_ascii_embedding by lia.
    replace (48 + d <? 58)%N with true by (symmetry; apply N.ltb_lt; lia).
    lia.
  - apply N.ltb_ge in E. rewrite N_ascii_embedding by lia.
    replace (87 + d <? 58)%N with false by (symmetry; apply N.ltb_ge; lia).
    lia.
Qed.

Lemma digit36_not_hyphen (d : N) : (d < 36)%N → digit36 d ≠ "-"%char.
Proof.
  intros Hd E. apply (f_equal N_of_ascii) in E. unfold digit36 in E.
  destruct (d <? 10)%N eqn:E'.
  - apply N.ltb_lt in E'. rewrite N_ascii_embedding in E by lia.
    cbn in E. lia.
  - apply N.ltb_ge in E'. rewrite N_ascii_embedding in E by lia.
    cbn in E. lia.
Qed.

Lemma append_cons (a : ascii) (s1 s2 : string) :
  String a s1 +:+ s2 = String a (s1 +:+ s2).
Proof. reflexivity. Qed.

Lemma append_empty_l (s : string) : EmptyString +:+ s = s.
Proof. reflexivity. Qed.

Lemma append_empty_r (s : string) : s +:+ EmptyString = s.
Proof.
  induction s as [|a s IH]; [done|]. by rewrite append_cons, IH.
Qed.

Lemma append_assoc (s1 s2 s3 : string) :
  (s1 +:+ s2) +:+ s3 = s1 +:+ (s2 +:+ s3).
Proof.
  induction s1 as [|a s1 IH]; [done|]. by rewrite !append_cons, IH.
Qed.

Lemma parse36_app (acc : N) (s1 s2 : string) :
  parse36 acc (s1 +:+ s2) = parse36 (parse36 acc s1) s2.
Proof.
  revert acc. induction s1 as [|a s1 IH]; intros acc; [done|].
  rewrite append_cons. cbn. apply IH.
Qed.

Lemma hyphen_free_app (s1 s2 : string) :
  hyphen_free s1 → hyphen_free s2 → hyphen_free (s1 +:+ s2).
Proof.
  induction s1 as [|a s1 IH]; [done|]. rewrite append_cons. cbn.
  intros [? ?] ?. auto.
Qed.

(** [digits36] with enough fuel writes the digits of [n], most
    significant first, in front of [acc]. *)
Lemma digits36_spec (fuel : nat) (n : N) (acc : string) :
  (n < 36 ^ N.of_nat fuel)%N →
  ∃ d, digits36 fuel n acc = d +:+ acc
       ∧ parse36 0 d = n ∧ hyphen_free d.
Proof.
  revert n acc. induction fuel as [|fuel IH]; intros n acc Hn.
  - exists EmptyString. cbn in *. split; [done|]. split; [lia|done].
  - cbn [digits36].
    assert (Hmod : (n mod 36 < 36)%N) by (apply N.mod_lt; lia).
    destruct (n / 36 =? 0)%N eqn:E.
    + apply N.eqb_eq in E.
      exists (String (digit36 (n mod 36)) EmptyString).
      split; [done|]. cbn. rewrite digit36_value by done.
      split; [|by split; [apply digit36_not_hyphen|]].
      pose proof (N.div_mod n 36). lia.
    + apply N.eqb_neq in E.
      destruct (IH (n / 36)%N (String (digit36 (n mod 36)) acc))
        as (d & Hd & Hv & Hf).
      { rewrite Nat2N.inj_succ, N.pow_succ_r' in Hn.
        apply N.Div0.div_lt_upper_bound. lia. }
      exists (d +:+ String (digit36 (n mod 36)) EmptyString).
      split.
      { by rewrite Hd, append_assoc. }
      split.
      { rewrite parse36_app, Hv. cbn. rewrite digit36_value by done.
        pose proof (N.div_mod n 36). lia. }
      apply hyphen_free_app; [done|].
      by split; [apply digit36_not_hyphen|].
Qed.

Lemma pos_size_nat_gt (p : positive) :
  (N.pos p < 2 ^ N.of_nat (Pos.size_nat p))%N.
Proof.
  induction p as [p IH|p IH|]; cbn [Pos.size_nat];
    rewrite ?Nat2N.inj_succ, ?N.pow_succ_r'; [lia..|].
  cbn. lia.
Qed.

Lemma size_nat_fuel (n : N) : (n < 36 ^ N.of_nat (S (N.size_nat n)))%N.
Proof.
  assert (Hn : (n < 2 ^ N.of_nat (N.size_nat n))%N).
  { destruct n as [|p]; [cbn; lia|apply pos_size_nat_gt]. }
  rewrite Nat2N.inj_succ, N.pow_succ_r'.
  pose proof (N.pow_le_mono_l 2 36 (N.of_nat (N.size_nat n))).
  lia.
Qed.

Lemma toString36_spec (z : Z) :
  (0 <= z)%Z →
  parse36 0 (toString36 z) = Z.to_N z ∧ hyphen_free (toString36 z).
Proof.
  intros Hz. unfold toString36.
  replace (z <? 0)%Z with false by (symmetry; apply Z.ltb_ge; lia).
  destruct (digits36_spec (S (N.size_nat (Z.abs_N z))) (Z.abs_N z)
              EmptyString (size_nat_fuel _)) as (d & Hd & Hv & Hf).
  rewrite Hd, append_empty_r.
  split; [|done]. rewrite Hv. destruct z; cbn; lia.
Qed.

(** Two texts that agree up to and including the first hyphen. *)
Lemma app_hyphen_inj (a b x y : string) :
  hyphen_free a → hyphen_free b →
  a +:+ String "-" x = b +:+ String "-" y → a = b ∧ x = y.
Proof.
  revert b. induction a as [|c a IH]; intros [|c' b];
    rewrite ?append_cons, ?append_empty_l; cbn.
  - intros _ _ [= ->]. done.
  - intros _ [Hc _] [= <- _]. done.
  - intros [Hc _] _ [= -> _]. done.
  - intros [_ Ha] [_ Hb] [= -> E]. destruct (IH b Ha Hb E) as [-> ->].
    done.
Qed.

(** X18. When two ids are the same: [generateId] gives the same id
    at two times (not negative, as [Date.now()] is) for two random
    texts exactly when the times are the same millisecond and the
    eight characters taken from the random texts are the same. Ids
    made in different milliseconds differ. *)
Theorem generateId_collides_only_within_a_millisecond
    (now1 now2 : Z) (random1 random2 : string) :
  (0 <= now1)%Z → (0 <= now2)%Z →
  generateId now1 random1 = generateId now2 random2
  ↔ now1 = now2
    ∧ String.substring 2 8 random1 = String.substring 2 8 random2.
Proof.
  intros H1 H2. unfold generateId. split.
  - intros E.
    destruct (toString36_spec now1 H1) as [Hv1 Hf1].
    destruct (toString36_spec now2 H2) as [Hv2 Hf2].
    destruct (app_hyphen_inj _ _ _ _ Hf1 Hf2 E) as [Ed Er].
    split; [|exact Er].
    apply (f_equal (parse36 0)) in Ed. rewrite Hv1, Hv2 in Ed. lia.
  - by intros [-> ->].
Qed.
End GenerateIdFacts.

(** * Properties of the stores *)
Module McpStoresFacts.
Import McpClient McpStores McpClientFacts.

Lemma slice_last_length {A} (n : nat) (items : list A) :
  length (slice_last n items) = min n (length items).
Proof. unfold slice_last. rewrite length_drop. lia. Qed.

Lemma slice_last_all {A} (n : nat) (items : list A) :
  length items ≤ n → slice_last n items = items.
Proof.
  intros Hn. unfold slice_last.
  replace (length items - n) with 0 by lia. done.
Qed.

(** Cutting twice is cutting once. *)
Lemma slice_last_snoc {A} (n : nat) (items : list A) (x : A) :
  slice_last n (slice_last n items ++ [x]) = slice_last n (items ++ [x]).
Proof.
  unfold slice_last. rewrite !length_app, length_drop. cbn [length].
  destruct (decide (length items ≤ n)) as [Hle|Hgt].
  - replace (length items - n) with 0 by lia. cbn [drop].
    by replace (length items - 0) with (length items) by lia.
  - rewrite <- (drop_app_le _ [x]) by lia.
    rewrite drop_drop. f_equal. lia.
Qed.

Lemma logs_called_length k l to st :
  length (logs st) ≤ 200 →
  length (logs (called k (logHandler l) to st)) ≤ 200.
Proof.
  unfold called. revert st. induction to as [|h to IH]; intros st Hst;
    [done|]. cbn [foldl].
  destruct (decide (h = External k)); [|by apply IH].
  apply IH. cbn. rewrite slice_last_length. lia.
Qed.

Lemma logs_called_other k f to st :
  (∀ st, logs (f st) = logs st) → logs (called k f to st) = logs st.
Proof.
  intros Hf. unfold called. revert st.
  induction to as [|h to IH]; intros st; [done|]. cbn [foldl].
  destruct (decide (h = External k)); [|apply IH]. by rewrite IH, Hf.
Qed.

(** X19. The log store keeps the last 200 entries: fed the entries
    [ls] one by one it holds the last 200 of what it held followed
    by [ls], all of them while they are 200 or fewer; and whatever
    the client emits, to whatever handlers, it never holds more than
    200. *)
Theorem logs_keep_last_200 (ls : list McpLog) (out : list Effect)
    (st : t) :
  length (logs st) ≤ 200 →
  let fed := foldl (λ st l, logHandler l st) st ls in
  logs fed = slice_last 200 (logs st ++ ls)
  ∧ length (logs fed) = min 200 (length (logs st) + length ls)
  ∧ (length (logs st) + length ls ≤ 200 → logs fed = logs st ++ ls)
  ∧ length (logs (observe out st)) ≤ 200.
Proof.
  intros Hst fed.
  assert (Hfed : logs fed = slice_last 200 (logs st ++ ls)).
  { subst fed. revert st Hst.
    induction ls as [|l ls IH] using rev_ind; intros st Hst.
    - cbn. rewrite app_nil_r. symmetry. by apply slice_last_all.
    - rewrite foldl_snoc. cbn [logHandler logs set_logs].
      rewrite IH by done. by rewrite slice_last_snoc, app_assoc. }
  split; [exact Hfed|]. split; [|split].
  - rewrite Hfed, slice_last_length, length_app. done.
  - intros Hle. rewrite Hfed. apply slice_last_all.
    by rewrite length_app.
  - clear fed Hfed. unfold observe. revert st Hst.
    induction out as [|e out IH]; intros st Hst; [done|]. cbn [foldl].
    apply IH. destruct e as [|[m|v|err|l] to| | | | |]; cbn [notify];
      try done.
    + by rewrite logs_called_other.
    + by rewrite logs_called_other.
    + by apply logs_called_length.
Qed.

Lemma sound_called st0 k f to st :
  (∀ st, sound st0 st → sound st0 (f st)) →
  sound st0 st → sound st0 (called k f to st).
Proof.
  intros Hf. unfold called. revert st.
  induction to as [|h to IH]; intros st Hst; [done|]. cbn [foldl].
  destruct (decide (h = External k)); apply IH; auto.
Qed.

Lemma sound_observe st0 out st :
  sound st0 st → sound st0 (observe out st).
Proof.
  unfold observe. revert st.
  induction out as [|e out IH]; intros st Hst; [done|]. cbn [foldl].
  apply IH. destruct e as [|[m|v|err|l] to| | | | |]; cbn [notify];
    try done; apply sound_called; try done.
  all: clear; intros st (Hf & ? & ? & ? & ? & ?); by repeat split.
Qed.

(** X20. In the connection store [isConnected] is true exactly when
    [status] is [Connected], whatever the client has emitted since the
    stores were created; and nothing the client emits changes the
    tools or the resources store, which [createMcpStores] leaves
    empty. *)
Theorem connection_flag_follows_status {T : Type} `{McpTransport T}
    (ks ke kl : nat) (c : McpClient.t T) (out : list Effect) :
  let st0 := (createMcpStores ks ke kl c).1.1 in
  let st := observe out st0 in
  cs_isConnected (connection st)
  = bool_decide (cs_status (connection st) = Connected)
  ∧ tools st = [] ∧ resources st = [].
Proof.
  intros st0 st.
  destruct (sound_observe st0 out st0) as (Hf & Ht & Hr & _); [done|].
  fold st in Hf, Ht, Hr. by rewrite Ht, Hr.
Qed.
End McpStoresFacts.

(** * To whom the client emits *)
Module McpClientEmits.
Import McpClient McpClientDefs McpClientFacts.

Section WithTransport.
Context {T : Type} `{McpTransport T}.
Implicit Types (c : McpClient.t T) (now : Z).
Local Abbreviation addressed := (@McpClientDefs.addressed T).

Lemma addressed_to_emitters c c' e :
  emitters c' = emitters c → addressed_to c' e → addressed_to c e.
Proof.
  unfold emitters. intros [= Hs Hm He Hl].
  destruct e as [|ev to| | | | |]; try done. cbn.
  destruct ev; cbn; congruence.
Qed.

Lemma at_ret {A} (a : A) c : addressed_at c (ret a).
Proof. split; [done|constructor]. Qed.

Lemma at_tell o c : Forall (addressed_to c) o → addressed_at c (tell o).
Proof. by split. Qed.

Lemma at_modify (f : McpClient.t T → McpClient.t T) c :
  emitters (f c) = emitters c → addressed_at c (modify f).
Proof. split; [done|constructor]. Qed.

Lemma at_bind {A B} (m : Run Effect (McpClient.t T) A)
    (k : A → Run Effect (McpClient.t T) B) c :
  addressed_at c m →
  addressed_at (m c).1.2 (k (m c).1.1) →
  addressed_at c (bind m k).
Proof.
  unfold addressed_at, bind. intros [He1 Ho1].
  destruct (m c) as [[a c1] o1]. cbn [fst snd] in *. intros [He2 Ho2].
  destruct (k a c1) as [[b c2] o2]. cbn [fst snd] in *.
  split; [congruence|]. apply Forall_app. split; [done|].
  eapply Forall_impl; [exact Ho2|]. intros e.
  by apply addressed_to_emitters.
Qed.

Lemma at_get_bind {B}
    (k : McpClient.t T → Run Effect (McpClient.t T) B) c :
  addressed_at c (k c) → addressed_at c (bind get k).
Proof. intros Hk. apply at_bind; [apply at_ret|exact Hk]. Qed.

Ltac addressed_step :=
  first
    [ apply at_ret
    | apply at_get_bind
    | apply at_tell; repeat constructor
    | apply at_modify; reflexivity
    | apply at_bind;
      [|match goal with
        | |- addressed_at (?m ?c).1.2 _ =>
            generalize ((m c).1.2); try generalize ((m c).1.1); intros
        end]
    | match goal with
      | |- addressed_at _ (match ?x with _ => _ end) => destruct x
      | |- addressed_at _ (if ?b then _ else _) => destruct b
      end ].

Lemma addressed_log level message data now :
  addressed (log level message data now).
Proof. intros c. unfold log. repeat addressed_step. Qed.

Lemma addressed_setStatus v now : addressed (setStatus v now).
Proof.
  intros c. unfold setStatus.
  apply at_bind; [apply at_modify; reflexivity|]. cbn [modify fst snd].
  apply at_get_bind.
  apply at_bind; [apply at_tell; by repeat constructor|].
  apply addressed_log.
Qed.

Lemma addressed_handleError e now : addressed (handleError e now).
Proof.
  intros c. unfold handleError. apply at_get_bind.
  apply at_bind; [apply at_tell; by repeat constructor|].
  apply addressed_log.
Qed.

Lemma addressed_handleMessage m now : addressed (handleMessage m now).
Proof.
  intros c. unfold handleMessage. apply at_get_bind.
  apply at_bind; [apply at_tell; by repeat constructor|].
  cbn [tell fst snd].
  unfold clearTimeout, reject, resolve, settle.
  repeat first [apply addressed_log | addressed_step].
Qed.

Lemma addressed_clientHook ev now : addressed (clientHook ev now).
Proof.
  destruct ev; cbn [clientHook];
    [intros c; apply at_bind; [apply addressed_handleMessage|apply at_ret]
    |apply addressed_setStatus|apply addressed_handleError|].
  intros c. apply at_get_bind.
  apply at_bind; apply at_tell; by repeat constructor.
Qed.

Lemma addressed_deliver e now : addressed (deliver e now).
Proof.
  intros c. destruct e as [ev to| | | | |]; cbn [deliver];
    try apply at_ret.
  destruct (decide (ClientHook ∈ to));
    [apply addressed_clientHook|apply at_ret].
Qed.

Lemma addressed_dispatch out now : addressed (dispatch out now).
Proof.
  induction out as [|e rest IH]; intros c; cbn [dispatch];
    [apply at_ret|].
  apply at_bind; [apply at_tell; by repeat constructor|].
  apply at_bind; [apply addressed_deliver|apply IH].
Qed.

Lemma addressed_callTransport {A} (op : Run TransportEffect T A) now :
  addressed (callTransport op now).
Proof.
  intros c. unfold addressed_at, callTransport.
  destruct (op (transport c)) as [[a tr] out].
  destruct (addressed_dispatch out now (set_transport tr c))
    as [He Ho].
  destruct (dispatch out now (set_transport tr c)) as [[[] c'] o].
  cbn [fst snd] in *. split; [exact He|].
  eapply Forall_impl; [exact Ho|]. intros e.
  by apply addressed_to_emitters.
Qed.

Lemma addressed_rejectEach error entries :
  addressed (rejectEach error entries).
Proof.
  induction entries as [|entry rest IH]; intros c; cbn [rejectEach];
    [apply at_ret|].
  apply at_bind; [|apply IH].
  unfold rejectOne, clearTimeout, reject, settle.
  repeat addressed_step.
Qed.

Lemma addressed_rejectAllPending error :
  addressed (rejectAllPending error).
Proof.
  intros c. unfold rejectAllPending. apply at_get_bind.
  apply addressed_rejectEach.
Qed.

Lemma addressed_connect now : addressed (connect now).
Proof.
  intros c. unfold connect.
  apply at_bind; [apply addressed_setStatus|
                  apply addressed_callTransport].
Qed.

Lemma addressed_disconnect now : addressed (disconnect now).
Proof. apply addressed_callTransport. Qed.

Lemma addressed_disconnectResumed awaited now :
  addressed (disconnectResumed awaited now).
Proof.
  intros c. destruct awaited as [e|]; cbn [disconnectResumed];
    [apply at_ret|].
  apply at_bind; [apply addressed_setStatus|].
  apply at_bind; [apply addressed_rejectAllPending|apply at_ret].
Qed.

Lemma addressed_request method params now random36 :
  addressed (request method params now random36).
Proof.
  intros c. unfold request, newPromise, setTimeout.
  repeat first [apply addressed_log | apply addressed_callTransport
               | addressed_step].
Qed.

Lemma addressed_timeoutFired h : addressed (timeoutFired h).
Proof.
  intros c. unfold timeoutFired, reject, settle.
  repeat addressed_step.
Qed.

Lemma addressed_runAll fns now : addressed (runAll fns now).
Proof.
  induction fns as [|fn rest IH]; intros c; cbn [runAll];
    [apply at_ret|].
  apply at_bind; [apply addressed_callTransport|apply IH].
Qed.

Lemma addressed_destroy now : addressed (destroy now).
Proof.
  intros c. unfold destroy. apply at_get_bind.
  apply at_bind; [apply addressed_runAll|].
  apply at_bind; [apply at_modify; reflexivity|].
  apply addressed_rejectAllPending.
Qed.

(** Whatever an input makes the client emit goes to the handlers
    the emitter of the event held before the input. *)
Lemma client_emits_addressed (i : Input) c :
  Forall (addressed_to c) (exec (react i) c).2.
Proof.
  unfold exec. cbn [snd].
  destruct i as [now|now|awaited now|now r|now r|name args now r|now|ev k|ev k|h|i now];
    cbn [react].
  - apply (at_bind _ _ c); [apply addressed_connect|apply at_ret].
  - apply (at_bind _ _ c); [apply addressed_disconnect|apply at_ret].
  - apply (at_bind _ _ c); [apply addressed_disconnectResumed|apply at_ret].
  - apply (at_bind _ _ c); [apply addressed_request|apply at_ret].
  - apply (at_bind _ _ c); [apply addressed_request|apply at_ret].
  - apply (at_bind _ _ c); [apply addressed_request|apply at_ret].
  - apply addressed_destroy.
  - destruct ev; constructor.
  - destruct ev; constructor.
  - apply addressed_timeoutFired.
  - apply addressed_callTransport.
Qed.

(** The status the client holds is the last status it emitted. *)
Lemma status_last_emitted (i : Input) c :
  status (exec (react i) c).1
  = default (status c) (last (statusesEmitted (exec (react i) c).2)).
Proof.
  destruct i as [now|now|[e|] now|now r|now r|name args now r|now|ev k|ev k|h|i now].
  1: { cbn [react]. rewrite exec_then_ret, exec_then_ret_effects.
       apply connect_statuses. }
  3: { cbn [react]. rewrite exec_then_ret, exec_then_ret_effects.
       destruct (disconnectResumed_statuses now c) as (H1 & H2 & H3).
       by rewrite H3, H1, H2. }
  all: apply mirroring_react; congruence.
Qed.
End WithTransport.
End McpClientEmits.

(** * The stores and the client they are made on *)
Module McpStoresClient.
Import McpClient McpClientDefs McpStores McpClientFacts McpClientEmits
  McpStoresFacts EmitterFacts.

Lemma called_proj {X} (g : t → X) k f to st :
  (∀ s, g (f s) = g s) → g (called k f to st) = g st.
Proof.
  intros Hf. unfold called. revert st.
  induction to as [|h to IH]; intros st; [done|]. cbn [foldl].
  destruct (decide (h = External k)); [|apply IH]. by rewrite IH, Hf.
Qed.

Lemma called_idem k f to st :
  (∀ s, f (f s) = f s) → called k f to (f st) = f st.
Proof.
  intros Hf. unfold called.
  induction to as [|h to IH]; [done|]. cbn [foldl].
  destruct (decide (h = External k)); [|apply IH]. by rewrite Hf.
Qed.

Lemma called_in k f to st :
  (∀ s, f (f s) = f s) → External k ∈ to → called k f to st = f st.
Proof.
  intros Hf. revert st. induction to as [|h to IH]; intros st Hin.
  - by apply elem_of_nil in Hin.
  - unfold called. cbn [foldl].
    destruct (decide (h = External k)) as [->|Hne].
    + by apply called_idem.
    + apply elem_of_cons in Hin as [Heq|Hin]; [congruence|].
      by apply IH.
Qed.

Lemma statusHandler_idem v s : statusHandler v (statusHandler v s) = statusHandler v s.
Proof. reflexivity. Qed.

Lemma notify_status ks e st :
  k_status st = ks → heard ks e →
  k_status (notify e st) = ks
  ∧ cs_status (connection (notify e st))
    = default (cs_status (connection st)) (last (statusesEmitted [e])).
Proof.
  intros Hk He. destruct e as [|[m|v|err|l] to| | | | |]; cbn [notify];
    try done.
  - rewrite Hk, called_in; [done|apply statusHandler_idem|done].
  - by rewrite (called_proj k_status),
      (called_proj (λ s, cs_status (connection s))).
  - by rewrite (called_proj k_status),
      (called_proj (λ s, cs_status (connection s))).
Qed.

Lemma statusesEmitted_cons e out :
  statusesEmitted (e :: out) = statusesEmitted [e] ++ statusesEmitted out.
Proof. apply (statusesEmitted_app [e] out). Qed.

Lemma observe_status ks out st :
  k_status st = ks → Forall (heard ks) out →
  k_status (observe out st) = ks
  ∧ cs_status (connection (observe out st))
    = default (cs_status (connection st)) (last (statusesEmitted out)).
Proof.
  intros Hk Hout. revert st Hk.
  induction Hout as [|e out He _ IH]; intros st Hk; [done|].
  unfold observe. cbn [foldl]. fold (observe out (notify e st)).
  destruct (notify_status ks e st Hk He) as [Hk1 Hs1].
  destruct (IH _ Hk1) as [Hk2 Hs2]. split; [exact Hk2|].
  rewrite (statusesEmitted_cons e out), Hs2, Hs1. symmetry.
  apply default_last_app.
Qed.

Lemma observe_app o1 o2 st : observe (o1 ++ o2) st = observe o2 (observe o1 st).
Proof. apply foldl_app. Qed.

Section WithTransport.
Context {T : Type} `{McpTransport T}.
Implicit Types (c : McpClient.t T) (now : Z).

Lemma client_run_cons (i : Input) (rest : list Input) c :
  run (i :: rest) c
  = ((run rest (exec (react i) c).1).1,
     (exec (react i) c).2 ++ (run rest (exec (react i) c).1).2).
Proof.
  cbn [run]. destruct (exec (react i) c) as [c1 o1]. cbn [fst snd].
  by destruct (run rest c1) as [c2 o2].
Qed.

(** The status callback of the stores stays subscribed unless it
    is unsubscribed. *)
Lemma status_subscription_kept ks (i : Input) c :
  (∀ v, i ≠ Unsubscribe (EvStatus v) ks) →
  External ks ∈ Emitter.emit (statusEmitter c) →
  External ks ∈ Emitter.emit (statusEmitter (exec (react i) c).1).
Proof.
  intros Hi Hin. unfold exec. cbn [fst].
  assert (Hkeep : ∀ m : Run Effect (McpClient.t T) unit,
             addressed_at c m →
             External ks ∈ Emitter.emit (statusEmitter (m c).1.2)).
  { intros m [He _]. unfold emitters in He. injection He as Hs _ _ _.
    by rewrite Hs. }
  destruct i as [now|now|awaited now|now r|now r|name args now r|now|ev k|ev k|h|i now];
    cbn [react].
  - apply Hkeep, at_bind; [apply addressed_connect|apply at_ret].
  - apply Hkeep, at_bind; [apply addressed_disconnect|apply at_ret].
  - apply Hkeep, at_bind; [apply addressed_disconnectResumed|apply at_ret].
  - apply Hkeep, at_bind; [apply addressed_request|apply at_ret].
  - apply Hkeep, at_bind; [apply addressed_request|apply at_ret].
  - apply Hkeep, at_bind; [apply addressed_request|apply at_ret].
  - apply Hkeep, addressed_destroy.
  - destruct ev; try exact Hin. unfold Emitter.emit.
    cbn -[Emitter.on]. apply elem_of_on. by right.
  - destruct ev as [|v| |]; try exact Hin. unfold Emitter.emit.
    cbn -[Emitter.off]. apply elem_of_off. split; [|done].
    intros [= ->]. by apply (Hi v).
  - apply Hkeep, addressed_timeoutFired.
  - apply Hkeep, addressed_callTransport.
Qed.

Lemma heard_step ks (i : Input) c :
  External ks ∈ Emitter.emit (statusEmitter c) →
  Forall (heard ks) (exec (react i) c).2.
Proof.
  intros Hin. eapply Forall_impl; [apply (client_emits_addressed i c)|].
  intros e. destruct e as [|[m|v|err|l] to| | | | |]; try done.
  cbn. by intros ->.
Qed.

Lemma run_status ks (inputs : list Input) c :
  (∀ v, Unsubscribe (EvStatus v) ks ∉ inputs) →
  External ks ∈ Emitter.emit (statusEmitter c) →
  Forall (heard ks) (run inputs c).2
  ∧ status (run inputs c).1
    = default (status c) (last (statusesEmitted (run inputs c).2)).
Proof.
  revert c. induction inputs as [|i rest IH]; intros c Hnot Hin.
  { split; [constructor|done]. }
  rewrite client_run_cons. cbn [fst snd].
  destruct (IH (exec (react i) c).1) as [Hh Hs].
  { intros v Hv. apply (Hnot v). by apply list_elem_of_further. }
  { apply status_subscription_kept; [|done].
    intros v ->. apply (Hnot v), list_elem_of_here. }
  split.
  - apply Forall_app. split; [by apply heard_step|exact Hh].
  - rewrite Hs, status_last_emitted, statusesEmitted_app. symmetry.
    apply default_last_app.
Qed.

(** X21. The connection store shows the status of the client: from
    [createMcpStores] on, after any inputs to the client that do
    not unsubscribe the status callback of the stores, the store
    holds the last status the client emitted, which is the status
    the client holds; before the first one it holds
    [Disconnected], whatever the status of the client was when the
    stores were made. *)
Theorem connection_store_shows_status (ks ke kl : nat) c
    (inputs : list Input) :
  (∀ v, Unsubscribe (EvStatus v) ks ∉ inputs) →
  let created := createMcpStores ks ke kl c in
  let r := run inputs created.1.2 in
  let st := observe r.2 created.1.1 in
  cs_status (connection st)
  = default Disconnected (last (statusesEmitted r.2))
  ∧ status r.1 = default (status c) (last (statusesEmitted r.2))
  ∧ (status c = Disconnected ∨ statusesEmitted r.2 ≠ [] →
     cs_status (connection st) = status r.1
     ∧ cs_isConnected (connection st)
       = bool_decide (status r.1 = Connected)).
Proof.
  intros Hnot created r st.
  assert (Hin : External ks
                ∈ Emitter.emit (statusEmitter created.1.2)).
  { subst created. unfold Emitter.emit. cbn -[Emitter.on].
    apply elem_of_on. by left. }
  destruct (run_status ks inputs created.1.2 Hnot Hin) as [Hh Hs].
  fold r in Hh, Hs.
  destruct (observe_status ks r.2 created.1.1 eq_refl Hh) as [_ Ho].
  fold st in Ho.
  change (cs_status (connection created.1.1)) with Disconnected in Ho.
  change (status created.1.2) with (status c) in Hs.
  split; [exact Ho|]. split; [exact Hs|].
  intros Hor.
  assert (Heq : cs_status (connection st) = status r.1).
  { rewrite Ho, Hs. destruct Hor as [->|Hne]; [done|].
    destruct (last (statusesEmitted r.2)) eqn:E; [done|].
    apply last_None in E. done. }
  split; [exact Heq|]. rewrite <- Heq.
  by destruct (sound_observe created.1.1 r.2 created.1.1) as [? _].
Qed.

(** X22. [destroy] of the stores undoes [createMcpStores]: the
    three callbacks, which are new to the emitters of the client
    when they are subscribed, are taken out again and the client is
    as it was before the stores were made; neither call makes the
    client emit anything. *)
Theorem stores_destroy_undoes_create (ks ke kl : nat) c :
  (External ks ∉ Emitter.emit (statusEmitter c)) →
  (External ke ∉ Emitter.emit (errorEmitter c)) →
  (External kl ∉ Emitter.emit (logEmitter c)) →
  let created := createMcpStores ks ke kl c in
  created.2 = []
  ∧ External ks ∈ Emitter.emit (statusEmitter created.1.2)
  ∧ External ke ∈ Emitter.emit (errorEmitter created.1.2)
  ∧ External kl ∈ Emitter.emit (logEmitter created.1.2)
  ∧ McpStores.destroy created.1.1 created.1.2 = (tt, c, []).
Proof.
  intros Hs He Hl created. unfold Emitter.emit in *.
  split; [done|].
  split; [cbn -[Emitter.on]; apply elem_of_on; by left|].
  split; [cbn -[Emitter.on]; apply elem_of_on; by left|].
  split; [cbn -[Emitter.on]; apply elem_of_on; by left|].
  subst created. unfold createMcpStores, McpStores.destroy, onStatus,
    onError, onLog, offStatus, offError, offLog.
  run_unfold. cbn -[Emitter.on Emitter.off].
  rewrite !off_on_fresh by done. by destruct c.
Qed.
End WithTransport.
End McpStoresClient.

(** * The stores of a client over the SSE transport *)
Module McpStoresSse.
Import McpClient McpClientDefs McpStores SseTransportDefs McpClientFacts
  McpClientEmits McpStoresFacts McpStoresClient EmitterFacts SseClientFacts
  SseClientDefs.

Lemma notify_calm e st : calm e → connection (notify e st) = connection st
                                  ∧ k_status (notify e st) = k_status st.
Proof.
  destruct e as [|[m|v|err|l] to| | | | |]; cbn [notify calm]; try done.
  intros _. by rewrite (called_proj connection), (called_proj k_status).
Qed.

Lemma observe_calm out st :
  Forall calm out →
  connection (observe out st) = connection st
  ∧ k_status (observe out st) = k_status st.
Proof.
  intros Hout. revert st. induction Hout as [|e out He _ IH]; intros st;
    [done|].
  unfold observe. cbn [foldl]. fold (observe out (notify e st)).
  destruct (IH (notify e st)) as [-> ->]. by apply notify_calm.
Qed.

Lemma observe_keys out st : k_status (observe out st) = k_status st.
Proof.
  revert st. induction out as [|e out IH]; intros st; [done|].
  unfold observe. cbn [foldl]. fold (observe out (notify e st)).
  rewrite IH.
  destruct e as [|[m|v|err|l] to| | | | |]; cbn [notify]; try done;
    by rewrite (called_proj k_status).
Qed.

Lemma plain_statuses tail :
  Forall plain tail → SseTransportDefs.statuses tail = [].
Proof.
  induction 1 as [|e tail He _ IH]; [done|].
  destruct e as [[m|v|err|l] to| | | | |]; try done.
Qed.

Section WithTransport.
Context {T : Type} `{McpTransport T}.
Implicit Types (c : McpClient.t T) (now : Z).

Lemma dispatch_app o1 o2 now c :
  dispatch (o1 ++ o2) now c
  = (tt, (dispatch o2 now (dispatch o1 now c).1.2).1.2,
     (dispatch o1 now c).2 ++ (dispatch o2 now (dispatch o1 now c).1.2).2).
Proof.
  revert c. induction o1 as [|e o1 IH]; intros c.
  - cbn. by destruct (dispatch o2 now c) as [[[] c2] o].
  - rewrite <- app_comm_cons, !dispatch_cons, IH. cbn [fst snd].
    by rewrite app_assoc.
Qed.

Lemma dispatch_plain out now c :
  Forall plain out → Forall calm (dispatch out now c).2.
Proof.
  intros Hout. revert c. induction Hout as [|e out He _ IH]; intros c;
    [constructor|].
  rewrite dispatch_cons. cbn [snd]. constructor; [done|].
  apply Forall_app. split; [|apply IH].
  destruct e as [[m|v|err|l] to| | | | |]; cbn [deliver]; try done;
    try constructor.
  destruct (decide (ClientHook ∈ to)); repeat constructor.
Qed.
End WithTransport.

Section WithParser.
Variable JSON_parse : string → Thrown + McpMessage.

#[local] Hint Extern 0 (McpTransport SseTransport.t) =>
  exact (SseTransport_McpTransport JSON_parse) : typeclass_instances.

Implicit Types (c : McpClient.t SseTransport.t) (now : Z).

Local Abbreviation FromChannel i now :=
  (@TransportInput _ (SseTransport_McpTransport JSON_parse) i now).

Lemma onerror_outputs (tr : SseTransport.t) random now :
  SseTransport.manualClose tr = false →
  ∃ tail,
    (SseTransport.onerror random now tr).2
    = [TEmit (EvError (Error "SSE connection error"))
             (Emitter.emit (SseTransport.errorEmitter tr));
       TEmit (EvLog (mkLog LevelError "SSE connection error" now None))
             (Emitter.emit (SseTransport.logEmitter tr))]
      ++ [TEmit (EvStatus Reconnecting)
                (Emitter.emit (SseTransport.statusEmitter tr))]
      ++ tail
    ∧ Forall plain tail.
Proof.
  intros Hm. destruct tr as [? ? st mc ? ? src tm ? ? ? ? due ?].
  cbn in Hm. subst mc. SseTransportFacts.sse_unfold.
  destruct tm; cbn -[number_to_string Number.toString Math.round];
    eexists; (split; [reflexivity|]); repeat constructor.
Qed.

(** X23. After an error of the channel the connection store reads
    [Reconnecting] and no [lastError]: the transport emits the error
    first and the status after it, and the status update of the
    store replaces the state in which the error handler had put the
    message. *)
Theorem channel_error_leaves_no_lastError c (st : McpStores.t)
    (random : number) (now' now : Z) :
  SseTransport.manualClose (transport c) = false →
  listening c →
  External (k_status st) ∈ Emitter.emit (statusEmitter c) →
  let r := react (FromChannel (SseTransport.SourceError random now') now)
                 c in
  connection (observe r.2 st) = mkConnection Reconnecting false None
  ∧ status r.1.2 = Reconnecting.
Proof.
  intros Hm Hl Hk r. subst r.
  cbn [react tr_react SseTransport_McpTransport SseTransport.react].
  destruct (onerror_outputs (transport c) random now' Hm)
    as (tail & Hout & Htail).
  unfold callTransport.
  destruct (SseTransport.onerror random now' (transport c))
    as [[[] tr] out]. cbn [snd] in Hout. subst out.
  set (c0 := set_transport tr c).
  assert (Hk0 : External (k_status st) ∈ Emitter.emit (statusEmitter c0))
    by done.
  rewrite !dispatch_app.
  set (d1 := dispatch [_; _] now c0).
  assert (Hk1 : statusEmitter d1.1.2 = statusEmitter c0).
  { destruct (addressed_dispatch
                [TEmit (EvError (Error "SSE connection error"))
                   (Emitter.emit (SseTransport.errorEmitter (transport c)));
                 TEmit (EvLog (mkLog LevelError "SSE connection error"
                                     now' None))
                   (Emitter.emit (SseTransport.logEmitter (transport c)))]
                now c0) as [He _].
    fold d1 in He. unfold emitters in He. by injection He. }
  rewrite dispatch_cons. cbn [deliver clientHook].
  rewrite decide_True by exact Hl. rewrite setStatus_eq.
  cbn [dispatch ret fst snd].
  set (tl := dispatch tail now _).
  destruct tl as [[[] c3] o3] eqn:Etl. cbn [fst snd].
  assert (Hcalm : Forall calm o3).
  { pose proof (dispatch_plain tail now
                  (set_status Reconnecting d1.1.2) Htail) as Hc.
    fold tl in Hc. by rewrite Etl in Hc. }
  assert (Hst3 : status c3 = Reconnecting).
  { pose proof (SseClientLaws.dispatch_status tail now
                  (set_status Reconnecting d1.1.2)) as Hs.
    fold tl in Hs. rewrite Etl in Hs. cbn [fst snd] in Hs.
    rewrite Hs.
    - by rewrite (plain_statuses tail Htail).
    - intros v to Hin.
      by destruct (proj1 (Forall_forall _ _) Htail _ Hin). }
  split; [|exact Hst3].
  rewrite !observe_app.
  destruct (observe_calm o3
              (observe
                 (FromTransport
                    (TEmit (EvStatus Reconnecting)
                       (Emitter.emit
                          (SseTransport.statusEmitter (transport c))))
                  :: [Emit (EvStatus Reconnecting)
                        (Emitter.emit (statusEmitter d1.1.2));
                      Emit (EvLog (mkLog LevelInfo
                                     ("status " +:+ status_name Reconnecting)
                                     now None))
                        (Emitter.emit (logEmitter d1.1.2));
                      Logger (mkLog LevelInfo
                                ("status " +:+ status_name Reconnecting)
                                now None)] ++ [])
                 (observe d1.2 st)) Hcalm) as [-> _].
  unfold observe at 1. cbn [foldl app notify].
  rewrite (called_proj connection) by done.
  rewrite observe_keys, Hk1, called_in;
    [done|apply statusHandler_idem|exact Hk0].
Qed.
End WithParser.
End McpStoresSse.

(** * The theorems above at concrete inputs *)
Module Examples.
Import McpClient SseClient McpClientFacts SseClientFacts.

#[local] Hint Extern 0 (McpTransport SseTransport.t) =>
  exact (SseTransport_McpTransport sample_parse) : typeclass_instances.

Local Abbreviation Channel i now :=
  (@TransportInput _ (SseTransport_McpTransport sample_parse) i now).

Lemma sample_calling_reachable : reachable sample_calling.
Proof. apply reachable_run, reachable_new. Qed.

Lemma sample_calling_pending :
  pending sample_calling = [("m2r1bz7k-4fzyo82m", mkPending 0 0)].
Proof. vm_compute. reflexivity. Qed.

(** X1 on [sample_calling]. *)
Lemma pending_requests_consistent_witness :
  promises sample_calling !! 0 = Some Unsettled
  ∧ ∃ cb, timers sample_calling !! 0 = Some (Some cb)
          ∧ cb_id cb = "m2r1bz7k-4fzyo82m" ∧ cb_reject cb = 0.
Proof.
  destruct (McpClientLaws.pending_requests_consistent sample_calling
              sample_calling_reachable) as (_ & Hpd & _).
  refine (proj2 (proj2 (Hpd "m2r1bz7k-4fzyo82m" (mkPending 0 0) _))).
  rewrite sample_calling_pending. apply list_elem_of_here.
Defined.

(** X3 on two answers to the request of [sample_calling]. *)
Lemma second_response_unmatched_witness :
  let X := "m2r1bz7k-4fzyo82m" in
  let m := mkMessage (Some X) None None (Some (JString "first")) None in
  let m' := mkMessage (Some X) None None (Some (JString "second")) None in
  let c1 := (handleMessage m 5 sample_calling).1.2 in
  (handleMessage m' 6 c1).1.2 = c1
  ∧ promises (handleMessage m' 6 c1).1.2 !! 0
    = Some (Resolved (JString "first")).
Proof.
  intros X m m' c1.
  destruct (McpClientLaws.second_response_unmatched sample_calling m m' 5 6
              X (mkPending 0 0) sample_calling_reachable
              ltac:(vm_compute; reflexivity) eq_refl eq_refl)
    as (Hsame & Hp & _).
  split; [exact Hsame|exact Hp].
Defined.

(** X4: the timeout of [sample_calling] after the response. *)
Lemma response_cancels_timeout_witness :
  let X := "m2r1bz7k-4fzyo82m" in
  let m := mkMessage (Some X) None None (Some (JString "ok")) None in
  let c2 := (run [CallListTools 1730000000001 "0.4fzyo82mvyr"]
                 (handleMessage m 5 sample_calling).1.2).1 in
  timeoutFired 0 c2 = (tt, c2, []).
Proof.
  intros X m c2.
  exact (proj1 (McpClientLaws.response_cancels_timeout sample_calling m 5 X
                  (mkPending 0 0)
                  [CallListTools 1730000000001 "0.4fzyo82mvyr"]
                  sample_calling_reachable
                  ltac:(vm_compute; reflexivity) eq_refl)).
Defined.

(** X5: a second request, made a millisecond later, when the first
    is answered. *)
Lemma response_leaves_other_requests_witness :
  let X := "m2r1bz7k-4fzyo82m" in
  let Y := "m2r1bz7l-4fzyo82m" in
  let c := (run [CallListTools 1730000000001 "0.4fzyo82mvyr"]
                sample_calling).1 in
  let m := mkMessage (Some X) None None (Some (JString "ok")) None in
  JsMap.get Y (pending c) = Some (mkPending 1 1)
  ∧ JsMap.get Y (pending (handleMessage m 5 c).1.2) = Some (mkPending 1 1)
  ∧ promises (handleMessage m 5 c).1.2 !! 1 = Some Unsettled.
Proof.
  intros X Y c m.
  assert (HY : JsMap.get Y (pending c) = Some (mkPending 1 1))
    by (vm_compute; reflexivity).
  destruct (McpClientLaws.response_leaves_other_requests c m 5 X Y
              (mkPending 0 0) (mkPending 1 1)
              ltac:(apply reachable_run, sample_calling_reachable)
              ltac:(vm_compute; reflexivity) eq_refl
              ltac:(discriminate) HY) as (Hget & Hp & _).
  split; [exact HY|]. split; [exact Hget|exact Hp].
Defined.

(** X6: the answer [{id}] to the request of [sample_calling]. *)
Lemma empty_response_resolves_null_witness :
  let X := "m2r1bz7k-4fzyo82m" in
  let m := mkMessage (Some X) None None None None in
  promises (handleMessage m 5 sample_calling).1.2 !! 0
  = Some (Resolved JNull)
  ∧ outcome ListTools SendFulfilled
      (promises (handleMessage m 5 sample_calling).1.2 !! 0)
    = Resolved (JArray []).
Proof.
  intros X m.
  destruct (McpClientLaws.empty_response_resolves_null sample_calling m 5 X
              (mkPending 0 0) sample_calling_reachable
              ltac:(vm_compute; reflexivity) eq_refl eq_refl eq_refl)
    as (Hp & Hl & _).
  split; [exact Hp|exact Hl].
Defined.

(** X7 on [sample_calling]. *)
Lemma destroy_twice_witness :
  let c1 := (destroy 8 sample_calling).1.2 in
  destroy 9 c1 = (tt, c1, []).
Proof.
  intros c1.
  exact (proj2 (proj2 (McpClientLaws.destroy_twice sample_calling 8 9
                         sample_calling_reachable))).
Defined.

(** X11 on a transport that lost its channel twice. *)
Lemma one_reconnect_timer_witness :
  let s := (SseTransport.run sample_parse
              [SseTransport.CallConnect;
               SseTransport.SourceError sample_random 0;
               SseTransport.SourceError sample_random 1]
              (SseTransport.new
                 (SseTransport.mkOptions None None None None None))).1 in
  SseTransport.dueTimers s = [3]
  ∧ (length (SseTransport.dueTimers s) ≤ 1)%nat.
Proof.
  intros s. split; [vm_compute; reflexivity|].
  apply (SseTransportLaws.one_reconnect_timer sample_parse s).
  apply SseTransportFacts.transport_reachable_run,
    SseTransport.reachable_new.
Defined.

(** X13 on a transport to whose status emitter one callback was
    subscribed twice. *)
Lemma subscriber_called_once_witness :
  let s := (SseTransport.run sample_parse
              [SseTransport.Subscribe (EvStatus Connected) 7;
               SseTransport.Subscribe (EvStatus Connected) 7]
              (SseTransport.new
                 (SseTransport.mkOptions None None None None None))).1 in
  Emitter.emit (SseTransport.statusEmitter s) = [External 7]
  ∧ NoDup (Emitter.emit (SseTransport.statusEmitter s)).
Proof.
  intros s. split; [vm_compute; reflexivity|].
  destruct (SseTransportLaws.subscriber_called_once sample_parse s
              SseTransport.CallConnect) as [(_ & Hs & _) _]; [|exact Hs].
  apply SseTransportFacts.transport_reachable_run,
    SseTransport.reachable_new.
Defined.

(** X14: the channel of [sample_calling] fails. *)
Lemma channel_events_settle_nothing_witness :
  let r := react (Channel (SseTransport.SourceError sample_random 3) 3)
                 sample_calling in
  pending r.1.2 = pending sample_calling
  ∧ promises r.1.2 = promises sample_calling
  ∧ status r.1.2 = Reconnecting.
Proof.
  intros r.
  destruct (SseClientLaws.channel_events_settle_nothing sample_parse
              sample_calling (SseTransport.SourceError sample_random 3) 3)
    as (Hpd & Hps & _); [discriminate|].
  split; [exact Hpd|]. split; [exact Hps|]. vm_compute. reflexivity.
Defined.

(** X15: [sample_calling] is destroyed, then its channel fails. *)
Lemma destroyed_client_hears_nothing_witness :
  let d := (destroy 8 sample_calling).1.2 in
  let r := run [Channel (SseTransport.SourceError sample_random 9) 9] d in
  status r.1 = Connected
  ∧ SseTransport.status (transport r.1) = Reconnecting
  ∧ SseClientDefs.own r.1 = SseClientDefs.own d.
Proof.
  intros d r.
  destruct (SseClientLaws.destroyed_client_hears_nothing sample_parse
              sample_calling 8 [(SseTransport.SourceError sample_random 9, 9%Z)]
              sample_calling_reachable) as (Hown & _).
  split; [vm_compute; reflexivity|]. split; [vm_compute; reflexivity|].
  exact Hown.
Defined.

(** X18 at two consecutive milliseconds. *)
Lemma generateId_collides_only_within_a_millisecond_witness :
  generateId 1730000000000 "0.4fzyo82mvyr" = "m2r1bz7k-4fzyo82m"
  ∧ generateId 1730000000000 "0.4fzyo82mvyr"
    ≠ generateId 1730000000001 "0.4fzyo82mvyr".
Proof.
  split; [vm_compute; reflexivity|]. intros E.
  apply (GenerateIdFacts.generateId_collides_only_within_a_millisecond
           1730000000000 1730000000001 "0.4fzyo82mvyr" "0.4fzyo82mvyr")
    in E as [E _]; [discriminate|lia|lia].
Defined.

(** X19: two entries fed to an empty log store. *)
Lemma logs_keep_last_200_witness :
  let st := McpStores.mk (McpStores.mkConnection Disconnected false None)
              [] [] [] 1 2 3 in
  let l1 := mkLog LevelInfo "one" 1 None in
  let l2 := mkLog LevelWarn "two" 2 None in
  McpStores.logs
    (McpStores.logHandler l2 (McpStores.logHandler l1 st)) = [l1; l2].
Proof.
  intros st l1 l2.
  refine (proj1 (proj2 (proj2
    (McpStoresFacts.logs_keep_last_200 [l1; l2] [] st _))) _);
    cbn; lia.
Defined.

(** X21: stores made on [sample_client], which then connects and
    whose channel opens. *)
Lemma connection_store_shows_status_witness :
  let created := McpStores.createMcpStores 1 2 3 sample_client in
  let r := run [CallConnect 1; Channel (SseTransport.SourceOpen 2) 2]
               created.1.2 in
  let st := McpStores.observe r.2 created.1.1 in
  status r.1 = Connected
  ∧ McpStores.cs_status (McpStores.connection st) = status r.1
  ∧ McpStores.cs_isConnected (McpStores.connection st) = true.
Proof.
  intros created r st.
  destruct (McpStoresClient.connection_store_shows_status 1 2 3
              sample_client
              [CallConnect 1; Channel (SseTransport.SourceOpen 2) 2])
    as (_ & _ & Hs).
  { intros v Hin.
    repeat (apply elem_of_cons in Hin as [Hin|Hin]; [discriminate|]).
    by apply elem_of_nil in Hin. }
  destruct Hs as [Hs Hf]; [by left|].
  assert (Hst : status r.1 = Connected) by (vm_compute; reflexivity).
  split; [exact Hst|]. split; [exact Hs|].
  fold created in Hf. fold r in Hf. fold st in Hf.
  rewrite Hf, Hst. reflexivity.
Defined.

(** X23: stores made on [sample_client], which connects; then the
    channel fails. *)
Lemma channel_error_leaves_no_lastError_witness :
  let created := McpStores.createMcpStores 1 2 3 sample_client in
  let c := (run [CallConnect 1] created.1.2).1 in
  let r := react (Channel (SseTransport.SourceError sample_random 3) 4) c in
  Emit (EvError (Error "SSE connection error")) [External 2] ∈ r.2
  ∧ McpStores.connection (McpStores.observe r.2 created.1.1)
    = McpStores.mkConnection Reconnecting false None.
Proof.
  intros created c r.
  split.
  { vm_compute. apply list_elem_of_further, list_elem_of_here. }
  refine (proj1 (McpStoresSse.channel_error_leaves_no_lastError
                   sample_parse c created.1.1 sample_random 3 4 _ _ _)).
  - vm_compute. reflexivity.
  - unfold SseClientDefs.listening. vm_compute.
    apply list_elem_of_here.
  - vm_compute. apply list_elem_of_here.
Defined.

(** X22: stores made on [sample_client], then destroyed. *)
Lemma stores_destroy_undoes_create_witness :
  let created := McpStores.createMcpStores 1 2 3 sample_client in
  Emitter.emit (statusEmitter created.1.2) = [External 1]
  ∧ McpStores.destroy created.1.1 created.1.2 = (tt, sample_client, []).
Proof.
  intros created. split; [vm_compute; reflexivity|].
  refine (proj2 (proj2 (proj2 (proj2
    (McpStoresClient.stores_destroy_undoes_create 1 2 3 sample_client
       _ _ _))))); vm_compute; apply not_elem_of_nil.
Defined.
End Examples.
